(** * A verification model of [advanced-vector/vector.h]

    The file embeds the two class templates of the header, [RawMemory<T>]
    and [Vector<T>], and proves properties of their member functions.

    - Raw blocks returned by [operator new] live in a heap, a finite map
      from block addresses to arrays of cells; a cell is either raw memory
      ([None]) or holds a live object of the element type ([Some x]).
    - [Vector] objects live in an object store keyed by their address, so
      that [this != &rhs] and [Swap] are about object identity.
    - Member functions are computations in a state-and-exception monad
      over this world. A computation returns, throws a C++ exception, or
      faults (a failed [assert] or a use of memory that C++ leaves
      undefined).
    - A count of elements is a natural number, the number of cells of a
      block. The one place where the width of [size_t] matters is the byte
      count [n * sizeof(T)] of an allocation, which wraps: it is modelled
      on its own ([Allocate_bytes]), and the theorems about a count that
      the caller chooses ([Reserve], [Resize], [Vector(size_t)]) are
      stated for a count whose byte count does not wrap ([fits]).
      [operator new] is taken to succeed.
    - The element type is a parameter. Its constructors and assignments
      may throw, a constructor may throw after some objects of a call were
      built, and its default-initialisation may leave the object with an
      indeterminate value, as it does for [int].

    The file has four parts: the model (element type, world, monad, the
    standard algorithms, [RawMemory], [Vector]); the vocabulary of the
    properties and the sample element types and worlds; the execution
    lemmas, one equation per statement or member function, with the
    theorems that need no assumption on the element type; the theorems
    for element types that never throw, and the runs on concrete
    vectors. *)

From stdpp Require Import base option list gmap.

(** ** The element type

    [Vector<T>] uses its element type through construction, assignment and
    two type traits. Each operation may throw. *)

Class Element (T : Type) := {
  (** [std::is_nothrow_move_constructible_v<T>] *)
  is_nothrow_move_constructible : bool;
  (** [std::is_copy_constructible_v<T>] *)
  is_copy_constructible : bool;
  (** [T(const T&)]: the object built, [None] when the constructor throws. *)
  copy_ctor : T → option T;
  (** [T(T&&)]: the object built ([None] when the constructor throws) and
      the state in which the source is left. *)
  move_ctor : T → option T * T;
  (** [dst = src]: the state of [dst] afterwards, and whether the
      assignment completed ([false]: it threw). *)
  copy_assign : T → T → T * bool;
  (** [dst = std::move(src)]: the states of [dst] and [src] afterwards, and
      whether the assignment completed. *)
  move_assign : T → T → T * T * bool;
  (** [new (p) T]: default-initialisation of the [k]-th object that one
      call of a standard algorithm builds, counting from 0. The result is
      the object built, or [None] when the constructor throws. For a type
      such as [int], whose default-initialisation performs no
      initialisation, the object built is one with an indeterminate value
      (see [pod] below). The outcome may depend on [k]: a constructor is
      the element type's own code and can come to throw after some
      objects were built. *)
  default_ctor : nat → option T;
  (** [new (p) T()]: value-initialisation of the [k]-th object of a call. *)
  value_ctor : nat → option T;
  (** [sizeof(T)], in bytes. *)
  sizeof_T : positive;
  (** What the first trait promises. *)
  nothrow_move_sound :
    is_nothrow_move_constructible = true → ∀ x, is_Some (move_ctor x).1
}.

(** Element types whose copies and moves never throw and carry the value
    over. *)
Class Regular (T : Type) `{Element T} := {
  copy_ctor_regular : ∀ x, copy_ctor x = Some x;
  move_ctor_regular : ∀ x, (move_ctor x).1 = Some x;
  copy_assign_regular : ∀ d s, copy_assign d s = (s, true);
  move_assign_regular : ∀ d s, (move_assign d s).1.1 = s ∧ (move_assign d s).2 = true
}.

(** ** Pointers, handles and the world *)

(** A [T*]: null, or the address of a cell of a block. *)
Inductive ptr := nullptr | Ptr (block : nat) (off : nat).

Global Instance ptr_eq_dec : EqDecision ptr.
Proof. solve_decision. Defined.

(** [p + k] *)
Definition ptr_add (p : ptr) (k : nat) : ptr :=
  match p with
  | nullptr => nullptr
  | Ptr a i => Ptr a (i + k)
  end.

(** [p - k]; a pointer before the start of its block is not a pointer to
    anything, as [nullptr]. *)
Definition ptr_sub (p : ptr) (k : nat) : ptr :=
  match p with
  | nullptr => nullptr
  | Ptr a i => if decide (k ≤ i) then Ptr a (i - k) else nullptr
  end.

Infix "+ₚ" := ptr_add (at level 50, left associativity).
Infix "-ₚ" := ptr_sub (at level 50, left associativity).

(** The data members of [RawMemory<T>]. *)
Record RawMemory := mkRawMemory {
  buffer_ : ptr;
  capacity_ : nat
}.

(** The data members of [Vector<T>]. *)
Record Vector := mkVector {
  data_ : RawMemory;
  size_ : nat
}.

Section World.
Context {T : Type}.

Record World := mkWorld {
  (** the blocks obtained from [operator new] and not yet released *)
  heap : gmap nat (list (option T));
  (** the [Vector] objects, by address *)
  vecs : gmap nat Vector;
  (** objects whose storage was released, or built over, while they were
      live: their destructor never ran *)
  leaked : list T
}.

Definition set_heap (f : gmap nat (list (option T)) → gmap nat (list (option T)))
    (w : World) : World :=
  mkWorld (f (heap w)) (vecs w) (leaked w).

Definition set_vecs (f : gmap nat Vector → gmap nat Vector) (w : World) : World :=
  mkWorld (heap w) (f (vecs w)) (leaked w).

Definition leak (xs : list T) (w : World) : World :=
  mkWorld (heap w) (vecs w) (leaked w ++ xs).

(** ** The monad *)

Inductive outcome (A : Type) :=
  | Ok (a : A) (w : World)   (* normal return *)
  | Exn (w : World)          (* an exception propagates *)
  | Fault.                   (* failed assertion or undefined behaviour *)
Global Arguments Ok {A} a w.
Global Arguments Exn {A} w.
Global Arguments Fault {A}.

Definition M (A : Type) : Type := World → outcome A.

Global Instance M_ret : MRet M := λ A a w, Ok a w.

Global Instance M_bind : MBind M := λ A B k m w,
  match m w with
  | Ok a w' => k a w'
  | Exn w' => Exn w'
  | Fault => Fault
  end.

(** [throw] *)
Definition throw {A} : M A := λ w, Exn w.

Definition fault {A} : M A := λ _, Fault.

(** [try { m } catch (...) { handler; throw; }] *)
Definition on_exception {A} (m : M A) (handler : M unit) : M A :=
  λ w, match m w with
       | Exn w' => (handler;; throw) w'
       | r => r
       end.

(** [assert(b)] *)
Definition assert (b : bool) : M unit := if b then mret tt else fault.

End World.

Global Arguments World T : clear implicits.
Global Arguments M T A : clear implicits.
Global Arguments outcome T A : clear implicits.

Section Operations.
Context {T : Type} `{Element T}.

(** ** Cells *)

(** The cell a pointer designates, if it designates one. *)
Definition cell_at (p : ptr) (w : World T) : option (option T) :=
  match p with
  | nullptr => None
  | Ptr a i => heap w !! a ≫= (.!! i)
  end.

Definition set_cell (p : ptr) (c : option T) (w : World T) : World T :=
  match p with
  | nullptr => w
  | Ptr a i => set_heap (alter (<[i:=c]>) a) w
  end.

(** Read the live object at [p]. *)
Definition load (p : ptr) : M T T := λ w,
  match cell_at p w with
  | Some (Some x) => Ok x w
  | _ => Fault
  end.

(** Give the live object at [p] a new state. *)
Definition store (p : ptr) (x : T) : M T unit := λ w,
  match cell_at p w with
  | Some (Some _) => Ok tt (set_cell p (Some x) w)
  | _ => Fault
  end.

(** Begin the lifetime of an object in the cell at [p]. An object that was
    live there is built over: its destructor never runs. *)
Definition construct_at (p : ptr) (x : T) : M T unit := λ w,
  match cell_at p w with
  | Some None => Ok tt (set_cell p (Some x) w)
  | Some (Some y) => Ok tt (leak [y] (set_cell p (Some x) w))
  | None => Fault
  end.

(** [std::destroy_at(p)] *)
Definition destroy_at (p : ptr) : M T unit := λ w,
  match cell_at p w with
  | Some (Some _) => Ok tt (set_cell p None w)
  | _ => Fault
  end.

(** [new (p) T(std::forward<Args>(args)...)]; [args] is what the
    constructor call evaluates to. Every call site evaluates it before it
    changes any element. *)
Definition placement_new (p : ptr) (args : option T) : M T unit :=
  match args with
  | Some x => construct_at p x
  | None => throw
  end.

(** placement-new at [dst] of a copy of the object at [src] *)
Definition copy_construct_at (dst src : ptr) : M T unit :=
  x ← load src;
  placement_new dst (copy_ctor x).

(** placement-new at [dst] of an object moved from the one at [src] *)
Definition move_construct_at (dst src : ptr) : M T unit :=
  x ← load src;
  store src (move_ctor x).2;;
  placement_new dst (move_ctor x).1.

(** copy-assign the object at [src] to the object at [dst] *)
Definition copy_assign_at (dst src : ptr) : M T unit :=
  d ← load dst;
  s ← load src;
  store dst (copy_assign d s).1;;
  if (copy_assign d s).2 then mret tt else throw.

(** move-assign the object at [src] to the object at [dst] *)
Definition move_assign_at (dst src : ptr) : M T unit :=
  d ← load dst;
  s ← load src;
  store src (move_assign d s).1.2;;
  store dst (move_assign d s).1.1;;
  if (move_assign d s).2 then mret tt else throw.

(** move-assign a local object [temp] to the object at [dst] *)
Definition move_assign_from (dst : ptr) (temp : T) : M T unit :=
  d ← load dst;
  store dst (move_assign d temp).1.1;;
  if (move_assign d temp).2 then mret tt else throw.

(** [last - first] for two pointers into one array. *)
Definition distance (first last : ptr) : M T nat :=
  match first, last with
  | nullptr, nullptr => mret 0
  | Ptr a i, Ptr b j => if decide (a = b ∧ i ≤ j) then mret (j - i) else fault
  | _, _ => fault
  end.

(** ** The algorithms of [<memory>] and [<algorithm>]

    Each follows its description in the C++ standard. The uninitialized
    algorithms destroy what they built when a construction throws. *)

Fixpoint destroy_n (first : ptr) (n : nat) : M T unit :=
  match n with
  | 0 => mret tt
  | S n' => destroy_at first;; destroy_n (first +ₚ 1) n'
  end.

Fixpoint uninitialized_copy_n (first : ptr) (n : nat) (d_first : ptr) : M T unit :=
  match n with
  | 0 => mret tt
  | S n' =>
      copy_construct_at d_first first;;
      on_exception (uninitialized_copy_n (first +ₚ 1) n' (d_first +ₚ 1))
                   (destroy_at d_first)
  end.

Fixpoint uninitialized_move_n (first : ptr) (n : nat) (d_first : ptr) : M T unit :=
  match n with
  | 0 => mret tt
  | S n' =>
      move_construct_at d_first first;;
      on_exception (uninitialized_move_n (first +ₚ 1) n' (d_first +ₚ 1))
                   (destroy_at d_first)
  end.

(** The loop of [std::uninitialized_default_construct_n] and of
    [std::uninitialized_value_construct_n]: [ctor k] is the outcome of the
    initialisation of the [k]-th object; when one throws, the objects
    built so far are destroyed and the exception goes on. *)
Fixpoint uninitialized_construct_from (ctor : nat → option T) (k : nat)
    (first : ptr) (n : nat) : M T unit :=
  match n with
  | 0 => mret tt
  | S n' =>
      placement_new first (ctor k);;
      on_exception (uninitialized_construct_from ctor (S k) (first +ₚ 1) n')
                   (destroy_at first)
  end.

Definition uninitialized_default_construct_n (first : ptr) (n : nat) : M T unit :=
  uninitialized_construct_from default_ctor 0 first n.

Definition uninitialized_value_construct_n (first : ptr) (n : nat) : M T unit :=
  uninitialized_construct_from value_ctor 0 first n.

(** [std::copy_n(first, n, d_first)] *)
Fixpoint copy_n (first : ptr) (n : nat) (d_first : ptr) : M T unit :=
  match n with
  | 0 => mret tt
  | S n' => copy_assign_at d_first first;; copy_n (first +ₚ 1) n' (d_first +ₚ 1)
  end.

Fixpoint move_n (first : ptr) (n : nat) (d_first : ptr) : M T unit :=
  match n with
  | 0 => mret tt
  | S n' => move_assign_at d_first first;; move_n (first +ₚ 1) n' (d_first +ₚ 1)
  end.

(** [std::move(first, last, d_first)] *)
Definition std_move (first last d_first : ptr) : M T unit :=
  n ← distance first last;
  move_n first n d_first.

Fixpoint move_backward_n (n : nat) (last d_last : ptr) : M T unit :=
  match n with
  | 0 => mret tt
  | S n' =>
      move_assign_at (d_last -ₚ 1) (last -ₚ 1);;
      move_backward_n n' (last -ₚ 1) (d_last -ₚ 1)
  end.

(** [std::move_backward(first, last, d_last)] *)
Definition move_backward (first last d_last : ptr) : M T unit :=
  n ← distance first last;
  move_backward_n n last d_last.

(** ** [RawMemory<T>] *)

(** *** The byte count of an allocation

    [Allocate(n)] asks [operator new] for [n * sizeof(T)] bytes, a product
    computed in [size_t], here 64 bits wide: it wraps when it exceeds
    [SIZE_MAX]. *)
Definition SIZE_MAX : N := 2 ^ 64 - 1.

Definition size_t_mul (a b : N) : N := ((a * b) mod (SIZE_MAX + 1))%N.

(** [n * sizeof(T)], the argument of [operator new] in [Allocate(n)]. *)
Definition Allocate_bytes (n : N) : N := size_t_mul n (Npos sizeof_T).

(** The objects of type [T] that a block of [bytes] bytes has room for. *)
Definition room (bytes : N) : N := (bytes / Npos sizeof_T)%N.

(** The count [n] is one whose byte count does not wrap: [Allocate(n)]
    then obtains a block with room for exactly [n] objects. *)
Definition fits (n : nat) : Prop := (N.of_nat n * Npos sizeof_T ≤ SIZE_MAX)%N.

Global Instance fits_dec (n : nat) : Decision (fits n) := N.le_dec _ _.

(** [RawMemory::Allocate]; the new block is all raw cells. The block has
    [n] cells: this is the block the code obtains for a count that
    [fits]. The counts the vector computes itself, from the number of its
    live elements, are taken to fit; a count that its caller chooses
    ([Reserve], [Resize], [Vector(size_t)]) need not, and the theorems
    about such a count are stated for one that [fits]. [operator new] is
    taken to succeed. *)
Definition Allocate (n : nat) : M T ptr := λ w,
  if decide (n ≠ 0)
  then let a := fresh (dom (heap w)) in
       Ok (Ptr a 0) (set_heap (<[a := replicate n None]>) w)
  else Ok nullptr w.

(** [RawMemory::Deallocate]: [operator delete(buf)]. Objects still live in
    the block are leaked. *)
Definition Deallocate (buf : ptr) : M T unit := λ w,
  match buf with
  | nullptr => Ok tt w
  | Ptr a 0 =>
      match heap w !! a with
      | Some cells => Ok tt (leak (omap id cells) (set_heap (delete a) w))
      | None => Fault
      end
  | Ptr _ (S _) => Fault
  end.

(** [RawMemory() = default] *)
Definition RawMemory_default : RawMemory := mkRawMemory nullptr 0.

(** [explicit RawMemory(size_t capacity)] *)
Definition RawMemory_ctor (capacity : nat) : M T RawMemory :=
  buf ← Allocate capacity;
  mret (mkRawMemory buf capacity).

(** [~RawMemory()] *)
Definition RawMemory_dtor (m : RawMemory) : M T unit :=
  Deallocate (buffer_ m).

(** [RawMemory::operator+] *)
Definition RawMemory_plus (m : RawMemory) (offset : nat) : M T ptr :=
  assert (bool_decide (offset ≤ capacity_ m));;
  mret (buffer_ m +ₚ offset).

(** [RawMemory::operator[]], as the address of the cell *)
Definition RawMemory_index (m : RawMemory) (index : nat) : M T ptr :=
  assert (bool_decide (index < capacity_ m));;
  mret (buffer_ m +ₚ index).

Definition GetAddress (m : RawMemory) : ptr := buffer_ m.

(** A block-scope [RawMemory<T> new_data(capacity);] followed by [body].
    [body] returns the handle as it is at the end of the scope; the
    destructor runs on it. When [body] throws, the destructor runs on the
    handle as constructed: in the header nothing that can throw follows
    the one statement that changes the handle, [data_.Swap(new_data)]. *)
Definition with_RawMemory {A} (capacity : nat)
    (body : RawMemory → M T (A * RawMemory)) : M T A :=
  new_data ← RawMemory_ctor capacity;
  r ← on_exception (body new_data) (RawMemory_dtor new_data);
  RawMemory_dtor r.2;;
  mret r.1.

(** [RawMemory::Swap] *)
Definition RawMemory_Swap (m other : RawMemory) : RawMemory * RawMemory :=
  (mkRawMemory (buffer_ other) (capacity_ other),
   mkRawMemory (buffer_ m) (capacity_ m)).

(** ** [Vector<T>]

    A member function takes the address [this] of its object. Iterators
    are pointers. *)

Definition get_vec (this : nat) : M T Vector := λ w,
  match vecs w !! this with
  | Some v => Ok v w
  | None => Fault
  end.

Definition put_vec (this : nat) (v : Vector) : M T unit := λ w,
  Ok tt (set_vecs (<[this := v]>) w).

(** the end of the lifetime of the object at [this] *)
Definition drop_vec (this : nat) : M T unit := λ w,
  Ok tt (set_vecs (delete this) w).

(** reading [data_] and [size_], assigning [size_] *)
Definition get_data (this : nat) : M T RawMemory :=
  v ← get_vec this; mret (data_ v).

Definition get_size (this : nat) : M T nat :=
  v ← get_vec this; mret (size_ v).

Definition set_size (this : nat) (n : nat) : M T unit :=
  v ← get_vec this; put_vec this (mkVector (data_ v) n).

(** [data_.Swap(new_data)] for a local [new_data]; returns the local
    afterwards. *)
Definition data_Swap (this : nat) (new_data : RawMemory) : M T RawMemory :=
  v ← get_vec this;
  put_vec this (mkVector (RawMemory_Swap (data_ v) new_data).1 (size_ v));;
  mret (RawMemory_Swap (data_ v) new_data).2.

(** [begin()], [cbegin()] *)
Definition begin_ (this : nat) : M T ptr :=
  d ← get_data this; mret (GetAddress d).

(** [end()], [cend()] *)
Definition end_ (this : nat) : M T ptr :=
  b ← begin_ this; n ← get_size this; mret (b +ₚ n).

(** [Size()] *)
Definition Size (this : nat) : M T nat := get_size this.

(** [Capacity()] *)
Definition Capacity (this : nat) : M T nat :=
  d ← get_data this; mret (capacity_ d).

(** [operator[]], as the address of the element *)
Definition at_index (this : nat) (index : nat) : M T ptr :=
  n ← get_size this;
  assert (bool_decide (index < n));;
  d ← get_data this;
  RawMemory_index d index.

(** [Vector() = default] *)
Definition Vector_default (this : nat) : M T unit :=
  put_vec this (mkVector RawMemory_default 0).

(** [Vector(size_t size)]. The members are initialised first; if the body
    throws, they are destroyed and no object comes to exist. *)
Definition Vector_sized (this : nat) (size : nat) : M T unit :=
  data ← RawMemory_ctor size;
  on_exception (uninitialized_value_construct_n (GetAddress data) size)
               (RawMemory_dtor data);;
  put_vec this (mkVector data size).

(** [Vector(const Vector& other)] *)
Definition Vector_copy (this other : nat) : M T unit :=
  o ← get_vec other;
  data ← RawMemory_ctor (size_ o);
  on_exception (uninitialized_copy_n (GetAddress (data_ o)) (size_ o) (GetAddress data))
               (RawMemory_dtor data);;
  put_vec this (mkVector data (size_ o)).

(** [Swap(Vector& other)] *)
Definition Swap (this other : nat) : M T unit :=
  (* data_.Swap(other.data_) *)
  v ← get_vec this;
  o ← get_vec other;
  put_vec this (mkVector (RawMemory_Swap (data_ v) (data_ o)).1 (size_ v));;
  o' ← get_vec other;
  put_vec other (mkVector (RawMemory_Swap (data_ v) (data_ o)).2 (size_ o'));;
  (* std::swap(size_, other.size_) *)
  v ← get_vec this;
  o ← get_vec other;
  put_vec this (mkVector (data_ v) (size_ o));;
  o' ← get_vec other;
  put_vec other (mkVector (data_ o') (size_ v)).

(** [Vector(Vector&& other)] *)
Definition Vector_move (this other : nat) : M T unit :=
  put_vec this (mkVector RawMemory_default 0);;
  Swap this other.

(** [~Vector()], then the destructor of the member [data_] *)
Definition Vector_dtor (this : nat) : M T unit :=
  b ← begin_ this;
  n ← get_size this;
  destroy_n b n;;
  d ← get_data this;
  RawMemory_dtor d;;
  drop_vec this.

(** A block-scope [Vector<T> v(...);] followed by [body]: the object is
    built at an address no object has, and destroyed when the scope is
    left, by return or by exception. *)
Definition with_Vector {A} (ctor : nat → M T unit) (body : nat → M T A) : M T A := λ w,
  let l := fresh (dom (vecs w)) in
  (ctor l;;
   r ← on_exception (body l) (Vector_dtor l);
   Vector_dtor l;;
   mret r) w.

(** [operator=(const Vector& rhs)] *)
Definition copy_assignment (this rhs : nat) : M T unit :=
  if decide (this ≠ rhs) then
    rsize ← get_size rhs;
    cap ← Capacity this;
    if decide (cap < rsize) then
      with_Vector (λ new_vector, Vector_copy new_vector rhs)
                  (λ new_vector, Swap this new_vector)
    else (
      size ← get_size this;
      rbegin ← begin_ rhs;
      b ← begin_ this;
      (if decide (rsize < size) then
         copy_n rbegin rsize b;;
         destroy_n (b +ₚ rsize) (size - rsize)
       else
         copy_n rbegin size b;;
         uninitialized_copy_n (rbegin +ₚ size) (rsize - size) (b +ₚ size));;
      set_size this rsize : M T unit)
  else mret tt.

(** [operator=(Vector&& rhs)] *)
Definition move_assignment (this rhs : nat) : M T unit :=
  Swap this rhs.

(** The transfer of elements into new storage: [if constexpr] on the two
    traits selects [std::uninitialized_move_n] or
    [std::uninitialized_copy_n]. *)
Definition migrate_n (first : ptr) (n : nat) (d_first : ptr) : M T unit :=
  if is_nothrow_move_constructible || negb is_copy_constructible
  then uninitialized_move_n first n d_first
  else uninitialized_copy_n first n d_first.

(** [Reserve(size_t capacity)] *)
Definition Reserve (this : nat) (capacity : nat) : M T unit :=
  cap ← Capacity this;
  if decide (capacity ≤ cap) then mret tt
  else
    with_RawMemory capacity (λ new_data,
      b ← begin_ this;
      size ← get_size this;
      migrate_n b size (GetAddress new_data);;
      destroy_n b size;;
      new_data' ← data_Swap this new_data;
      mret (tt, new_data')).

(** [Resize(size_t new_size)] *)
Definition Resize (this : nat) (new_size : nat) : M T unit :=
  size ← get_size this;
  if decide (new_size = size) then mret tt
  else
    (if decide (new_size < size) then
       b ← begin_ this;
       destroy_n (b +ₚ new_size) (size - new_size)
     else
       Reserve this new_size;;
       e ← end_ this;
       size ← get_size this;
       uninitialized_default_construct_n e (new_size - size));;
    set_size this new_size.

(** [EmplaceBack(Args&&... args)] *)
Definition EmplaceBack (this : nat) (args : option T) : M T ptr :=
  size ← get_size this;
  cap ← Capacity this;
  (if decide (size = cap) then
     with_RawMemory (if decide (size = 0) then 1 else size * 2) (λ new_data,
       p ← RawMemory_plus new_data size;
       placement_new p args;;
       b ← begin_ this;
       migrate_n b size (GetAddress new_data);;
       new_data' ← data_Swap this new_data;
       destroy_n (GetAddress new_data') size;;
       mret (tt, new_data'))
   else
     d ← get_data this;
     p ← RawMemory_plus d size;
     placement_new p args);;
  size ← get_size this;
  set_size this (size + 1);;
  d ← get_data this;
  size ← get_size this;
  RawMemory_index d (size - 1).

(** [PushBack(const T& value)] *)
Definition PushBack (this : nat) (value : T) : M T unit :=
  EmplaceBack this (copy_ctor value);; mret tt.

(** [PushBack(T&& value)] *)
Definition PushBack_move (this : nat) (value : T) : M T unit :=
  EmplaceBack this (move_ctor value).1;; mret tt.

(** [PopBack()] *)
Definition PopBack (this : nat) : M T unit :=
  e ← end_ this;
  destroy_at (e -ₚ 1);;
  size ← get_size this;
  set_size this (size - 1).

(** [Emplace(const_iterator pos, Args&&... args)] *)
Definition Emplace (this : nat) (pos : ptr) (args : option T) : M T ptr :=
  e ← end_ this;
  if decide (pos = e) then EmplaceBack this args
  else
    b ← begin_ this;
    index ← distance b pos;
    size ← get_size this;
    cap ← Capacity this;
    (if decide (size = cap) then
       with_RawMemory (if decide (size = 0) then 1 else size * 2) (λ new_data,
         placement_new (GetAddress new_data +ₚ index) args;;
         (if is_nothrow_move_constructible || negb is_copy_constructible then
            uninitialized_move_n b index (GetAddress new_data);;
            uninitialized_move_n (b +ₚ index) (size - index)
                                 (GetAddress new_data +ₚ index +ₚ 1)
          else
            on_exception
              (uninitialized_copy_n b index (GetAddress new_data))
              (destroy_at (GetAddress new_data +ₚ index));;
            on_exception
              (uninitialized_copy_n (b +ₚ index) (size - index)
                                    (GetAddress new_data +ₚ index +ₚ 1))
              (destroy_n (GetAddress new_data) (index + 1)));;
         destroy_n b size;;
         new_data' ← data_Swap this new_data;
         mret (tt, new_data'))
     else
       temp ← from_option mret throw args;
       d ← get_data this;
       last ← RawMemory_index d (size - 1);
       p ← RawMemory_plus d size;
       move_construct_at p last;;
       last_end ← end_ this;
       d_last ← end_ this;
       move_backward pos (last_end -ₚ 1) d_last;;
       target ← RawMemory_index d index;
       move_assign_from target temp);;
    size ← get_size this;
    set_size this (size + 1);;
    d ← get_data this;
    RawMemory_index d index.

(** [Insert(const_iterator pos, const T& value)] *)
Definition Insert (this : nat) (pos : ptr) (value : T) : M T ptr :=
  Emplace this pos (copy_ctor value).

(** [Insert(const_iterator pos, T&& value)] *)
Definition Insert_move (this : nat) (pos : ptr) (value : T) : M T ptr :=
  Emplace this pos (move_ctor value).1.

(** [Erase(const_iterator pos)] *)
Definition Erase (this : nat) (pos : ptr) : M T ptr :=
  e ← end_ this;
  if decide (pos = e -ₚ 1) then
    PopBack this;;
    end_ this
  else
    b ← begin_ this;
    index ← distance b pos;
    d ← get_data this;
    from ← RawMemory_index d (index + 1);
    last ← end_ this;
    to ← RawMemory_index d index;
    std_move from last to;;
    e ← end_ this;
    destroy_at (e -ₚ 1);;
    size ← get_size this;
    set_size this (size - 1);;
    d ← get_data this;
    RawMemory_index d index.

End Operations.

(** * Vocabulary of the properties *)

Section Vocabulary.
Context {T : Type} `{Element T}.

(** The objects [copy_ctor] builds from a list of objects, if no copy
    throws. *)
Definition copies (xs : list T) : option (list T) := mapM copy_ctor xs.

(** The objects that [n] successive initialisations of one call build, if
    none throws. *)
Definition built (ctor : nat → option T) (n : nat) : option (list T) :=
  mapM ctor (seq 0 n).

(** The objects [move_ctor] builds from a list of objects, if no move
    throws, and the states the sources are left in. *)
Definition moves (xs : list T) : option (list T) := mapM (λ x, (move_ctor x).1) xs.
Definition moved_from (xs : list T) : list T := (λ x, (move_ctor x).2) <$> xs.

(** The transfer selected by the traits, on a list of objects: what is
    built, and what is left in the sources. *)
Definition move_selected : bool :=
  is_nothrow_move_constructible || negb is_copy_constructible.

Definition migrated (xs : list T) : option (list T) :=
  if move_selected then moves xs else copies xs.

Definition left_behind (xs : list T) : list T :=
  if move_selected then moved_from xs else xs.

(** ** What a vector holds *)

(** The handle [m] owns a block with the cells [cells]. *)
Definition owns (h : gmap nat (list (option T))) (m : RawMemory)
    (cells : list (option T)) : Prop :=
  capacity_ m = length cells ∧
  match buffer_ m with
  | nullptr => cells = []
  | Ptr a i => i = 0 ∧ h !! a = Some cells
  end.

(** The object at [this] is a vector with the elements [xs] and the
    capacity [cap]: its first [length xs] cells hold [xs], the rest of its
    block is raw memory. This is the invariant of the data model: the size
    is at most the capacity, the cells below the size hold live objects,
    the cells from the size on hold none. *)
Definition holds (w : World T) (this : nat) (xs : list T) (cap : nat) : Prop :=
  ∃ m, vecs w !! this = Some (mkVector m (length xs)) ∧
       capacity_ m = cap ∧
       owns (heap w) m ((Some <$> xs) ++ replicate (cap - length xs) None).

(** The capacity after a growing append. *)
Definition grown (size : nat) : nat := if decide (size = 0) then 1 else size * 2.

(** One append: [PushBack(const T&)], [PushBack(T&&)], or [EmplaceBack]
    with arguments from which the constructor builds the value. *)
Inductive append :=
  | ByCopy (x : T)
  | ByMove (x : T)
  | InPlace (x : T).

Definition appended (a : append) : T :=
  match a with
  | ByCopy x | ByMove x | InPlace x => x
  end.

Definition run_append (this : nat) (a : append) : M T unit :=
  match a with
  | ByCopy x => PushBack this x
  | ByMove x => PushBack_move this x
  | InPlace x => EmplaceBack this (Some x);; mret tt
  end.

(** A sequence of appends. *)
Fixpoint push_all (this : nat) (apps : list append) : M T unit :=
  match apps with
  | [] => mret tt
  | a :: apps' => run_append this a;; push_all this apps'
  end.

(** The buffer of the vector at [this]. *)
Definition storage (w : World T) (this : nat) : option ptr :=
  vec ← vecs w !! this; Some (buffer_ (data_ vec)).

(** [p] points into a block that is currently allocated. *)
Definition allocated (w : World T) (p : ptr) : Prop :=
  match p with
  | nullptr => False
  | Ptr a _ => is_Some (heap w !! a)
  end.

(** Two vectors do not share a block. *)
Definition separate (w : World T) (this other : nat) : Prop :=
  ∀ p, storage w this = Some p → storage w other = Some p → p = nullptr.

(** The states [copy_n] leaves in the destination objects [ds] when it
    copy-assigns the sources [ss] to them one by one, and whether it came
    to the end: it stops at the first assignment that throws, which leaves
    its destination as [copy_assign] says and the later ones untouched. *)
Fixpoint copy_assigned (ds ss : list T) : list T * bool :=
  match ds, ss with
  | d :: ds', s :: ss' =>
      if (copy_assign d s).2
      then ((copy_assign d s).1 :: (copy_assigned ds' ss').1, (copy_assigned ds' ss').2)
      else ((copy_assign d s).1 :: ds', false)
  | _, _ => (ds, true)
  end.

(** The states in which [std::uninitialized_move_n] leaves the sources
    [xs] when it stops at the first move constructor that throws: the
    sources before it are moved from, the one whose move threw is as its
    constructor left it, the later ones are untouched. *)
Fixpoint moved_until_throw (xs : list T) : list T :=
  match xs with
  | [] => []
  | x :: xs' =>
      (move_ctor x).2 ::
      match (move_ctor x).1 with
      | Some _ => moved_until_throw xs'
      | None => xs'
      end
  end.

(** ** What a call leaves alone *)

(** The heap without the block of the vector at [this]. *)
Definition others (w : World T) (this : nat) : gmap nat (list (option T)) :=
  match storage w this with
  | Some (Ptr a _) => delete a (heap w)
  | _ => heap w
  end.

(** From [w] to [w'] nothing changed but the vector at [this] and its
    block: every other block and every other object is as it was. *)
Definition framed (w w' : World T) (this : nat) : Prop :=
  others w' this = others w this ∧
  ∀ o, o ≠ this → vecs w' !! o = vecs w !! o.

(** ** A client that calls the vector

    One call of a member function by a client that names positions by
    index: [Insert(begin() + i, x)], [Erase(begin() + i)]. *)
Inductive call :=
  | CallPushBack (x : T)
  | CallPopBack
  | CallInsert (i : nat) (x : T)
  | CallErase (i : nat)
  | CallReserve (n : nat)
  | CallResize (n : nat).

Definition run_call (this : nat) (c : call) : M T unit :=
  match c with
  | CallPushBack x => PushBack this x
  | CallPopBack => PopBack this
  | CallInsert i x => b ← begin_ this; Insert this (b +ₚ i) x;; mret tt
  | CallErase i => b ← begin_ this; Erase this (b +ₚ i);; mret tt
  | CallReserve n => Reserve this n
  | CallResize n => Resize this n
  end.

Fixpoint run_calls (this : nat) (cs : list call) : M T unit :=
  match cs with
  | [] => mret tt
  | c :: cs' => run_call this c;; run_calls this cs'
  end.

(** The sequence a call makes of the sequence [xs], for a call within its
    precondition: [PopBack] needs an element, [Insert] a position up to
    the end, [Erase] the position of an element, [Reserve] and [Resize] a
    count whose byte count does not wrap. A [Resize] that grows appends
    the objects that the default-initialisations build; there is no
    sequence when one of them throws. *)
Definition effect (c : call) (xs : list T) : option (list T) :=
  match c with
  | CallPushBack x => Some (xs ++ [x])
  | CallPopBack => if decide (xs = []) then None else Some (take (length xs - 1) xs)
  | CallInsert i x =>
      if decide (i ≤ length xs) then Some (take i xs ++ x :: drop i xs) else None
  | CallErase i =>
      if decide (i < length xs) then Some (take i xs ++ drop (S i) xs) else None
  | CallReserve n => if decide (fits n) then Some xs else None
  | CallResize n =>
      if decide (fits n)
      then ds ← built default_ctor (n - length xs); Some (take n xs ++ ds)
      else None
  end.

(** The capacity after a call on a vector of the given size and
    capacity. *)
Definition capacity_after (c : call) (size cap : nat) : nat :=
  match c with
  | CallPushBack _ | CallInsert _ _ => if decide (size = cap) then grown cap else cap
  | CallPopBack | CallErase _ => cap
  | CallReserve n | CallResize n => cap `max` n
  end.

Fixpoint effects (cs : list call) (xs : list T) (cap : nat) : option (list T * nat) :=
  match cs with
  | [] => Some (xs, cap)
  | c :: cs' =>
      xs' ← effect c xs;
      effects cs' xs' (capacity_after c (length xs) cap)
  end.

End Vocabulary.

(** [c] is the smallest of 1, 2, 4, 8, ... that is at least [n]. *)
Definition smallest_doubling (n c : nat) : Prop :=
  ∃ k, c = 2 ^ k ∧ n ≤ c ∧ ∀ j, n ≤ 2 ^ j → c ≤ 2 ^ j.

(** The capacity the growth policy predicts after [n] appends to an empty
    vector. *)
Definition append_capacity (n c : nat) : Prop :=
  if decide (n = 0) then c = 0 else smallest_doubling n c.

(** ** Sample element types

    [nat] stands for a class type whose operations never throw and whose
    move constructor is [noexcept]; its default constructor sets the
    object to [0], and an object moved from is left as [0]. *)
Global Instance nat_Element : Element nat := {|
  is_nothrow_move_constructible := true;
  is_copy_constructible := true;
  copy_ctor x := Some x;
  move_ctor x := (Some x, 0);
  copy_assign d s := (s, true);
  move_assign d s := (s, 0, true);
  default_ctor _ := Some 0;
  value_ctor _ := Some 0;
  sizeof_T := 8;
  nothrow_move_sound := λ _ x, ex_intro _ x eq_refl
|}.

Global Instance nat_Regular : Regular nat := {|
  copy_ctor_regular := λ x, eq_refl;
  move_ctor_regular := λ x, eq_refl;
  copy_assign_regular := λ d s, eq_refl;
  move_assign_regular := λ d s, conj eq_refl eq_refl
|}.

(** [obj] stands for a copyable type whose move constructor is not
    [noexcept]: the container copies it when it migrates. Copying a
    [Brittle] object, or assigning from one, throws. *)
Inductive obj := Sound (n : nat) | Brittle (n : nat).

Definition brittle (x : obj) : bool :=
  match x with
  | Brittle _ => true
  | Sound _ => false
  end.

Global Instance obj_Element : Element obj := {|
  is_nothrow_move_constructible := false;
  is_copy_constructible := true;
  copy_ctor x := if brittle x then None else Some x;
  move_ctor x := (Some x, Sound 0);
  copy_assign d s := if brittle s then (d, false) else (s, true);
  move_assign d s := if brittle s then (d, s, false) else (s, Sound 0, true);
  default_ctor _ := Some (Sound 0);
  value_ctor _ := Some (Sound 0);
  sizeof_T := 16;
  nothrow_move_sound := λ _ x, ex_intro _ x eq_refl
|}.

(** [fussy] stands for a type whose default constructor works once and
    throws from the second object of a call on; its copies and moves are
    well behaved. *)
Inductive fussy := Fussy (n : nat).

Global Instance fussy_Element : Element fussy := {|
  is_nothrow_move_constructible := true;
  is_copy_constructible := true;
  copy_ctor x := Some x;
  move_ctor x := (Some x, Fussy 0);
  copy_assign d s := (s, true);
  move_assign d s := (s, Fussy 0, true);
  default_ctor k := if decide (k = 0) then Some (Fussy 0) else None;
  value_ctor k := if decide (k = 0) then Some (Fussy 0) else None;
  sizeof_T := 8;
  nothrow_move_sound := λ _ x, ex_intro _ x eq_refl
|}.

(** [token] stands for a move-only type whose move constructor may throw:
    the container has to move it when it migrates. Moving a [Stuck] token
    throws and leaves it as it is. *)
Inductive token := Free (n : nat) | Stuck (n : nat).

Global Instance token_Element : Element token := {|
  is_nothrow_move_constructible := false;
  is_copy_constructible := false;
  copy_ctor x := None;
  move_ctor x := match x with Free n => (Some (Free n), Free 0) | Stuck n => (None, Stuck n) end;
  copy_assign d s := (d, false);
  move_assign d s := (s, Free 0, true);
  default_ctor _ := Some (Free 0);
  value_ctor _ := Some (Free 0);
  sizeof_T := 8;
  nothrow_move_sound := λ E, match Bool.diff_false_true E with end
|}.

(** [pod] stands for [int] and the like: a trivial type. Its
    default-initialisation [new (p) T] performs no initialisation, so the
    object has an indeterminate value, [Junk]: whatever the bytes of its
    storage are, on the usual implementations the value of the object that
    was destroyed there before. Its value-initialisation [new (p) T()]
    gives [Val 0]. *)
Inductive pod := Val (n : nat) | Junk.

Global Instance pod_Element : Element pod := {|
  is_nothrow_move_constructible := true;
  is_copy_constructible := true;
  copy_ctor x := Some x;
  move_ctor x := (Some x, x);
  copy_assign d s := (s, true);
  move_assign d s := (s, s, true);
  default_ctor _ := Some Junk;
  value_ctor _ := Some (Val 0);
  sizeof_T := 4;
  nothrow_move_sound := λ _ x, ex_intro _ x eq_refl
|}.

Global Instance pod_Regular : Regular pod := {|
  copy_ctor_regular := λ x, eq_refl;
  move_ctor_regular := λ x, eq_refl;
  copy_assign_regular := λ d s, eq_refl;
  move_assign_regular := λ d s, conj eq_refl eq_refl
|}.

(** The world with no block and no object. *)
Definition empty_world {T} : World T := mkWorld ∅ ∅ [].

(** ** Sample worlds *)

(** One vector of [nat] at address 0: [10; 20; 30] with capacity 4. *)
Definition one_vector : World nat :=
  mkWorld {[5 := [Some 10; Some 20; Some 30; None]]}
          {[0 := mkVector (mkRawMemory (Ptr 5 0) 4) 3]}
          [].

(** Two vectors of [nat]: [1; 2] at address 0 and [3] at address 1. *)
Definition two_vectors : World nat :=
  mkWorld {[5 := [Some 1; Some 2]; 6 := [Some 3]]}
          {[0 := mkVector (mkRawMemory (Ptr 5 0) 2) 2;
            1 := mkVector (mkRawMemory (Ptr 6 0) 1) 1]}
          [].

(** Two vectors of [obj]: [Sound 1; Brittle 2] at address 0 and [Sound 3]
    at address 1. *)
Definition two_brittle_vectors : World obj :=
  mkWorld {[5 := [Some (Sound 1); Some (Brittle 2)]; 6 := [Some (Sound 3)]]}
          {[0 := mkVector (mkRawMemory (Ptr 5 0) 2) 2;
            1 := mkVector (mkRawMemory (Ptr 6 0) 1) 1]}
          [].

(** A full vector of [obj] at address 0. *)
Definition full_vector (xs : list obj) : World obj :=
  mkWorld {[5 := Some <$> xs]}
          {[0 := mkVector (mkRawMemory (Ptr 5 0) (length xs)) (length xs)]}
          [].

(** One vector of [fussy] at address 0: [Fussy 1] with capacity 4. *)
Definition fussy_vector : World fussy :=
  mkWorld {[5 := [Some (Fussy 1); None; None; None]]}
          {[0 := mkVector (mkRawMemory (Ptr 5 0) 4) 1]}
          [].

(** One vector of [pod] at address 0: [Val 10; Val 20; Val 30] with
    capacity 4. *)
Definition pod_vector : World pod :=
  mkWorld {[5 := [Some (Val 10); Some (Val 20); Some (Val 30); None]]}
          {[0 := mkVector (mkRawMemory (Ptr 5 0) 4) 3]}
          [].

(** Two vectors of [obj]: [Sound 1; Sound 2] at address 0 and
    [Sound 3; Brittle 4] at address 1. *)
Definition brittle_source : World obj :=
  mkWorld {[5 := [Some (Sound 1); Some (Sound 2)]; 6 := [Some (Sound 3); Some (Brittle 4)]]}
          {[0 := mkVector (mkRawMemory (Ptr 5 0) 2) 2;
            1 := mkVector (mkRawMemory (Ptr 6 0) 2) 2]}
          [].

(** One vector of [token] at address 0: [Free 1; Stuck 2; Free 3] with
    capacity 3. *)
Definition token_vector : World token :=
  mkWorld {[5 := [Some (Free 1); Some (Stuck 2); Some (Free 3)]]}
          {[0 := mkVector (mkRawMemory (Ptr 5 0) 3) 3]}
          [].

(** * Reasoning about the model *)

(** ** Lists as arrays of cells *)

Lemma middle_lookup {A} (xs : list A) x ys :
  (xs ++ x :: ys) !! length xs = Some x.
Proof. by rewrite list_lookup_middle. Qed.

Lemma middle_insert {A} (xs : list A) x y ys :
  <[length xs := y]> (xs ++ x :: ys) = xs ++ y :: ys.
Proof.
  rewrite insert_app_r_alt by lia. by rewrite Nat.sub_diag.
Qed.

Lemma mbind_unfold {T A B} (m : M T A) (k : A → M T B) (w : World T) :
  (m ≫= k) w = match m w with
               | Ok a w' => k a w'
               | Exn w' => Exn w'
               | Fault => Fault
               end.
Proof. reflexivity. Qed.

Lemma mret_unfold {T A} (a : A) (w : World T) : (mret a : M T A) w = Ok a w.
Proof. reflexivity. Qed.

Lemma throw_unfold {T A} (w : World T) : (throw : M T A) w = Exn w.
Proof. reflexivity. Qed.

(** Equality of two heaps built by insertions and deletions. *)
Ltac heap_eq :=
  lazymatch goal with
  | |- Ok _ _ = Ok _ _ => f_equal; heap_eq
  | |- Exn _ = Exn _ => f_equal; heap_eq
  | |- mkWorld _ _ _ = mkWorld _ _ _ => f_equal; heap_eq
  | |- @eq (gmap _ _) _ _ => apply map_eq; intros ?; heap_eq
  | |- _ =>
      repeat first [rewrite lookup_insert | rewrite lookup_delete];
      repeat case_decide; try (exfalso; congruence); simplify_eq;
      rewrite <- ?app_assoc; cbn [app]; rewrite ?app_nil_r;
      try done
  end.

(** One step of a computation: expose the first statement, rewrite it with
    its equation, and continue with the rest. *)
Ltac mnext1 :=
  rewrite ?(@mbind_unfold), ?(@mret_unfold), ?(@throw_unfold);
  cbv beta iota;
  cbn [fst snd buffer_ capacity_ data_ size_ GetAddress].

Ltac mnext := mnext1; repeat (progress mnext1).

Tactic Notation "mstep" uconstr(L) :=
  mnext; erewrite L; [mnext|..].

(** A lookup in a heap built by insertions and deletions. *)
Ltac hlookup :=
  repeat first [rewrite lookup_insert | rewrite lookup_delete];
  repeat case_decide; try (exfalso; congruence); simplify_eq;
  first
    [ eassumption
    | reflexivity
    | rewrite <- ?app_assoc; cbn [app]; reflexivity
    | cbn [app]; rewrite ?app_nil_r, <- ?app_assoc; cbn [app];
      first [done | eassumption | reflexivity] ].

(** Tidy the heap of the current world. *)
Ltac hsimpl := rewrite ?insert_insert_eq; cbn [app]; rewrite ?app_nil_r.

Section Execution.
Context {T : Type} `{Element T}.

Implicit Types (h : gmap nat (list (option T))) (v : gmap nat Vector) (l : list T).
Implicit Types (w : World T) (p : ptr) (cells pre post : list (option T)).

(** ** Running a computation *)

Lemma run_on_exception_Ok {A} (m : M T A) handler w a w' :
  m w = Ok a w' → on_exception m handler w = Ok a w'.
Proof. unfold on_exception. by intros ->. Qed.

Lemma run_on_exception_Exn {A} (m : M T A) handler w w' w'' :
  m w = Exn w' → handler w' = Ok tt w'' → on_exception m handler w = Exn w''.
Proof. unfold on_exception. intros -> E. by rewrite mbind_unfold, E. Qed.

(** ** Cells of a block *)

Lemma alter_cell h a cells i c :
  h !! a = Some cells → alter (<[i:=c]>) a h = <[a := <[i:=c]> cells]> h.
Proof.
  intros E. apply map_eq. intros b. rewrite lookup_alter, lookup_insert.
  repeat case_decide; simplify_eq; try done. by rewrite E.
Qed.

Lemma run_load h v l a i pre x post :
  h !! a = Some (pre ++ Some x :: post) →
  i = length pre →
  load (Ptr a i) (mkWorld h v l) = Ok x (mkWorld h v l).
Proof.
  intros E ->. unfold load. cbn. rewrite E. cbn. by rewrite middle_lookup.
Qed.

Lemma run_store h v l a i pre x y post :
  h !! a = Some (pre ++ Some x :: post) →
  i = length pre →
  store (Ptr a i) y (mkWorld h v l)
  = Ok tt (mkWorld (<[a := pre ++ Some y :: post]> h) v l).
Proof.
  intros E ->. unfold store. cbn. rewrite E. cbn. rewrite middle_lookup.
  unfold set_heap. cbn. by rewrite (alter_cell _ _ _ _ _ E), middle_insert.
Qed.

Lemma run_construct_at h v l a i pre x post :
  h !! a = Some (pre ++ None :: post) →
  i = length pre →
  construct_at (Ptr a i) x (mkWorld h v l)
  = Ok tt (mkWorld (<[a := pre ++ Some x :: post]> h) v l).
Proof.
  intros E ->. unfold construct_at. cbn. rewrite E. cbn. rewrite middle_lookup.
  unfold set_heap. cbn. by rewrite (alter_cell _ _ _ _ _ E), middle_insert.
Qed.

Lemma run_destroy_at h v l a i pre x post :
  h !! a = Some (pre ++ Some x :: post) →
  i = length pre →
  destroy_at (Ptr a i) (mkWorld h v l)
  = Ok tt (mkWorld (<[a := pre ++ None :: post]> h) v l).
Proof.
  intros E ->. unfold destroy_at. cbn. rewrite E. cbn. rewrite middle_lookup.
  unfold set_heap. cbn. by rewrite (alter_cell _ _ _ _ _ E), middle_insert.
Qed.

(** ** The algorithms on a block in three parts

    A range of a block is described by the cells before it, the cells of
    the range and the cells after it. *)

Lemma run_destroy_n xs : ∀ h v l a i pre post,
  h !! a = Some (pre ++ (Some <$> xs) ++ post) →
  i = length pre →
  destroy_n (Ptr a i) (length xs) (mkWorld h v l)
  = Ok tt (mkWorld (<[a := pre ++ replicate (length xs) None ++ post]> h) v l).
Proof.
  induction xs as [|x xs IH]; intros h v l a i pre post E ->; cbn.
  - by rewrite insert_id.
  - change (h !! a = Some (pre ++ Some x :: ((Some <$> xs) ++ post))) in E.
    rewrite mbind_unfold, (run_destroy_at _ _ _ _ _ _ _ _ E eq_refl).
    replace (length pre + 1) with (length (pre ++ [None : option T]))
      by (rewrite length_app; reflexivity).
    rewrite (IH _ _ _ _ _ (pre ++ [None]) post); [| |done].
    + rewrite insert_insert_eq. by rewrite <- app_assoc.
    + rewrite lookup_insert_eq. by rewrite <- app_assoc.
Qed.

Lemma copies_length xs ys : copies xs = Some ys → length ys = length xs.
Proof. intros E. symmetry. by eapply length_mapM. Qed.

Lemma moves_length xs ys : moves xs = Some ys → length ys = length xs.
Proof. intros E. symmetry. by eapply length_mapM. Qed.

Lemma copies_cons x xs :
  copies (x :: xs) = y ← copy_ctor x; ys ← copies xs; Some (y :: ys).
Proof. reflexivity. Qed.

Lemma moves_cons x xs :
  moves (x :: xs) = y ← (move_ctor x).1; ys ← moves xs; Some (y :: ys).
Proof. reflexivity. Qed.

Lemma run_uninitialized_copy_n xs : ∀ ys h v l a i spre spost b j pre post,
  a ≠ b →
  h !! a = Some (spre ++ (Some <$> xs) ++ spost) →
  i = length spre →
  h !! b = Some (pre ++ replicate (length xs) None ++ post) →
  j = length pre →
  copies xs = Some ys →
  uninitialized_copy_n (Ptr a i) (length xs) (Ptr b j) (mkWorld h v l)
  = Ok tt (mkWorld (<[b := pre ++ (Some <$> ys) ++ post]> h) v l).
Proof.
  induction xs as [|x xs IH]; intros ys h v l a i spre spost b j pre post Hab Ea -> Eb -> Hc.
  - replace ys with (@nil T) by (cbv in Hc; congruence).
    cbn. by rewrite insert_id.
  - rewrite copies_cons in Hc.
    destruct (copy_ctor x) as [y|] eqn:Ey; [|done]. cbn in Hc.
    destruct (copies xs) as [ys'|] eqn:Eys; [|done]. cbn in Hc. simplify_eq.
    change (h !! a = Some (spre ++ Some x :: ((Some <$> xs) ++ spost))) in Ea.
    change (h !! b = Some (pre ++ None :: (replicate (length xs) None ++ post))) in Eb.
    cbn [uninitialized_copy_n length]. unfold copy_construct_at.
    rewrite !mbind_unfold, (run_load _ _ _ _ _ _ _ _ Ea eq_refl). rewrite Ey.
    cbn [placement_new].
    rewrite (run_construct_at _ _ _ _ _ _ _ _ Eb eq_refl).
    cbn [ptr_add].
    replace (length spre + 1) with (length (spre ++ [Some x])) by (rewrite length_app; reflexivity).
    replace (length pre + 1) with (length (pre ++ [Some y])) by (rewrite length_app; reflexivity).
    erewrite run_on_exception_Ok; [reflexivity|].
    rewrite (IH ys' _ _ _ a _ (spre ++ [Some x]) spost b _ (pre ++ [Some y]) post); try done.
    + rewrite insert_insert_eq. by rewrite <- app_assoc.
    + rewrite lookup_insert_ne by done. rewrite Ea. by rewrite <- app_assoc.
    + rewrite lookup_insert_eq. by rewrite <- app_assoc.
Qed.

(** When a copy throws, what was built is destroyed: the world is as
    before the call. *)
Lemma run_uninitialized_copy_n_throws xs : ∀ h v l a i spre spost b j pre post,
  a ≠ b →
  h !! a = Some (spre ++ (Some <$> xs) ++ spost) →
  i = length spre →
  h !! b = Some (pre ++ replicate (length xs) None ++ post) →
  j = length pre →
  copies xs = None →
  uninitialized_copy_n (Ptr a i) (length xs) (Ptr b j) (mkWorld h v l)
  = Exn (mkWorld h v l).
Proof.
  induction xs as [|x xs IH]; intros h v l a i spre spost b j pre post Hab Ea -> Eb -> Hc.
  - done.
  - rewrite copies_cons in Hc.
    change (h !! a = Some (spre ++ Some x :: ((Some <$> xs) ++ spost))) in Ea.
    change (h !! b = Some (pre ++ None :: (replicate (length xs) None ++ post))) in Eb.
    cbn [uninitialized_copy_n length]. unfold copy_construct_at.
    rewrite !mbind_unfold, (run_load _ _ _ _ _ _ _ _ Ea eq_refl).
    destruct (copy_ctor x) as [y|] eqn:Ey; [|done]. cbn in Hc.
    destruct (copies xs) as [ys'|] eqn:Eys; [done|].
    cbn [placement_new].
    rewrite (run_construct_at _ _ _ _ _ _ _ _ Eb eq_refl).
    cbn [ptr_add].
    replace (length spre + 1) with (length (spre ++ [Some x])) by (rewrite length_app; reflexivity).
    erewrite run_on_exception_Exn; [reflexivity| |].
    + replace (length pre + 1) with (length (pre ++ [Some y])) by (rewrite length_app; reflexivity).
      apply (IH _ _ _ a _ (spre ++ [Some x]) spost b _ (pre ++ [Some y]) post); try done.
      * rewrite lookup_insert_ne by done. rewrite Ea. by rewrite <- app_assoc.
      * rewrite lookup_insert_eq. by rewrite <- app_assoc.
    + erewrite run_destroy_at; [|apply lookup_insert_eq|done].
      rewrite insert_insert_eq. by rewrite insert_id.
Qed.

Lemma run_uninitialized_move_n xs : ∀ ys h v l a i spre spost b j pre post,
  a ≠ b →
  h !! a = Some (spre ++ (Some <$> xs) ++ spost) →
  i = length spre →
  h !! b = Some (pre ++ replicate (length xs) None ++ post) →
  j = length pre →
  moves xs = Some ys →
  uninitialized_move_n (Ptr a i) (length xs) (Ptr b j) (mkWorld h v l)
  = Ok tt (mkWorld (<[b := pre ++ (Some <$> ys) ++ post]>
                     (<[a := spre ++ (Some <$> moved_from xs) ++ spost]> h)) v l).
Proof.
  induction xs as [|x xs IH]; intros ys h v l a i spre spost b j pre post Hab Ea -> Eb -> Hc.
  - replace ys with (@nil T) by (cbv in Hc; congruence).
    cbn. rewrite (insert_id h a) by done. by rewrite insert_id.
  - rewrite moves_cons in Hc.
    destruct (move_ctor x) as [[y|] x'] eqn:Ey; [|done]. cbn in Hc.
    destruct (moves xs) as [ys'|] eqn:Eys; [|done]. cbn in Hc. simplify_eq.
    change (h !! a = Some (spre ++ Some x :: ((Some <$> xs) ++ spost))) in Ea.
    change (h !! b = Some (pre ++ None :: (replicate (length xs) None ++ post))) in Eb.
    cbn [uninitialized_move_n length]. unfold move_construct_at.
    rewrite !mbind_unfold, (run_load _ _ _ _ _ _ _ _ Ea eq_refl). rewrite Ey.
    rewrite !mbind_unfold. cbn [fst snd placement_new].
    rewrite (run_store _ _ _ _ _ _ _ _ _ Ea eq_refl).
    erewrite run_construct_at; [|rewrite lookup_insert_ne by done; exact Eb|done].
    cbn [ptr_add].
    replace (length spre + 1) with (length (spre ++ [Some x'])) by (rewrite length_app; reflexivity).
    replace (length pre + 1) with (length (pre ++ [Some y])) by (rewrite length_app; reflexivity).
    erewrite run_on_exception_Ok; [reflexivity|].
    rewrite (IH ys' _ _ _ a _ (spre ++ [Some x']) spost b _ (pre ++ [Some y]) post); try done.
    + unfold moved_from. cbn [fmap list_fmap]. rewrite Ey. heap_eq.
    + heap_eq.
    + heap_eq.
Qed.

Lemma built_from_cons (ctor : nat → option T) k n :
  mapM ctor (seq k (S n))
  = y ← ctor k; ys ← mapM ctor (seq (S k) n); Some (y :: ys).
Proof. reflexivity. Qed.

Lemma built_from_length (ctor : nat → option T) n : ∀ k ds,
  mapM ctor (seq k n) = Some ds → length ds = n.
Proof.
  induction n as [|n IH]; intros k ds Hb.
  - cbv in Hb. by simplify_eq.
  - rewrite built_from_cons in Hb.
    destruct (ctor k) as [y|]; [|done]. cbn in Hb.
    destruct (mapM ctor (seq (S k) n)) as [ys|] eqn:E; [|done]. cbn in Hb. simplify_eq.
    cbn. f_equal. by eapply IH.
Qed.

Lemma built_length (ctor : nat → option T) n ds : built ctor n = Some ds → length ds = n.
Proof. apply built_from_length. Qed.

Lemma run_uninitialized_construct_from (ctor : nat → option T) n : ∀ k ds h v l a i pre post,
  mapM ctor (seq k n) = Some ds →
  h !! a = Some (pre ++ replicate n None ++ post) →
  i = length pre →
  uninitialized_construct_from ctor k (Ptr a i) n (mkWorld h v l)
  = Ok tt (mkWorld (<[a := pre ++ (Some <$> ds) ++ post]> h) v l).
Proof.
  induction n as [|n IH]; intros k ds h v l a i pre post Hb E ->.
  - cbv in Hb. simplify_eq. cbn. by rewrite insert_id.
  - rewrite built_from_cons in Hb.
    destruct (ctor k) as [y|] eqn:Ey; [|done]. cbn in Hb.
    destruct (mapM ctor (seq (S k) n)) as [ys|] eqn:Eys; [|done]. cbn in Hb. simplify_eq.
    change (h !! a = Some (pre ++ None :: (replicate n None ++ post))) in E.
    cbn [uninitialized_construct_from]. rewrite Ey. cbn [placement_new].
    rewrite mbind_unfold, (run_construct_at _ _ _ _ _ _ _ _ E eq_refl).
    cbn [ptr_add].
    replace (length pre + 1) with (length (pre ++ [Some y])) by (rewrite length_app; reflexivity).
    erewrite run_on_exception_Ok; [reflexivity|].
    rewrite (IH _ ys _ _ _ _ _ (pre ++ [Some y]) post); try done.
    + rewrite insert_insert_eq. cbn [fmap list_fmap]. by rewrite <- app_assoc.
    + rewrite lookup_insert_eq. by rewrite <- app_assoc.
Qed.

(** When the initialisation of some object throws, the objects built
    before it are destroyed again: the block is as it was. *)
Lemma run_uninitialized_construct_from_throws (ctor : nat → option T) n : ∀ k h v l a i pre post,
  mapM ctor (seq k n) = None →
  h !! a = Some (pre ++ replicate n None ++ post) →
  i = length pre →
  uninitialized_construct_from ctor k (Ptr a i) n (mkWorld h v l) = Exn (mkWorld h v l).
Proof.
  induction n as [|n IH]; intros k h v l a i pre post Hb E ->; [done|].
  rewrite built_from_cons in Hb.
  change (h !! a = Some (pre ++ None :: (replicate n None ++ post))) in E.
  cbn [uninitialized_construct_from].
  destruct (ctor k) as [y|] eqn:Ey; [|reflexivity]. cbn in Hb. cbn [placement_new].
  destruct (mapM ctor (seq (S k) n)) as [ys|] eqn:Eys; [done|].
  rewrite mbind_unfold, (run_construct_at _ _ _ _ _ _ _ _ E eq_refl).
  cbn [ptr_add].
  erewrite run_on_exception_Exn; [reflexivity| |].
  - replace (length pre + 1) with (length (pre ++ [Some y])) by (rewrite length_app; reflexivity).
    apply (IH _ _ _ _ _ _ (pre ++ [Some y]) post); [done| |done].
    rewrite lookup_insert_eq. by rewrite <- app_assoc.
  - erewrite run_destroy_at; [|apply lookup_insert_eq|done].
    rewrite insert_insert_eq. by rewrite insert_id.
Qed.

Lemma run_uninitialized_default_construct_n ds n h v l a i pre post :
  built default_ctor n = Some ds →
  h !! a = Some (pre ++ replicate n None ++ post) →
  i = length pre →
  uninitialized_default_construct_n (Ptr a i) n (mkWorld h v l)
  = Ok tt (mkWorld (<[a := pre ++ (Some <$> ds) ++ post]> h) v l).
Proof. apply run_uninitialized_construct_from. Qed.

Lemma migrated_length xs ys : migrated xs = Some ys → length ys = length xs.
Proof.
  unfold migrated. destruct move_selected; [apply moves_length|apply copies_length].
Qed.

Lemma left_behind_length xs : length (left_behind xs) = length xs.
Proof.
  unfold left_behind, moved_from. destruct move_selected; [|done]. by rewrite length_fmap.
Qed.

Lemma run_migrate_n xs ys h v l a i spre spost b j pre post :
  a ≠ b →
  h !! a = Some (spre ++ (Some <$> xs) ++ spost) →
  i = length spre →
  h !! b = Some (pre ++ replicate (length xs) None ++ post) →
  j = length pre →
  migrated xs = Some ys →
  migrate_n (Ptr a i) (length xs) (Ptr b j) (mkWorld h v l)
  = Ok tt (mkWorld (<[b := pre ++ (Some <$> ys) ++ post]>
                     (<[a := spre ++ (Some <$> left_behind xs) ++ spost]> h)) v l).
Proof.
  intros Hab Ea -> Eb -> Hm. unfold migrate_n, migrated, left_behind, move_selected in *.
  destruct (is_nothrow_move_constructible || negb is_copy_constructible).
  - by eapply run_uninitialized_move_n.
  - rewrite (insert_id h a) by done. by eapply run_uninitialized_copy_n.
Qed.

(** ** Allocation *)

Lemma fresh_block h : h !! fresh (dom h) = None.
Proof. apply not_elem_of_dom, is_fresh. Qed.

Lemma fresh_block_ne h a cells : h !! a = Some cells → a ≠ fresh (dom h).
Proof. intros E ->. by rewrite fresh_block in E. Qed.

Lemma run_Allocate n h v l :
  n ≠ 0 →
  Allocate n (mkWorld h v l)
  = Ok (Ptr (fresh (dom h)) 0) (mkWorld (<[fresh (dom h) := replicate n None]> h) v l).
Proof. intros Hn. unfold Allocate. by rewrite decide_True. Qed.

Lemma run_RawMemory_ctor n h v l :
  n ≠ 0 →
  RawMemory_ctor n (mkWorld h v l)
  = Ok (mkRawMemory (Ptr (fresh (dom h)) 0) n)
       (mkWorld (<[fresh (dom h) := replicate n None]> h) v l).
Proof. intros Hn. unfold RawMemory_ctor. by rewrite mbind_unfold, run_Allocate. Qed.

Lemma live_replicate_None n : omap id (replicate n (@None T)) = [].
Proof. induction n; [done|]. cbn. done. Qed.

Lemma run_Deallocate h v l a cells :
  h !! a = Some cells →
  Deallocate (Ptr a 0) (mkWorld h v l)
  = Ok tt (mkWorld (delete a h) v (l ++ omap id cells)).
Proof. intros E. unfold Deallocate. cbn. by rewrite E. Qed.

(** ** Reading and writing the members *)

Section Members.
Variables (h : gmap nat (list (option T))) (v : gmap nat Vector) (l : list T).
Variables (this : nat) (d : RawMemory) (n : nat).
Hypothesis Hthis : v !! this = Some (mkVector d n).

Lemma run_get_vec : get_vec this (mkWorld h v l) = Ok (mkVector d n) (mkWorld h v l).
Proof. unfold get_vec. cbn. by rewrite Hthis. Qed.

Lemma run_get_size : get_size this (mkWorld h v l) = Ok n (mkWorld h v l).
Proof. unfold get_size. by rewrite mbind_unfold, run_get_vec. Qed.

Lemma run_get_data : get_data this (mkWorld h v l) = Ok d (mkWorld h v l).
Proof. unfold get_data. by rewrite mbind_unfold, run_get_vec. Qed.

Lemma run_Capacity : Capacity this (mkWorld h v l) = Ok (capacity_ d) (mkWorld h v l).
Proof. unfold Capacity. by rewrite mbind_unfold, run_get_data. Qed.

Lemma run_begin : begin_ this (mkWorld h v l) = Ok (buffer_ d) (mkWorld h v l).
Proof. unfold begin_. by rewrite mbind_unfold, run_get_data. Qed.

Lemma run_end : end_ this (mkWorld h v l) = Ok (buffer_ d +ₚ n) (mkWorld h v l).
Proof. unfold end_. by rewrite mbind_unfold, run_begin, mbind_unfold, run_get_size. Qed.

Lemma run_set_size n' :
  set_size this n' (mkWorld h v l) = Ok tt (mkWorld h (<[this := mkVector d n']> v) l).
Proof. unfold set_size. by rewrite mbind_unfold, run_get_vec. Qed.

Lemma run_data_Swap new_data :
  data_Swap this new_data (mkWorld h v l)
  = Ok d (mkWorld h (<[this := mkVector new_data n]> v) l).
Proof.
  unfold data_Swap. rewrite mbind_unfold, run_get_vec. cbn.
  by destruct d, new_data.
Qed.

End Members.

Lemma run_put_vec this vec h v l :
  put_vec this vec (mkWorld h v l) = Ok tt (mkWorld h (<[this := vec]> v) l).
Proof. reflexivity. Qed.

Lemma run_assert_true (b : bool) w : b = true → assert b w = Ok tt w.
Proof. by intros ->. Qed.

Lemma run_RawMemory_plus m offset w :
  offset ≤ capacity_ m → RawMemory_plus m offset w = Ok (buffer_ m +ₚ offset) w.
Proof.
  intros Hle. unfold RawMemory_plus.
  by rewrite mbind_unfold, run_assert_true by by apply bool_decide_eq_true.
Qed.

Lemma run_RawMemory_index m index w :
  index < capacity_ m → RawMemory_index m index w = Ok (buffer_ m +ₚ index) w.
Proof.
  intros Hlt. unfold RawMemory_index.
  by rewrite mbind_unfold, run_assert_true by by apply bool_decide_eq_true.
Qed.

Lemma holds_size_le w this xs cap : holds w this xs cap → length xs ≤ cap.
Proof.
  intros (m & _ & <- & Hlen & _). rewrite length_app, length_fmap, length_replicate in Hlen.
  lia.
Qed.

Lemma grown_gt size : size < grown size.
Proof. unfold grown. case_decide; lia. Qed.

Lemma replicate_split_at n k :
  k < n → replicate n (@None T) = replicate k None ++ None :: replicate (n - k - 1) None.
Proof.
  intros Hk. replace n with (k + S (n - k - 1)) at 1 by lia.
  by rewrite replicate_add.
Qed.

Lemma run_EmplaceBack_grow h v l this a xs x ys :
  v !! this = Some (mkVector (mkRawMemory (Ptr a 0) (length xs)) (length xs)) →
  h !! a = Some (Some <$> xs) →
  migrated xs = Some ys →
  EmplaceBack this (Some x) (mkWorld h v l)
  = Ok (Ptr (fresh (dom h)) (length xs))
       (mkWorld (<[fresh (dom h) := (Some <$> ys) ++ Some x
                     :: replicate (grown (length xs) - length xs - 1) None]> (delete a h))
                (<[this := mkVector (mkRawMemory (Ptr (fresh (dom h)) 0) (grown (length xs)))
                                    (length xs + 1)]> v)
                l).
Proof.
  intros Hv Ha Hm. unfold EmplaceBack.
  mstep run_get_size; [|exact Hv].
  mstep run_Capacity; [|exact Hv]. cbn [capacity_].
  rewrite decide_True by done.
  fold (grown (length xs)).
  pose proof (grown_gt (length xs)) as Hg.
  pose proof (fresh_block_ne _ _ _ Ha) as Hne.
  pose proof (migrated_length _ _ Hm) as Hlen.
  unfold with_RawMemory, on_exception.
  mstep run_RawMemory_ctor; [|lia].
  set (a' := fresh (dom h)) in *.
  mstep run_RawMemory_plus; [|cbn; lia]. cbn [buffer_ ptr_add Nat.add placement_new].
  rewrite (replicate_split_at (grown (length xs)) (length xs)) by done.
  mstep run_construct_at; [|apply lookup_insert_eq|by rewrite length_replicate]. hsimpl.
  mstep run_begin; [|exact Hv]. cbn [buffer_ GetAddress].
  mstep (run_migrate_n xs ys _ _ _ a 0 [] [] a' 0 []); [|done|hlookup|done|hlookup|done|done].
  hsimpl.
  mstep run_data_Swap; [|exact Hv].
  cbn [GetAddress buffer_].
  rewrite <- (left_behind_length xs) at 1.
  mstep (run_destroy_n _ _ _ _ a 0 []); [|hlookup|done].
  rewrite left_behind_length. hsimpl. cbn [fst snd].
  unfold RawMemory_dtor.
  mstep run_Deallocate; [|hlookup].
  rewrite live_replicate_None, app_nil_r.
  mstep run_get_size; [|apply lookup_insert_eq].
  mstep run_set_size; [|apply lookup_insert_eq].
  mstep run_get_data; [|apply lookup_insert_eq].
  mstep run_get_size; [|apply lookup_insert_eq].
  rewrite run_RawMemory_index by (cbn; lia).
  cbn [buffer_ ptr_add Nat.add].
  rewrite insert_insert_eq.
  replace (length xs + 1 - 1) with (length xs) by lia.
  heap_eq.
Qed.

Lemma run_migrate_n_0 p q w : migrate_n p 0 q w = Ok tt w.
Proof. unfold migrate_n. by destruct (_ || _). Qed.

Lemma run_destroy_n_0 p w : destroy_n p 0 w = Ok tt w.
Proof. reflexivity. Qed.

Lemma run_Deallocate_null w : Deallocate nullptr w = Ok tt w.
Proof. reflexivity. Qed.

Lemma run_EmplaceBack_first h v l this x :
  v !! this = Some (mkVector (mkRawMemory nullptr 0) 0) →
  EmplaceBack this (Some x) (mkWorld h v l)
  = Ok (Ptr (fresh (dom h)) 0)
       (mkWorld (<[fresh (dom h) := [Some x]]> h)
                (<[this := mkVector (mkRawMemory (Ptr (fresh (dom h)) 0) 1) 1]> v)
                l).
Proof.
  intros Hv. unfold EmplaceBack.
  mstep run_get_size; [|exact Hv].
  mstep run_Capacity; [|exact Hv].
  rewrite decide_True by done. rewrite decide_True by done.
  unfold with_RawMemory, on_exception.
  mstep run_RawMemory_ctor; [|lia].
  mstep run_RawMemory_plus; [|cbn; lia]. cbn [ptr_add Nat.add placement_new replicate].
  mstep (run_construct_at _ _ _ _ 0 []); [|apply lookup_insert_eq|done]. hsimpl.
  mstep run_begin; [|exact Hv].
  mstep run_migrate_n_0.
  mstep run_data_Swap; [|exact Hv].
  mstep run_destroy_n_0.
  unfold RawMemory_dtor.
  mstep run_Deallocate_null.
  mstep run_get_size; [|apply lookup_insert_eq].
  mstep run_set_size; [|apply lookup_insert_eq].
  mstep run_get_data; [|apply lookup_insert_eq].
  mstep run_get_size; [|apply lookup_insert_eq].
  rewrite run_RawMemory_index by (cbn; lia).
  cbn [buffer_ ptr_add Nat.add Nat.sub].
  rewrite insert_insert_eq.
  heap_eq.
Qed.

Lemma run_EmplaceBack_in_place h v l this a xs cap x :
  v !! this = Some (mkVector (mkRawMemory (Ptr a 0) cap) (length xs)) →
  h !! a = Some ((Some <$> xs) ++ replicate (cap - length xs) None) →
  length xs < cap →
  EmplaceBack this (Some x) (mkWorld h v l)
  = Ok (Ptr a (length xs))
       (mkWorld (<[a := (Some <$> xs ++ [x]) ++ replicate (cap - length xs - 1) None]> h)
                (<[this := mkVector (mkRawMemory (Ptr a 0) cap) (length xs + 1)]> v)
                l).
Proof.
  intros Hv Ha Hlt. unfold EmplaceBack.
  mstep run_get_size; [|exact Hv].
  mstep run_Capacity; [|exact Hv].
  rewrite (decide_False (P := length xs = cap)) by lia.
  mstep run_get_data; [|exact Hv].
  mstep run_RawMemory_plus; [|cbn; lia]. cbn [ptr_add Nat.add placement_new].
  rewrite (replicate_split_at (cap - length xs) 0) in Ha by lia.
  cbn [replicate app] in Ha.
  mstep run_construct_at; [|exact Ha|by rewrite length_fmap].
  mstep run_get_size; [|exact Hv].
  mstep run_set_size; [|exact Hv].
  mstep run_get_data; [|apply lookup_insert_eq].
  mstep run_get_size; [|apply lookup_insert_eq].
  rewrite run_RawMemory_index by (cbn; lia).
  cbn [buffer_ ptr_add Nat.add].
  replace (length xs + 1 - 1) with (length xs) by lia.
  replace (cap - length xs - 0 - 1) with (cap - length xs - 1) by lia.
  rewrite fmap_app. heap_eq.
Qed.

(** *** A failing append at full capacity *)

Lemma live_middle n x k :
  omap id (replicate n (@None T) ++ Some x :: replicate k None) = [x].
Proof.
  rewrite omap_app, live_replicate_None. cbn. by rewrite live_replicate_None.
Qed.

Lemma run_EmplaceBack_ctor_throws_full h v l this m n :
  v !! this = Some (mkVector m n) →
  capacity_ m = n →
  EmplaceBack this None (mkWorld h v l) = Exn (mkWorld h v l).
Proof.
  intros Hv Hcap. unfold EmplaceBack.
  mstep run_get_size; [|exact Hv].
  mstep run_Capacity; [|exact Hv].
  rewrite (decide_True (P := n = capacity_ m)) by done.
  fold (grown n).
  pose proof (grown_gt n) as Hg.
  unfold with_RawMemory, on_exception.
  mstep run_RawMemory_ctor; [|lia].
  mstep run_RawMemory_plus; [|cbn; lia]. cbn [placement_new]. mnext.
  unfold RawMemory_dtor. 
  mstep run_Deallocate; [|apply lookup_insert_eq].
  rewrite live_replicate_None, app_nil_r.
  mnext. rewrite delete_insert_id by apply fresh_block. done.
Qed.

Lemma run_EmplaceBack_ctor_throws_in_place h v l this m n :
  v !! this = Some (mkVector m n) →
  n < capacity_ m →
  EmplaceBack this None (mkWorld h v l) = Exn (mkWorld h v l).
Proof.
  intros Hv Hcap. unfold EmplaceBack.
  mstep run_get_size; [|exact Hv].
  mstep run_Capacity; [|exact Hv].
  rewrite (decide_False (P := n = capacity_ m)) by lia.
  mstep run_get_data; [|exact Hv].
  mstep run_RawMemory_plus; [|cbn; lia]. cbn [placement_new]. by mnext.
Qed.

(** The copy path, a full vector, and a copy that throws during the
    migration: the old block and the vector are as before, the new block
    is released, and the new element, which was built in the new block, was
    never destroyed. *)
Lemma run_EmplaceBack_migration_throws h v l this a xs x :
  move_selected = false →
  v !! this = Some (mkVector (mkRawMemory (Ptr a 0) (length xs)) (length xs)) →
  h !! a = Some (Some <$> xs) →
  copies xs = None →
  EmplaceBack this (Some x) (mkWorld h v l) = Exn (mkWorld h v (l ++ [x])).
Proof.
  intros Hsel Hv Ha Hc. unfold EmplaceBack.
  mstep run_get_size; [|exact Hv].
  mstep run_Capacity; [|exact Hv].
  rewrite (decide_True (P := length xs = length xs)) by done.
  fold (grown (length xs)).
  pose proof (grown_gt (length xs)) as Hg.
  pose proof (fresh_block_ne _ _ _ Ha) as Hne.
  unfold with_RawMemory, on_exception.
  mstep run_RawMemory_ctor; [|lia].
  mstep run_RawMemory_plus; [|cbn; lia]. cbn [ptr_add Nat.add placement_new].
  rewrite (replicate_split_at (grown (length xs)) (length xs)) by done.
  mstep run_construct_at; [|apply lookup_insert_eq|by rewrite length_replicate]. hsimpl.
  mstep run_begin; [|exact Hv].
  unfold migrate_n. fold move_selected. rewrite Hsel.
  mstep (run_uninitialized_copy_n_throws xs _ _ _ a 0 [] [] (fresh (dom h)) 0 []);
    [|done|hlookup|done|hlookup|done|done].
  unfold RawMemory_dtor.
  mstep run_Deallocate; [|apply lookup_insert_eq].
  rewrite live_middle.
  mnext. rewrite delete_insert_id by apply fresh_block. done.
Qed.

(** *** Appending to a vector that holds [xs] *)

Lemma holds_intro h v l this a cap n xs cells :
  v !! this = Some (mkVector (mkRawMemory (Ptr a 0) cap) n) →
  h !! a = Some cells →
  n = length xs →
  length xs ≤ cap →
  cells = (Some <$> xs) ++ replicate (cap - length xs) None →
  holds (mkWorld h v l) this xs cap.
Proof.
  intros Hv Ha -> Hle ->. eexists. split; [exact Hv|]. split; [done|].
  split; [|done]. cbn. rewrite length_app, length_fmap, length_replicate. lia.
Qed.

Lemma holds_inv h v l this xs cap :
  holds (mkWorld h v l) this xs cap →
  length xs ≤ cap ∧
  ((v !! this = Some (mkVector (mkRawMemory nullptr 0) 0) ∧ xs = [] ∧ cap = 0) ∨
   (∃ a, v !! this = Some (mkVector (mkRawMemory (Ptr a 0) cap) (length xs)) ∧
         h !! a = Some ((Some <$> xs) ++ replicate (cap - length xs) None))).
Proof.
  intros Hh. split; [by eapply holds_size_le|].
  destruct Hh as ([[|a i] c] & Hv & Hcap & Hlen & Hbuf); cbn in *; subst c.
  - left. rewrite Hbuf in Hlen. cbn in Hlen. subst cap.
    apply app_eq_nil in Hbuf as [Hxs _]. apply fmap_nil_inv in Hxs. by subst xs.
  - right. destruct Hbuf as [-> Ha]. eauto.
Qed.

Lemma holds_Size w this (xs : list T) cap :
  holds w this xs cap → Size this w = Ok (length xs) w.
Proof.
  destruct w as [h v l]. intros (m & Hv & _). by eapply run_get_size.
Qed.

Lemma holds_Capacity w this (xs : list T) cap :
  holds w this xs cap → Capacity this w = Ok cap w.
Proof.
  destruct w as [h v l]. intros (m & Hv & <- & _). by eapply run_Capacity.
Qed.

Lemma holds_Vector_default (w : World T) this :
  ∃ w', Vector_default this w = Ok tt w' ∧ holds w' this [] 0 ∧
        heap w' = heap w ∧ leaked w' = leaked w.
Proof.
  destruct w as [h v l]. eexists. split; [reflexivity|]. split; [|done].
  eexists. cbn. split; [apply lookup_insert_eq|]. done.
Qed.

Lemma holds_EmplaceBack w this xs cap x ys :
  holds w this xs cap →
  migrated xs = Some ys →
  ∃ p w',
    EmplaceBack this (Some x) w = Ok p w' ∧
    holds w' this ((if decide (length xs = cap) then ys else xs) ++ [x])
                  (if decide (length xs = cap) then grown cap else cap) ∧
    leaked w' = leaked w.
Proof.
  destruct w as [h v l]. intros Hh Hm.
  pose proof (migrated_length _ _ Hm) as Hys.
  apply holds_inv in Hh as [Hle [(Hv & -> & ->)|(a & Hv & Ha)]].
  - (* no block yet *)
    destruct ys; [|done]. cbn.
    eexists _, _. split; [by apply run_EmplaceBack_first|]. split; [|done].
    eapply (holds_intro _ _ _ _ _ _ _ [x]); [apply lookup_insert_eq..|done|done|done].
  - case_decide as Hfull.
    + (* full *)
      rewrite <- Hfull, Nat.sub_diag, app_nil_r in Ha.
      rewrite <- Hfull in *.
      eexists _, _. split; [by eapply run_EmplaceBack_grow|]. split; [|done].
      pose proof (grown_gt (length xs)) as Hg.
      eapply holds_intro; [apply lookup_insert_eq..| | |].
      * rewrite length_app, Hys. done.
      * rewrite length_app, Hys. cbn. lia.
      * rewrite fmap_app, length_app, Hys. cbn. rewrite <- app_assoc. cbn.
        do 3 f_equal. lia.
    + eexists _, _. split; [eapply run_EmplaceBack_in_place; [exact Hv|exact Ha|lia]|]. split; [|done].
      eapply holds_intro; [apply lookup_insert_eq..| | |].
      * by rewrite length_app.
      * rewrite length_app. cbn. lia.
      * rewrite length_app. cbn. do 2 f_equal. lia.
Qed.

(** *** [Reserve] *)

Lemma run_Reserve_enough h v l this m n capacity :
  v !! this = Some (mkVector m n) →
  capacity ≤ capacity_ m →
  Reserve this capacity (mkWorld h v l) = Ok tt (mkWorld h v l).
Proof.
  intros Hv Hle. unfold Reserve.
  mstep run_Capacity; [|exact Hv].
  by rewrite decide_True.
Qed.

Lemma run_Reserve_first h v l this capacity :
  v !! this = Some (mkVector (mkRawMemory nullptr 0) 0) →
  capacity ≠ 0 →
  Reserve this capacity (mkWorld h v l)
  = Ok tt (mkWorld (<[fresh (dom h) := replicate capacity None]> h)
                   (<[this := mkVector (mkRawMemory (Ptr (fresh (dom h)) 0) capacity) 0]> v)
                   l).
Proof.
  intros Hv Hn. unfold Reserve.
  mstep run_Capacity; [|exact Hv].
  rewrite (decide_False (P := capacity ≤ 0)) by lia.
  unfold with_RawMemory, on_exception.
  mstep run_RawMemory_ctor; [|lia].
  mstep run_begin; [|exact Hv].
  mstep run_get_size; [|exact Hv].
  mstep run_migrate_n_0.
  mstep run_destroy_n_0.
  mstep run_data_Swap; [|exact Hv].
  unfold RawMemory_dtor.
  mstep run_Deallocate_null. done.
Qed.

Lemma run_Reserve_grow h v l this a xs cap capacity ys :
  v !! this = Some (mkVector (mkRawMemory (Ptr a 0) cap) (length xs)) →
  h !! a = Some ((Some <$> xs) ++ replicate (cap - length xs) None) →
  length xs ≤ cap →
  cap < capacity →
  migrated xs = Some ys →
  Reserve this capacity (mkWorld h v l)
  = Ok tt (mkWorld (<[fresh (dom h) := (Some <$> ys) ++ replicate (capacity - length xs) None]>
                     (delete a h))
                   (<[this := mkVector (mkRawMemory (Ptr (fresh (dom h)) 0) capacity)
                                       (length xs)]> v)
                   l).
Proof.
  intros Hv Ha Hle Hlt Hm. unfold Reserve.
  pose proof (fresh_block_ne _ _ _ Ha) as Hne.
  mstep run_Capacity; [|exact Hv].
  rewrite (decide_False (P := capacity ≤ cap)) by lia.
  unfold with_RawMemory, on_exception.
  mstep run_RawMemory_ctor; [|lia].
  mstep run_begin; [|exact Hv].
  mstep run_get_size; [|exact Hv].
  assert (replicate capacity (@None T)
          = replicate (length xs) None ++ replicate (capacity - length xs) None) as ->.
  { rewrite <- replicate_add. f_equal. lia. }
  mstep (run_migrate_n xs ys _ _ _ a 0 [] _ (fresh (dom h)) 0 []);
    [|done|hlookup|done|hlookup|done|done].
  hsimpl.
  rewrite <- (left_behind_length xs) at 1.
  mstep (run_destroy_n _ _ _ _ a 0 []); [|hlookup|done].
  rewrite left_behind_length. hsimpl.
  mstep run_data_Swap; [|exact Hv].
  unfold RawMemory_dtor.
  mstep run_Deallocate; [|hlookup].
  rewrite omap_app, !live_replicate_None, !app_nil_r.
  heap_eq.
Qed.

(** A count that [fits] is one for which the block that [Allocate] asks
    [operator new] for has room for exactly that many objects. *)
Lemma fits_room (n : nat) : fits n → room (Allocate_bytes (N.of_nat n)) = N.of_nat n.
Proof.
  unfold fits, room, Allocate_bytes, size_t_mul. intros Hf.
  rewrite N.mod_small by lia. by rewrite N.div_mul.
Qed.


(** *** [Resize] *)

Lemma run_Resize_shrink h v l this a xs cap m :
  v !! this = Some (mkVector (mkRawMemory (Ptr a 0) cap) (length xs)) →
  h !! a = Some ((Some <$> xs) ++ replicate (cap - length xs) None) →
  length xs ≤ cap →
  m < length xs →
  Resize this m (mkWorld h v l)
  = Ok tt (mkWorld (<[a := (Some <$> take m xs) ++ replicate (cap - m) None]> h)
                   (<[this := mkVector (mkRawMemory (Ptr a 0) cap) m]> v)
                   l).
Proof.
  intros Hv Ha Hle Hlt. unfold Resize.
  mstep run_get_size; [|exact Hv].
  rewrite (decide_False (P := m = length xs)) by lia.
  rewrite (decide_True (P := m < length xs)) by lia.
  mstep run_begin; [|exact Hv]. mnext. cbn [ptr_add Nat.add].
  rewrite <- (take_drop m xs), fmap_app, <- app_assoc in Ha.
  replace (length xs - m) with (length (drop m xs)) by (rewrite length_drop; lia).
  mstep run_destroy_n; [|exact Ha|by rewrite length_fmap, length_take; lia].
  mstep run_set_size; [|exact Hv].
  rewrite length_drop, length_app, length_take, length_drop.
  rewrite <- replicate_add.
  heap_eq. do 3 f_equal. lia.
Qed.

Lemma run_Resize_extend h v l this a xs cap n ds :
  v !! this = Some (mkVector (mkRawMemory (Ptr a 0) cap) (length xs)) →
  h !! a = Some ((Some <$> xs) ++ replicate (cap - length xs) None) →
  length xs < n →
  n ≤ cap →
  built default_ctor (n - length xs) = Some ds →
  Resize this n (mkWorld h v l)
  = Ok tt (mkWorld (<[a := (Some <$> xs ++ ds) ++ replicate (cap - n) None]> h)
                   (<[this := mkVector (mkRawMemory (Ptr a 0) cap) n]> v)
                   l).
Proof.
  intros Hv Ha Hlt Hle Hd. unfold Resize.
  mstep run_get_size; [|exact Hv].
  rewrite (decide_False (P := n = length xs)) by lia.
  rewrite (decide_False (P := n < length xs)) by lia.
  mstep run_Reserve_enough; [|exact Hv|done].
  mstep run_end; [|exact Hv].
  mstep run_get_size; [|exact Hv]. cbn [ptr_add Nat.add].
  assert (replicate (cap - length xs) (@None T)
          = replicate (n - length xs) None ++ replicate (cap - n) None) as Hrep.
  { rewrite <- replicate_add. f_equal. lia. }
  rewrite Hrep in Ha.
  mstep run_uninitialized_default_construct_n; [|exact Hd|exact Ha|by rewrite length_fmap].
  mstep run_set_size; [|exact Hv].
  rewrite fmap_app. heap_eq.
Qed.

(** X27. On a vector with elements [xs], [Resize(m)] with [m] below the
    size followed by [Resize(length xs)] returns when the
    default-initialisations of the new elements build the objects [ds].
    Afterwards the vector has its old size and capacity, its first [m]
    elements are the first [m] elements of [xs], and the elements from
    index [m] on are [ds], whatever [xs] held there. (For a trivial type
    the objects [ds] have indeterminate values.) *)
Theorem resize_down_then_up (w : World T) (this : nat) (xs ds : list T) (cap m : nat) :
  holds w this xs cap →
  m < length xs →
  built default_ctor (length xs - m) = Some ds →
  ∃ w', (Resize this m;; Resize this (length xs)) w = Ok tt w' ∧
        holds w' this (take m xs ++ ds) cap ∧
        leaked w' = leaked w.
Proof.
  destruct w as [h v l]. intros Hh Hlt Hd.
  pose proof (built_length _ _ _ Hd) as Hds.
  apply holds_inv in Hh as [Hle [(Hv & -> & ->)|(a & Hv & Ha)]]; [cbn in Hlt; lia|].
  assert (length (take m xs) = m) as Hm by (rewrite length_take; lia).
  eexists. split.
  - mstep run_Resize_shrink; [|exact Hv|exact Ha|done|done].
    erewrite (run_Resize_extend _ _ _ _ a (take m xs) cap (length xs) ds);
      [reflexivity| | |lia|lia|by rewrite Hm].
    + rewrite lookup_insert_eq. by rewrite Hm.
    + rewrite lookup_insert_eq. by rewrite Hm.
  - split; [|done].
    eapply holds_intro; [apply lookup_insert_eq..| | |].
    + rewrite length_app. lia.
    + rewrite length_app. lia.
    + rewrite length_app.
      do 2 f_equal. lia.
Qed.

(** *** [Swap], move construction and move assignment *)

Lemma run_Swap h v l this other a b :
  this ≠ other →
  v !! this = Some a →
  v !! other = Some b →
  Swap this other (mkWorld h v l)
  = Ok tt (mkWorld h (<[other := a]> (<[this := b]> v)) l).
Proof.
  intros Hne Ha Hb. destruct a as [da na], b as [db nb]. unfold Swap.
  mstep run_get_vec; [|exact Ha].
  mstep run_get_vec; [|exact Hb].
  mstep run_put_vec.
  mstep run_get_vec; [|by rewrite lookup_insert_ne].
  mstep run_put_vec.
  mstep run_get_vec; [|rewrite lookup_insert_ne by done; apply lookup_insert_eq].
  mstep run_get_vec; [|apply lookup_insert_eq].
  mstep run_put_vec.
  mstep run_get_vec; [|rewrite lookup_insert_ne by done; apply lookup_insert_eq].
  rewrite run_put_vec.
  destruct da, db. cbn. heap_eq.
Qed.

Lemma run_Swap_self h v l this a :
  v !! this = Some a →
  Swap this this (mkWorld h v l) = Ok tt (mkWorld h v l).
Proof.
  intros Ha. destruct a as [[p c] n]. unfold Swap.
  mstep run_get_vec; [|exact Ha].
  mstep run_get_vec; [|exact Ha].
  mstep run_put_vec.
  mstep run_get_vec; [|apply lookup_insert_eq].
  mstep run_put_vec.
  mstep run_get_vec; [|apply lookup_insert_eq].
  mstep run_get_vec; [|apply lookup_insert_eq].
  mstep run_put_vec.
  mstep run_get_vec; [|apply lookup_insert_eq].
  rewrite run_put_vec. cbn. heap_eq.
Qed.

Lemma holds_record h v l this xs cap :
  holds (mkWorld h v l) this xs cap → ∃ r, v !! this = Some r.
Proof. intros (m & Hv & _). eauto. Qed.

Lemma holds_transfer h v l v' l' this this' xs cap :
  holds (mkWorld h v l) this xs cap →
  v' !! this' = v !! this →
  holds (mkWorld h v' l') this' xs cap.
Proof.
  intros (m & Hv & Hrest) E. exists m. cbn in *. by rewrite E.
Qed.

Lemma holds_empty_default h v l this :
  v !! this = Some (mkVector RawMemory_default 0) →
  holds (mkWorld h v l) this [] 0.
Proof. intros Hv. eexists. split; [exact Hv|]. done. Qed.

(** C2, as the code has it. Move construction leaves the new vector with
    the elements and capacity of the source and the source empty, with no
    storage. Move assignment exchanges the two vectors: the destination
    gets the elements of the source, in order, and the source gets those
    the destination had; no element and no block is touched. *)
Theorem move_exchanges (w : World T) (this other : nat) (xs ys : list T) (cx cy : nat) :
  this ≠ other →
  holds w other ys cy →
  (∃ w', Vector_move this other w = Ok tt w' ∧
         holds w' this ys cy ∧ holds w' other [] 0 ∧
         Size other w' = Ok 0 w' ∧
         heap w' = heap w ∧ leaked w' = leaked w) ∧
  (holds w this xs cx →
   ∃ w', move_assignment this other w = Ok tt w' ∧
         holds w' this ys cy ∧ holds w' other xs cx ∧
         Size other w' = Ok (length xs) w' ∧
         heap w' = heap w ∧ leaked w' = leaked w).
Proof.
  destruct w as [h v l]. intros Hne Ho.
  destruct (holds_record _ _ _ _ _ _ Ho) as [ro Hro].
  split.
  - eexists. split.
    { unfold Vector_move. mstep run_put_vec.
      eapply run_Swap; [done|apply lookup_insert_eq|by rewrite lookup_insert_ne]. }
    assert (holds (mkWorld h (<[other:=mkVector RawMemory_default 0]>
                     (<[this:=ro]> (<[this:=mkVector RawMemory_default 0]> v))) l) other [] 0) as He.
    { apply holds_empty_default, lookup_insert_eq. }
    split; [|split; [exact He|split; [exact (holds_Size _ _ _ _ He)|done]]].
    eapply holds_transfer; [exact Ho|].
    rewrite lookup_insert_ne by done. by rewrite lookup_insert_eq.
  - intros Ht. destruct (holds_record _ _ _ _ _ _ Ht) as [rt Hrt].
    eexists. split; [by eapply run_Swap|].
    assert (holds (mkWorld h (<[other:=rt]> (<[this:=ro]> v)) l) other xs cx) as Hx.
    { eapply holds_transfer; [exact Ht|]. by rewrite lookup_insert_eq. }
    split; [|split; [exact Hx|split; [exact (holds_Size _ _ _ _ Hx)|done]]].
    eapply holds_transfer; [exact Ho|].
    rewrite lookup_insert_ne by done. by rewrite lookup_insert_eq.
Qed.

(** *** Copy construction, destruction, copy assignment *)

Lemma run_Vector_copy h v l this other b ys cy zs :
  v !! other = Some (mkVector (mkRawMemory (Ptr b 0) cy) (length ys)) →
  h !! b = Some ((Some <$> ys) ++ replicate (cy - length ys) None) →
  length ys ≠ 0 →
  copies ys = Some zs →
  Vector_copy this other (mkWorld h v l)
  = Ok tt (mkWorld (<[fresh (dom h) := Some <$> zs]> h)
                   (<[this := mkVector (mkRawMemory (Ptr (fresh (dom h)) 0) (length ys))
                                       (length ys)]> v)
                   l).
Proof.
  intros Hv Hb Hn Hc. unfold Vector_copy.
  pose proof (fresh_block_ne _ _ _ Hb) as Hne.
  mstep run_get_vec; [|exact Hv].
  mstep run_RawMemory_ctor; [|done].
  erewrite run_on_exception_Ok; [|
    eapply (run_uninitialized_copy_n ys zs _ _ _ b 0 [] _ (fresh (dom h)) 0 [] []);
      [done|hlookup|done|hlookup|done|done] ].
  mnext. hsimpl. rewrite run_put_vec. done.
Qed.

Lemma run_Vector_copy_throws h v l this other b ys cy :
  v !! other = Some (mkVector (mkRawMemory (Ptr b 0) cy) (length ys)) →
  h !! b = Some ((Some <$> ys) ++ replicate (cy - length ys) None) →
  copies ys = None →
  Vector_copy this other (mkWorld h v l) = Exn (mkWorld h v l).
Proof.
  intros Hv Hb Hc. unfold Vector_copy.
  pose proof (fresh_block_ne _ _ _ Hb) as Hne.
  assert (length ys ≠ 0) as Hn by (by destruct ys).
  mstep run_get_vec; [|exact Hv].
  mstep run_RawMemory_ctor; [|done].
  erewrite run_on_exception_Exn; [reflexivity| |].
  - eapply (run_uninitialized_copy_n_throws ys _ _ _ b 0 [] _ (fresh (dom h)) 0 [] []);
      [done|hlookup|done|hlookup|done|done].
  - unfold RawMemory_dtor. cbn [buffer_].
    erewrite run_Deallocate by apply lookup_insert_eq.
    rewrite live_replicate_None, app_nil_r.
    by rewrite delete_insert_id by apply fresh_block.
Qed.

Lemma run_Vector_dtor h v l this a xs cap :
  v !! this = Some (mkVector (mkRawMemory (Ptr a 0) cap) (length xs)) →
  h !! a = Some ((Some <$> xs) ++ replicate (cap - length xs) None) →
  Vector_dtor this (mkWorld h v l) = Ok tt (mkWorld (delete a h) (delete this v) l).
Proof.
  intros Hv Ha. unfold Vector_dtor.
  mstep run_begin; [|exact Hv].
  mstep run_get_size; [|exact Hv].
  mstep (run_destroy_n _ _ _ _ a 0 []); [|hlookup|done].
  mstep run_get_data; [|exact Hv].
  unfold RawMemory_dtor. mnext.
  mstep run_Deallocate; [|hlookup].
  cbn [app]. rewrite omap_app, !live_replicate_None, !app_nil_r.
  unfold drop_vec. cbn. by rewrite delete_insert_eq.
Qed.

Lemma run_Vector_dtor_null h v l this :
  v !! this = Some (mkVector (mkRawMemory nullptr 0) 0) →
  Vector_dtor this (mkWorld h v l) = Ok tt (mkWorld h (delete this v) l).
Proof.
  intros Hv. unfold Vector_dtor.
  mstep run_begin; [|exact Hv].
  mstep run_get_size; [|exact Hv].
  mstep run_destroy_n_0.
  mstep run_get_data; [|exact Hv].
  unfold RawMemory_dtor. mnext.
  mstep run_Deallocate_null. done.
Qed.

Lemma fresh_object (v : gmap nat Vector) : v !! fresh (dom v) = None.
Proof. apply not_elem_of_dom, is_fresh. Qed.

Lemma fresh_object_ne (v : gmap nat Vector) this r : v !! this = Some r → this ≠ fresh (dom v).
Proof. intros E ->. by rewrite fresh_object in E. Qed.

Lemma vecs_fresh_insert (v : gmap nat Vector) this r r1 r2 r3 :
  v !! this = Some r →
  delete (fresh (dom v)) (<[fresh (dom v) := r1]> (<[this := r2]> (<[fresh (dom v) := r3]> v)))
  = <[this := r2]> v.
Proof.
  intros Hv. pose proof (fresh_object_ne _ _ _ Hv) as Hne.
  pose proof (fresh_object v) as Hf.
  apply map_eq. intros i.
  repeat first [rewrite lookup_insert | rewrite lookup_delete].
  repeat case_decide; try (exfalso; congruence); simplify_eq; done.
Qed.

(** C4. Copy assignment [v = rhs] between two different vectors when
    [rhs] has more elements than [v] has capacity. If every copy succeeds,
    building [zs] from the elements [ys] of [rhs] ([zs] is [ys] when a copy
    equals its original), the assignment returns: [v] holds [zs] in a block
    that is new, with capacity the size of [rhs], the block [v] had is
    released with its elements destroyed, and [rhs] is as before. If a
    copy throws, the exception propagates and the world is as before the
    call. *)
Theorem copy_assignment_beyond_capacity
    (w : World T) (this rhs : nat) (xs ys : list T) (cx cy : nat) :
  this ≠ rhs →
  holds w this xs cx →
  holds w rhs ys cy →
  separate w this rhs →
  cx < length ys →
  (∀ zs, copies ys = Some zs →
     ∃ w', copy_assignment this rhs w = Ok tt w' ∧
           holds w' this zs (length ys) ∧
           holds w' rhs ys cy ∧
           leaked w' = leaked w ∧
           (∀ p, storage w this = Some p → ¬ allocated w' p) ∧
           (∀ p, storage w' this = Some p → allocated w' p ∧ ¬ allocated w p)) ∧
  (copies ys = None → copy_assignment this rhs w = Exn w).
Proof.
  destruct w as [h v l]. intros Hne Ht Hr Hsep Hlt.
  apply holds_inv in Hr as [Hley [(_ & -> & _)|(b & Hvr & Hb)]]; [cbn in Hlt; lia|].
  assert (length ys ≠ 0) as Hn by lia.
  pose proof (fresh_block_ne _ _ _ Hb) as Hnb.
  pose proof (fresh_object_ne _ _ _ Hvr) as Hnr.
  assert (∀ rt, v !! this = Some rt → capacity_ (data_ rt) = cx →
          copy_assignment this rhs (mkWorld h v l)
          = with_Vector (λ new_vector, Vector_copy new_vector rhs)
                        (λ new_vector, Swap this new_vector) (mkWorld h v l)) as Estart.
  { intros [mt nt] Hvt Hcx. unfold copy_assignment. rewrite decide_True by done.
    mstep run_get_size; [|exact Hvr].
    mstep run_Capacity; [|exact Hvt]. cbn in Hcx. rewrite Hcx.
    by rewrite (decide_True (P := cx < length ys)). }
  apply holds_inv in Ht as [Hlex [(Hvt & -> & ->)|(a & Hvt & Ha)]].
  - (* [v] had no block *)
    pose proof (fresh_object_ne _ _ _ Hvt) as Hnl.
    rewrite (Estart _ Hvt eq_refl). clear Estart. unfold with_Vector. cbn [vecs].
    split.
    + intros zs Hc. pose proof (copies_length _ _ Hc) as Hzs.
      mstep run_Vector_copy; [|exact Hvr|exact Hb|done|exact Hc].
      unfold on_exception.
      mstep run_Swap; [|done|by rewrite lookup_insert_ne|apply lookup_insert_eq].
      mstep run_Vector_dtor_null; [|apply lookup_insert_eq].
      rewrite (vecs_fresh_insert _ _ _ _ _ _ Hvt).
      eexists. split; [reflexivity|].
      split; [|split; [|split; [done|]]].
      * eapply holds_intro; [apply lookup_insert_eq..|done|lia|].
        by rewrite Hzs, Nat.sub_diag, app_nil_r.
      * eapply holds_intro; [by rewrite lookup_insert_ne|by rewrite lookup_insert_ne|done..].
      * unfold storage, allocated. cbn. rewrite Hvt, lookup_insert_eq. cbn.
        split; [by intros p [= <-] []|]. intros p [= <-].
        rewrite lookup_insert_eq, fresh_block. split; [done|]. by intros [? ?].
    + intros Hc.
      mstep run_Vector_copy_throws; [|exact Hvr|exact Hb|exact Hc]. done.
  - (* [v] had the block [a] *)
    pose proof (fresh_object_ne _ _ _ Hvt) as Hnl.
    rewrite (Estart _ Hvt eq_refl). clear Estart. unfold with_Vector. cbn [vecs].
    assert (a ≠ b) as Hab.
    { intros ->. specialize (Hsep (Ptr b 0)). unfold storage in Hsep. cbn in Hsep.
      rewrite Hvt, Hvr in Hsep. by specialize (Hsep eq_refl eq_refl). }
    pose proof (fresh_block_ne _ _ _ Ha) as Hna.
    split.
    + intros zs Hc. pose proof (copies_length _ _ Hc) as Hzs.
      mstep run_Vector_copy; [|exact Hvr|exact Hb|done|exact Hc].
      unfold on_exception.
      mstep run_Swap; [|done|by rewrite lookup_insert_ne|apply lookup_insert_eq].
      mstep run_Vector_dtor; [|apply lookup_insert_eq|by rewrite lookup_insert_ne].
      rewrite (vecs_fresh_insert _ _ _ _ _ _ Hvt).
      eexists. split; [reflexivity|].
      split; [|split; [|split; [done|]]].
      * eapply holds_intro; [apply lookup_insert_eq|..|done|lia|].
        { rewrite lookup_delete_ne by done. apply lookup_insert_eq. }
        by rewrite Hzs, Nat.sub_diag, app_nil_r.
      * eapply holds_intro; [by rewrite lookup_insert_ne|..|done|done|done].
        rewrite lookup_delete_ne by done. by rewrite lookup_insert_ne.
      * unfold storage, allocated. cbn. rewrite Hvt, lookup_insert_eq. cbn.
        split.
        -- intros p [= <-]. rewrite lookup_delete_eq. by intros [? ?].
        -- intros p [= <-]. rewrite lookup_delete_ne by done.
           rewrite lookup_insert_eq, fresh_block. split; [done|]. by intros [? ?].
    + intros Hc.
      mstep run_Vector_copy_throws; [|exact Hvr|exact Hb|exact Hc]. done.
Qed.

(** C10. Copy-assigning a vector to itself returns at once: the world
    after the call is the world before it, so the size, the capacity and
    the elements of the vector are what they were. *)
Theorem self_copy_assignment (w : World T) (this : nat) :
  copy_assignment this this w = Ok tt w.
Proof.
  unfold copy_assignment. by rewrite decide_False by (by intros ?).
Qed.

(** *** [Emplace] before the end, at full capacity *)

Lemma run_distance a i j w :
  i ≤ j → distance (Ptr a i) (Ptr a j) w = Ok (j - i) w.
Proof. intros Hle. unfold distance. by rewrite decide_True. Qed.

(** The steps of [Emplace] up to the branch on the capacity, for a
    position before the end. *)
Lemma run_Emplace_start h v l this a (xs : list T) cap index args :
  v !! this = Some (mkVector (mkRawMemory (Ptr a 0) cap) (length xs)) →
  index < length xs →
  Emplace this (Ptr a index) args (mkWorld h v l)
  = ((if decide (length xs = cap) then
       with_RawMemory (if decide (length xs = 0) then 1 else length xs * 2) (λ new_data,
         placement_new (GetAddress new_data +ₚ index) args;;
         (if is_nothrow_move_constructible || negb is_copy_constructible then
            uninitialized_move_n (Ptr a 0) index (GetAddress new_data);;
            uninitialized_move_n (Ptr a 0 +ₚ index) (length xs - index)
                                 (GetAddress new_data +ₚ index +ₚ 1)
          else
            on_exception
              (uninitialized_copy_n (Ptr a 0) index (GetAddress new_data))
              (destroy_at (GetAddress new_data +ₚ index));;
            on_exception
              (uninitialized_copy_n (Ptr a 0 +ₚ index) (length xs - index)
                                    (GetAddress new_data +ₚ index +ₚ 1))
              (destroy_n (GetAddress new_data) (index + 1)));;
         destroy_n (Ptr a 0) (length xs);;
         new_data' ← data_Swap this new_data;
         mret (tt, new_data'))
     else
       temp ← from_option mret throw args;
       d ← get_data this;
       last ← RawMemory_index d (length xs - 1);
       p ← RawMemory_plus d (length xs);
       move_construct_at p last;;
       last_end ← end_ this;
       d_last ← end_ this;
       move_backward (Ptr a index) (last_end -ₚ 1) d_last;;
       target ← RawMemory_index d index;
       move_assign_from target temp);;
     size ← get_size this;
     set_size this (size + 1);;
     d ← get_data this;
     RawMemory_index d index) (mkWorld h v l).
Proof.
  intros Hv Hlt. unfold Emplace.
  mstep run_end; [|exact Hv]. mnext. cbn [ptr_add Nat.add].
  rewrite decide_False by (intros [= ?]; lia).
  mstep run_begin; [|exact Hv]. mnext.
  mstep run_distance; [|lia]. rewrite Nat.sub_0_r.
  mstep run_get_size; [|exact Hv].
  mstep run_Capacity; [|exact Hv].
  reflexivity.
Qed.

Lemma run_Emplace_grow_prefix_throws h v l this a xs1 xs2 x :
  move_selected = false →
  v !! this = Some (mkVector (mkRawMemory (Ptr a 0) (length (xs1 ++ xs2)))
                             (length (xs1 ++ xs2))) →
  h !! a = Some (Some <$> xs1 ++ xs2) →
  0 < length xs2 →
  copies xs1 = None →
  Emplace this (Ptr a (length xs1)) (Some x) (mkWorld h v l) = Exn (mkWorld h v l).
Proof.
  intros Hsel Hv Ha Hlt Hc.
  pose proof (fresh_block_ne _ _ _ Ha) as Hne.
  pose proof (grown_gt (length (xs1 ++ xs2))) as Hg.
  assert (length xs1 < length (xs1 ++ xs2)) as Hi by (rewrite length_app; lia).
  rewrite fmap_app in Ha.
  erewrite run_Emplace_start; [|exact Hv|done].
  rewrite (decide_True (P := length (xs1 ++ xs2) = length (xs1 ++ xs2))) by done.
  fold (grown (length (xs1 ++ xs2))). fold move_selected. rewrite Hsel.
  unfold with_RawMemory.
  mstep run_RawMemory_ctor; [|lia].
  cbn [ptr_add Nat.add placement_new].
  rewrite (replicate_split_at (grown (length (xs1 ++ xs2))) (length xs1)) by lia.
  unfold on_exception at 1.
  mstep run_construct_at; [|apply lookup_insert_eq|by rewrite length_replicate].
  hsimpl.
  unfold on_exception at 1.
  mstep (run_uninitialized_copy_n_throws xs1 _ _ _ a 0 [] _ (fresh (dom h)) 0 []);
    [|done|hlookup|done|hlookup|done|done].
  mstep run_destroy_at; [|apply lookup_insert_eq|by rewrite length_replicate].
  hsimpl. unfold RawMemory_dtor.
  mstep run_Deallocate; [|apply lookup_insert_eq].
  rewrite <- replicate_split_at by lia.
  rewrite live_replicate_None, app_nil_r.
  by rewrite delete_insert_id by apply fresh_block.
Qed.

Lemma run_Emplace_grow_suffix_throws h v l this a xs1 xs2 x zs1 :
  move_selected = false →
  v !! this = Some (mkVector (mkRawMemory (Ptr a 0) (length (xs1 ++ xs2)))
                             (length (xs1 ++ xs2))) →
  h !! a = Some (Some <$> xs1 ++ xs2) →
  0 < length xs2 →
  copies xs1 = Some zs1 →
  copies xs2 = None →
  Emplace this (Ptr a (length xs1)) (Some x) (mkWorld h v l) = Exn (mkWorld h v l).
Proof.
  intros Hsel Hv Ha Hlt Hc1 Hc2.
  pose proof (fresh_block_ne _ _ _ Ha) as Hne.
  pose proof (grown_gt (length (xs1 ++ xs2))) as Hg.
  pose proof (copies_length _ _ Hc1) as Hz1.
  assert (length xs1 < length (xs1 ++ xs2)) as Hi by (rewrite length_app; lia).
  assert (length (xs1 ++ xs2) - length xs1 = length xs2) as Hsub by (rewrite length_app; lia).
  rewrite fmap_app in Ha.
  erewrite run_Emplace_start; [|exact Hv|done].
  rewrite (decide_True (P := length (xs1 ++ xs2) = length (xs1 ++ xs2))) by done.
  fold (grown (length (xs1 ++ xs2))). fold move_selected. rewrite Hsel.
  unfold with_RawMemory.
  mstep run_RawMemory_ctor; [|lia].
  cbn [ptr_add Nat.add placement_new].
  rewrite (replicate_split_at (grown (length (xs1 ++ xs2))) (length xs1)) by lia.
  unfold on_exception at 1.
  mstep run_construct_at; [|apply lookup_insert_eq|by rewrite length_replicate].
  hsimpl.
  unfold on_exception at 1.
  mstep (run_uninitialized_copy_n xs1 zs1 _ _ _ a 0 [] _ (fresh (dom h)) 0 []);
    [|done|hlookup|done|hlookup|done|done].
  hsimpl. rewrite Hsub.
  assert (grown (length (xs1 ++ xs2)) - length xs1 - 1
          = length xs2 + (grown (length (xs1 ++ xs2)) - length xs1 - 1 - length xs2)) as Hrest
    by (pose proof (length_app xs1 xs2); lia).
  rewrite Hrest, replicate_add.
  unfold on_exception at 1.
  mstep (run_uninitialized_copy_n_throws xs2 _ _ _ a (length xs1) (Some <$> xs1) []
           (fresh (dom h)) (length xs1 + 1) ((Some <$> zs1) ++ [Some x]));
    [|done|hlookup|by rewrite length_fmap|hlookup
     |rewrite length_app, length_fmap, Hz1; reflexivity|done].
  replace (length xs1 + 1) with (length (zs1 ++ [x])) by (rewrite length_app, Hz1; reflexivity).
  mstep (run_destroy_n (zs1 ++ [x]) _ _ _ (fresh (dom h)) 0 []);
    [|rewrite fmap_app; hlookup|done].
  hsimpl. unfold RawMemory_dtor.
  mstep run_Deallocate; [|apply lookup_insert_eq].
  rewrite !omap_app, !live_replicate_None, !app_nil_r.
  by rewrite delete_insert_id by apply fresh_block.
Qed.

(** C6. [Emplace] at a position before the end of a full vector, on the
    copy path, with a new element whose construction succeeds. If a copy
    of an element before the position throws, or the copies before the
    position succeed and a copy of an element at or after the position
    throws, the exception propagates and the world is as before the call:
    the vector and its block are untouched, the new block is released, and
    nothing is leaked, so every object that was built in the new block -
    the new element, the copies made so far - was destroyed first. *)
Theorem Emplace_growth_rolls_back
    (w : World T) (this : nat) (xs : list T) (x : T) (index : nat) :
  move_selected = false →
  holds w this xs (length xs) →
  index < length xs →
  ∃ b, begin_ this w = Ok b w ∧
       (copies (take index xs) = None →
          Emplace this (b +ₚ index) (Some x) w = Exn w) ∧
       (∀ zs, copies (take index xs) = Some zs →
              copies (drop index xs) = None →
          Emplace this (b +ₚ index) (Some x) w = Exn w).
Proof.
  destruct w as [h v l]. intros Hsel Hh Hlt.
  apply holds_inv in Hh as [_ [(_ & -> & _)|(a & Hv & Ha)]]; [cbn in Hlt; lia|].
  rewrite Nat.sub_diag, app_nil_r in Ha.
  exists (Ptr a 0). split; [exact (run_begin _ _ _ _ _ _ Hv)|]. cbn [ptr_add Nat.add].
  assert (length (take index xs) = index) as Hi by (rewrite length_take; lia).
  assert (0 < length (drop index xs)) as Hd by (rewrite length_drop; lia).
  rewrite <- (take_drop index xs) in Hv, Ha.
  split.
  - intros Hc. rewrite <- Hi at 1. by eapply run_Emplace_grow_prefix_throws.
  - intros zs Hc1 Hc2. rewrite <- Hi at 1. by eapply run_Emplace_grow_suffix_throws.
Qed.

(** ** Frames: what a call on one vector leaves alone *)

Lemma framed_refl w this : framed w w this.
Proof. done. Qed.

Lemma framed_trans w1 w2 w3 this :
  framed w1 w2 this → framed w2 w3 this → framed w1 w3 this.
Proof.
  intros [Ho1 Hv1] [Ho2 Hv2]. split; [congruence|].
  intros o Hne. by rewrite Hv2, Hv1.
Qed.

Lemma framed_size h v l this d n n' :
  v !! this = Some (mkVector d n) →
  framed (mkWorld h v l) (mkWorld h (<[this := mkVector d n']> v) l) this.
Proof.
  intros Hv. split.
  - unfold others, storage. cbn. by rewrite lookup_insert_eq, Hv.
  - intros o Hne. cbn. by rewrite lookup_insert_ne.
Qed.

Lemma framed_in_place h v l l' this a cap n cap' n' cells :
  v !! this = Some (mkVector (mkRawMemory (Ptr a 0) cap) n) →
  framed (mkWorld h v l)
         (mkWorld (<[a := cells]> h)
                  (<[this := mkVector (mkRawMemory (Ptr a 0) cap') n']> v) l') this.
Proof.
  intros Hv. split.
  - unfold others, storage. cbn. rewrite lookup_insert_eq, Hv. cbn.
    by rewrite delete_insert_eq.
  - intros o Hne. cbn. by rewrite lookup_insert_ne.
Qed.

Lemma framed_moved h v l l' this a a' cap n cap' n' cells :
  v !! this = Some (mkVector (mkRawMemory (Ptr a 0) cap) n) →
  h !! a' = None →
  framed (mkWorld h v l)
         (mkWorld (<[a' := cells]> (delete a h))
                  (<[this := mkVector (mkRawMemory (Ptr a' 0) cap') n']> v) l') this.
Proof.
  intros Hv Hf. split.
  - unfold others, storage. cbn. rewrite lookup_insert_eq, Hv. cbn.
    rewrite delete_insert_id; [done|].
    destruct (decide (a' = a)) as [->|?];
      [apply lookup_delete_eq|by rewrite lookup_delete_ne].
  - intros o Hne. cbn. by rewrite lookup_insert_ne.
Qed.

Lemma framed_first h v l l' this a' n cap' n' cells :
  v !! this = Some (mkVector (mkRawMemory nullptr 0) n) →
  h !! a' = None →
  framed (mkWorld h v l)
         (mkWorld (<[a' := cells]> h)
                  (<[this := mkVector (mkRawMemory (Ptr a' 0) cap') n']> v) l') this.
Proof.
  intros Hv Hf. split.
  - unfold others, storage. cbn. rewrite lookup_insert_eq, Hv. cbn.
    by rewrite delete_insert_id.
  - intros o Hne. cbn. by rewrite lookup_insert_ne.
Qed.

(** ** Construction with a size *)

Lemma run_uninitialized_value_construct_n ds n h v l a i pre post :
  built value_ctor n = Some ds →
  h !! a = Some (pre ++ replicate n None ++ post) →
  i = length pre →
  uninitialized_value_construct_n (Ptr a i) n (mkWorld h v l)
  = Ok tt (mkWorld (<[a := pre ++ (Some <$> ds) ++ post]> h) v l).
Proof. apply run_uninitialized_construct_from. Qed.

(** X1. [Vector(size_t size)], for a [size] whose byte count does not
    wrap: the block asked for then has room for exactly [size] objects.
    For size 0 it allocates nothing and the new vector is empty with
    capacity 0, whatever [T]. When the value-initialisations [T()] build
    the objects [ds], the new vector holds [ds] and its capacity is
    exactly [size]. When one of them throws, at the first object or at a
    later one, the exception propagates, no object comes to exist and the
    world is as before: the elements built so far are destroyed and the
    block that was allocated is released. *)
Theorem Vector_sized_spec (w : World T) (this size : nat) :
  fits size →
  room (Allocate_bytes (N.of_nat size)) = N.of_nat size ∧
  (size = 0 →
     ∃ w', Vector_sized this size w = Ok tt w' ∧ holds w' this [] 0 ∧
           heap w' = heap w ∧ leaked w' = leaked w) ∧
  (∀ ds, built value_ctor size = Some ds →
     ∃ w', Vector_sized this size w = Ok tt w' ∧
           holds w' this ds size ∧
           leaked w' = leaked w) ∧
  (built value_ctor size = None → Vector_sized this size w = Exn w).
Proof.
  destruct w as [h v l]. intros Hfits. split; [by apply fits_room|].
  assert (Vector_sized this 0 (mkWorld h v l)
          = Ok tt (mkWorld h (<[this := mkVector (mkRawMemory nullptr 0) 0]> v) l)) as E0.
  { reflexivity. }
  assert (holds (mkWorld h (<[this := mkVector (mkRawMemory nullptr 0) 0]> v) l) this [] 0) as H0.
  { apply holds_empty_default, lookup_insert_eq. }
  split; [|split].
  - intros ->. eexists. split; [exact E0|]. done.
  - intros ds Hd. pose proof (built_length _ _ _ Hd) as Hlen.
    destruct (decide (size = 0)) as [->|Hn].
    { destruct ds; [|done]. eexists. split; [exact E0|]. done. }
    eexists. split.
    + unfold Vector_sized.
      mstep run_RawMemory_ctor; [|done].
      erewrite run_on_exception_Ok; [|
        eapply (run_uninitialized_value_construct_n ds size _ _ _ _ 0 [] []);
          [done|rewrite lookup_insert_eq; by rewrite app_nil_r|done] ].
      mnext. rewrite run_put_vec. reflexivity.
    + split; [|done].
      eapply holds_intro; [apply lookup_insert_eq..| | |]; [lia..|].
      rewrite Hlen, Nat.sub_diag. cbn. by rewrite !app_nil_r.
  - intros Hd. assert (size ≠ 0) as Hn by (by intros ->).
    unfold Vector_sized.
    mstep run_RawMemory_ctor; [|done].
    erewrite run_on_exception_Exn; [reflexivity| |].
    + apply (run_uninitialized_construct_from_throws value_ctor size 0 _ _ _ _ 0 [] []);
        [done|rewrite lookup_insert_eq; by rewrite app_nil_r|done].
    + unfold RawMemory_dtor. cbn [buffer_].
      erewrite run_Deallocate by apply lookup_insert_eq.
      rewrite live_replicate_None, app_nil_r.
      by rewrite delete_insert_id by apply fresh_block.
Qed.

(** ** Copy construction and destruction on their own *)

Lemma run_Vector_copy_empty h v l this other m :
  v !! other = Some (mkVector m 0) →
  Vector_copy this other (mkWorld h v l)
  = Ok tt (mkWorld h (<[this := mkVector (mkRawMemory nullptr 0) 0]> v) l).
Proof.
  intros Hv. unfold Vector_copy.
  mstep run_get_vec; [|exact Hv]. reflexivity.
Qed.

(** X2. [Vector(const Vector& other)]. When every element of the source
    can be copied, the new vector holds the copies in order, its capacity
    is the SIZE of the source (not its capacity), it has a block of its
    own, and the source and every block that existed are as before. When a
    copy throws, the exception propagates and the world is exactly as
    before: no object, no block, no leak. *)
Theorem Vector_copy_spec (w : World T) (this other : nat) (ys : list T) (cy : nat) :
  this ≠ other →
  holds w other ys cy →
  (∀ zs, copies ys = Some zs →
     ∃ w', Vector_copy this other w = Ok tt w' ∧
           holds w' this zs (length ys) ∧ holds w' other ys cy ∧
           separate w' this other ∧ leaked w' = leaked w ∧
           (∀ a, is_Some (heap w !! a) → heap w' !! a = heap w !! a)) ∧
  (copies ys = None → Vector_copy this other w = Exn w).
Proof.
  destruct w as [h v l]. intros Hne Ho.
  assert (∀ zs, copies ys = Some zs → ys = [] →
    ∃ w', Vector_copy this other (mkWorld h v l) = Ok tt w' ∧
           holds w' this zs (length ys) ∧ holds w' other ys cy ∧
           separate w' this other ∧ leaked w' = l ∧
           (∀ a, is_Some (h !! a) → heap w' !! a = h !! a)) as Hempty.
  { intros zs Hc ->. destruct Ho as (m & Hv & Hcap & Hown). cbn in Hv.
    replace zs with (@nil T) by (cbv in Hc; congruence).
    eexists. split; [by eapply run_Vector_copy_empty|].
    split; [apply holds_empty_default, lookup_insert_eq|].
    split; [exists m; cbn; by rewrite lookup_insert_ne|].
    split; [|done].
    intros p. unfold storage. cbn. rewrite lookup_insert_eq. cbn. congruence. }
  split.
  - intros zs Hc. destruct (decide (ys = [])) as [Hnil|Hnil]; [by apply Hempty|].
    apply holds_inv in Ho as [Hle [(_ & -> & _)|(b & Hv & Hb)]]; [done|].
    assert (length ys ≠ 0) as Hn by (by destruct ys).
    pose proof (copies_length _ _ Hc) as Hlen.
    pose proof (fresh_block_ne _ _ _ Hb) as Hfb.
    eexists. split; [by eapply run_Vector_copy|].
    split; [|split; [|split; [|split; [done|]]]].
    + eapply holds_intro; [apply lookup_insert_eq..| | |]; try lia.
      rewrite <- Hlen, Nat.sub_diag. cbn. by rewrite app_nil_r.
    + eapply holds_intro; [by rewrite lookup_insert_ne|by rewrite lookup_insert_ne|done|done|done].
    + intros p. unfold storage. cbn. rewrite lookup_insert_eq, lookup_insert_ne, Hv by done.
      cbn. congruence.
    + cbn. intros a [cells Ha]. rewrite lookup_insert_ne; [done|].
      intros <-. by rewrite fresh_block in Ha.
  - intros Hc. apply holds_inv in Ho as [Hle [(_ & -> & _)|(b & Hv & Hb)]]; [done|].
    by eapply run_Vector_copy_throws.
Qed.

(** X3. [~Vector()]. Destroying a vector that satisfies the invariant
    ends the lifetime of its elements, releases its block and removes the
    object; nothing is leaked, and every other object and block is as
    before. *)
Theorem Vector_dtor_spec (w : World T) (this : nat) (xs : list T) (cap : nat) :
  holds w this xs cap →
  ∃ w', Vector_dtor this w = Ok tt w' ∧
        vecs w' !! this = None ∧
        (∀ p, storage w this = Some p → ¬ allocated w' p) ∧
        leaked w' = leaked w ∧
        (∀ o, o ≠ this → vecs w' !! o = vecs w !! o) ∧
        (∀ a, storage w this ≠ Some (Ptr a 0) → heap w' !! a = heap w !! a).
Proof.
  destruct w as [h v l]. intros Hh.
  apply holds_inv in Hh as [Hle [(Hv & -> & ->)|(a & Hv & Ha)]].
  - eexists. split; [by eapply run_Vector_dtor_null|]. cbn.
    split; [apply lookup_delete_eq|].
    split; [|split; [done|split; [|done]]].
    + intros p. unfold storage. cbn. rewrite Hv. cbn. intros [= <-] Hf. exact Hf.
    + intros o Ho. by rewrite lookup_delete_ne.
  - eexists. split; [by eapply run_Vector_dtor|]. cbn.
    split; [apply lookup_delete_eq|].
    split; [|split; [done|split]].
    + intros p. unfold storage. cbn. rewrite Hv. cbn. intros [= <-]. cbn.
      rewrite lookup_delete_eq. by intros [? ?].
    + intros o Ho. by rewrite lookup_delete_ne.
    + intros a'. unfold storage. cbn. rewrite Hv. cbn. intros Hne.
      rewrite lookup_delete_ne; [done|]. congruence.
Qed.

(** X4. A copy that is constructed and then destroyed leaves the world
    exactly as it was: the same objects, the same blocks, nothing
    leaked. *)
Theorem copy_then_destroy (w : World T) (this other : nat) (ys zs : list T) (cy : nat) :
  vecs w !! this = None →
  holds w other ys cy →
  copies ys = Some zs →
  (Vector_copy this other;; Vector_dtor this) w = Ok tt w.
Proof.
  destruct w as [h v l]. cbn [vecs]. intros Hfree Ho Hc.
  destruct (decide (ys = [])) as [->|Hnil].
  - destruct Ho as (m & Hv & _). cbn in Hv.
    mstep run_Vector_copy_empty; [|exact Hv].
    erewrite run_Vector_dtor_null by apply lookup_insert_eq.
    by rewrite delete_insert_id.
  - apply holds_inv in Ho as [Hle [(_ & -> & _)|(b & Hv & Hb)]]; [done|].
    assert (length ys ≠ 0) as Hn by (by destruct ys).
    pose proof (copies_length _ _ Hc) as Hlen.
    mstep run_Vector_copy; [|exact Hv|exact Hb|exact Hn|exact Hc].
    erewrite (run_Vector_dtor _ _ _ _ _ zs);
      [|rewrite lookup_insert_eq; by rewrite Hlen
       |rewrite lookup_insert_eq, <- Hlen, Nat.sub_diag; cbn; by rewrite app_nil_r].
    rewrite !delete_insert_id; [done|done|apply fresh_block].
Qed.

(** ** Exchange, iterators and element access *)

(** X5. [Swap]. Exchanging two vectors gives each the elements and the
    capacity of the other without touching a block or an element;
    exchanging them a second time restores the world exactly; and a vector
    exchanged with itself is unchanged. *)
Theorem Swap_spec (w : World T) (this other : nat) (xs ys : list T) (cx cy : nat) :
  holds w this xs cx →
  holds w other ys cy →
  (this ≠ other →
     (∃ w', Swap this other w = Ok tt w' ∧
            holds w' this ys cy ∧ holds w' other xs cx ∧
            heap w' = heap w ∧ leaked w' = leaked w) ∧
     (Swap this other;; Swap this other) w = Ok tt w) ∧
  Swap this this w = Ok tt w.
Proof.
  destruct w as [h v l]. intros Ht Ho.
  destruct (holds_record _ _ _ _ _ _ Ht) as [rt Hrt].
  destruct (holds_record _ _ _ _ _ _ Ho) as [ro Hro].
  split; [|by eapply run_Swap_self].
  intros Hne. split.
  - eexists. split; [by eapply run_Swap|].
    split; [|split; [|done]].
    + eapply holds_transfer; [exact Ho|].
      rewrite lookup_insert_ne by done. by rewrite lookup_insert_eq.
    + eapply holds_transfer; [exact Ht|]. by rewrite lookup_insert_eq.
  - mstep run_Swap; [|exact Hne|exact Hrt|exact Hro].
    erewrite run_Swap;
      [|exact Hne|rewrite lookup_insert_ne by done; apply lookup_insert_eq
       |apply lookup_insert_eq].
    do 2 f_equal. apply map_eq. intros i.
    repeat first [rewrite lookup_insert | rewrite lookup_delete].
    repeat case_decide; try (exfalso; congruence); simplify_eq; done.
Qed.

(** X6. Iterators. [end()] is [begin()] advanced by the size, so their
    distance is [Size()]; the [i]-th element is the live object at
    [begin() + i]; [end()] itself points at no live object, so reading
    through it is undefined; and a vector without capacity has the null
    pointer for both. *)
Theorem begin_end_spec (w : World T) (this : nat) (xs : list T) (cap : nat) :
  holds w this xs cap →
  ∃ b, begin_ this w = Ok b w ∧
       end_ this w = Ok (b +ₚ length xs) w ∧
       distance b (b +ₚ length xs) w = Ok (length xs) w ∧
       (∀ i x, xs !! i = Some x → load (b +ₚ i) w = Ok x w) ∧
       load (b +ₚ length xs) w = Fault.
Proof.
  destruct w as [h v l]. intros Hh.
  apply holds_inv in Hh as [Hle [(Hv & -> & ->)|(a & Hv & Ha)]].
  - exists nullptr.
    split; [exact (run_begin _ _ _ _ _ _ Hv)|].
    split; [exact (run_end _ _ _ _ _ _ Hv)|].
    split; [done|]. split; [done|]. done.
  - exists (Ptr a 0).
    split; [exact (run_begin _ _ _ _ _ _ Hv)|].
    split; [exact (run_end _ _ _ _ _ _ Hv)|].
    split; [|split].
    + cbn. rewrite decide_True by (split; [done|lia]). by rewrite Nat.sub_0_r.
    + intros i x Hi. unfold load. cbn. rewrite Ha. cbn.
      rewrite lookup_app_l by (rewrite length_fmap; by eapply lookup_lt_Some).
      by rewrite list_lookup_fmap, Hi.
    + unfold load. cbn. rewrite Ha. cbn.
      rewrite lookup_app_r by (by rewrite length_fmap).
      rewrite length_fmap, Nat.sub_diag.
      by destruct (cap - length xs).
Qed.

(** X7. [operator[]]. For an index below the size it returns a reference
    to the element at that index, which is the object at [begin() + index],
    and changes nothing. For an index that is not below the size the
    assertion fails, also when the index is still within the capacity. *)
Theorem at_index_spec (w : World T) (this index : nat) (xs : list T) (cap : nat) :
  holds w this xs cap →
  (∀ x, xs !! index = Some x →
     ∃ b, begin_ this w = Ok b w ∧
          at_index this index w = Ok (b +ₚ index) w ∧
          load (b +ₚ index) w = Ok x w) ∧
  (length xs ≤ index → at_index this index w = Fault).
Proof.
  destruct w as [h v l]. intros Hh.
  pose proof (holds_Size _ _ _ _ Hh) as Hs. unfold Size in Hs.
  split.
  - intros x Hi. pose proof (lookup_lt_Some _ _ _ Hi) as Hlt.
    apply holds_inv in Hh as [Hle [(Hv & -> & ->)|(a & Hv & Ha)]]; [done|].
    exists (Ptr a 0).
    split; [exact (run_begin _ _ _ _ _ _ Hv)|]. split.
    + unfold at_index. rewrite mbind_unfold, Hs. cbv beta iota.
      rewrite bool_decide_eq_true_2 by done. cbv [assert]. mnext.
      mstep run_get_data; [|exact Hv].
      unfold RawMemory_index. cbn [capacity_ buffer_].
      rewrite bool_decide_eq_true_2 by lia. reflexivity.
    + unfold load. cbn. rewrite Ha. cbn.
      rewrite lookup_app_l by (by rewrite length_fmap).
      by rewrite list_lookup_fmap, Hi.
  - intros Hge. unfold at_index. rewrite mbind_unfold, Hs. cbv beta iota.
    rewrite bool_decide_eq_false_2 by lia. reflexivity.
Qed.

(** ** Failures during growth, and [Resize] in full *)

Lemma run_Reserve_copy_throws h v l this a xs cap capacity :
  move_selected = false →
  v !! this = Some (mkVector (mkRawMemory (Ptr a 0) cap) (length xs)) →
  h !! a = Some ((Some <$> xs) ++ replicate (cap - length xs) None) →
  length xs ≤ cap →
  cap < capacity →
  copies xs = None →
  Reserve this capacity (mkWorld h v l) = Exn (mkWorld h v l).
Proof.
  intros Hsel Hv Ha Hle Hlt Hc. unfold Reserve.
  pose proof (fresh_block_ne _ _ _ Ha) as Hne.
  mstep run_Capacity; [|exact Hv].
  rewrite (decide_False (P := capacity ≤ cap)) by lia.
  unfold with_RawMemory, on_exception.
  mstep run_RawMemory_ctor; [|lia].
  mstep run_begin; [|exact Hv].
  mstep run_get_size; [|exact Hv].
  assert (replicate capacity (@None T)
          = replicate (length xs) None ++ replicate (capacity - length xs) None) as ->.
  { rewrite <- replicate_add. f_equal. lia. }
  unfold migrate_n. fold move_selected. rewrite Hsel.
  mstep (run_uninitialized_copy_n_throws xs _ _ _ a 0 [] _ (fresh (dom h)) 0 []);
    [|done|hlookup|done|hlookup|done|done].
  unfold RawMemory_dtor.
  mstep run_Deallocate; [|apply lookup_insert_eq].
  rewrite omap_app, !live_replicate_None, !app_nil_r.
  mnext. rewrite delete_insert_id by apply fresh_block. done.
Qed.

(** X8. [Reserve] has the strong guarantee when it copies. For a type
    whose elements are copied into the new block (copyable, move
    constructor not [noexcept]), a [Reserve] beyond the capacity, to a
    count whose byte count does not wrap, during which a copy throws
    propagates the exception and leaves the world exactly as before: the
    vector, its block and elements, and nothing leaked. *)
Theorem Reserve_failed_copy_changes_nothing (w : World T) (this : nat)
    (xs : list T) (cap n : nat) :
  move_selected = false →
  holds w this xs cap →
  cap < n →
  fits n →
  copies xs = None →
  Reserve this n w = Exn w.
Proof.
  destruct w as [h v l]. intros Hsel Hh Hlt _ Hc.
  apply holds_inv in Hh as [Hle [(_ & -> & _)|(a & Hv & Ha)]]; [done|].
  by eapply run_Reserve_copy_throws.
Qed.

(** X9. When the constructor of the new element throws, [EmplaceBack]
    and [PushBack] propagate the exception and leave the world exactly as
    before, whether the vector was full or not: a block allocated for the
    growth is released, no element was touched and nothing is leaked. *)
Theorem EmplaceBack_failed_construction_changes_nothing (w : World T) (this : nat)
    (xs : list T) (cap : nat) :
  holds w this xs cap →
  EmplaceBack this None w = Exn w ∧
  (∀ x, copy_ctor x = None → PushBack this x w = Exn w) ∧
  (∀ x, (move_ctor x).1 = None → PushBack_move this x w = Exn w).
Proof.
  destruct w as [h v l]. intros Hh.
  assert (EmplaceBack this None (mkWorld h v l) = Exn (mkWorld h v l)) as E.
  { pose proof (holds_size_le _ _ _ _ Hh) as Hle.
    destruct Hh as (m & Hv & Hcap & _). cbn in Hv.
    destruct (decide (length xs = cap)) as [Heq|Hne].
    - eapply run_EmplaceBack_ctor_throws_full; [exact Hv|lia].
    - eapply run_EmplaceBack_ctor_throws_in_place; [exact Hv|lia]. }
  split; [exact E|]. split.
  - intros x Hx. unfold PushBack. by rewrite Hx, mbind_unfold, E.
  - intros x Hx. unfold PushBack_move. by rewrite Hx, mbind_unfold, E.
Qed.

Lemma run_uninitialized_default_construct_n_throws n h v l a i pre post :
  built default_ctor n = None →
  h !! a = Some (pre ++ replicate n None ++ post) →
  i = length pre →
  uninitialized_default_construct_n (Ptr a i) n (mkWorld h v l) = Exn (mkWorld h v l).
Proof. apply run_uninitialized_construct_from_throws. Qed.

Lemma holds_Reserve h v l this xs cap n ys :
  holds (mkWorld h v l) this xs cap →
  cap < n →
  migrated xs = Some ys →
  ∃ a h',
    Reserve this n (mkWorld h v l)
    = Ok tt (mkWorld h' (<[this := mkVector (mkRawMemory (Ptr a 0) n) (length xs)]> v) l) ∧
    h' !! a = Some ((Some <$> ys) ++ replicate (n - length xs) None) ∧
    framed (mkWorld h v l)
           (mkWorld h' (<[this := mkVector (mkRawMemory (Ptr a 0) n) (length xs)]> v) l) this.
Proof.
  intros Hh Hlt Hm.
  apply holds_inv in Hh as [Hle [(Hv & -> & ->)|(a & Hv & Ha)]].
  - replace ys with (@nil T) by (unfold migrated, moves, copies in Hm; destruct move_selected; cbv in Hm; congruence).
    eexists _, _. split; [apply run_Reserve_first; [exact Hv|lia]|].
    split; [|eapply framed_first; [exact Hv|apply fresh_block]].
    rewrite lookup_insert_eq. cbn. by rewrite Nat.sub_0_r.
  - eexists _, _. split; [by eapply run_Reserve_grow|].
    split; [|eapply framed_moved; [exact Hv|apply fresh_block]].
    by rewrite lookup_insert_eq.
Qed.

Lemma holds_Resize_beyond (w : World T) (this : nat) (xs ys : list T) (cap n : nat) :
  holds w this xs cap →
  cap < n →
  migrated xs = Some ys →
  (∀ ds, built default_ctor (n - length xs) = Some ds →
     ∃ w', Resize this n w = Ok tt w' ∧
           holds w' this (ys ++ ds) n ∧
           framed w w' this ∧ leaked w' = leaked w) ∧
  (built default_ctor (n - length xs) = None →
     ∃ w', Resize this n w = Exn w' ∧ holds w' this ys n ∧
           framed w w' this ∧ leaked w' = leaked w).
Proof.
  destruct w as [h v l]. intros Hh Hlt Hm.
  pose proof (holds_size_le _ _ _ _ Hh) as Hle.
  pose proof (holds_Size _ _ _ _ Hh) as Hs. unfold Size in Hs.
  pose proof (migrated_length _ _ Hm) as Hys.
  destruct (holds_Reserve _ _ _ _ _ _ _ _ Hh Hlt Hm) as (a & h' & E & Ha & Hfr).
  set (v' := <[this := mkVector (mkRawMemory (Ptr a 0) n) (length xs)]> v) in *.
  assert (v' !! this = Some (mkVector (mkRawMemory (Ptr a 0) n) (length xs))) as Hv'
    by apply lookup_insert_eq.
  assert (Resize this n (mkWorld h v l)
    = ((uninitialized_default_construct_n (Ptr a (length xs)) (n - length xs);;
        set_size this n) : M T unit) (mkWorld h' v' l)) as Hrun.
  { unfold Resize. rewrite mbind_unfold, Hs. cbv beta iota.
    rewrite (decide_False (P := n = length xs)) by lia.
    rewrite (decide_False (P := n < length xs)) by lia.
    rewrite !mbind_unfold, E. cbv beta iota.
    mstep run_end; [|exact Hv'].
    mstep run_get_size; [|exact Hv'].
    reflexivity. }
  split.
  - intros ds Hd. pose proof (built_length _ _ _ Hd) as Hds. eexists. split.
    + rewrite Hrun.
      mstep (run_uninitialized_default_construct_n ds (n - length xs) _ _ _ a _ (Some <$> ys) []);
        [|exact Hd|rewrite app_nil_r; exact Ha|by rewrite length_fmap].
      rewrite (run_set_size _ _ _ _ _ _ Hv'). reflexivity.
    + split; [|split; [|done]].
      * eapply holds_intro; [apply lookup_insert_eq..| | |].
        -- rewrite length_app. lia.
        -- rewrite length_app. lia.
        -- rewrite length_app, fmap_app, app_nil_r.
           replace (n - (length ys + length ds)) with 0 by lia.
           cbn. by rewrite app_nil_r.
      * eapply framed_trans; [exact Hfr|]. by eapply framed_in_place.
  - intros Hd. eexists. split.
    + rewrite Hrun.
      rewrite mbind_unfold.
      rewrite (run_uninitialized_default_construct_n_throws _ _ _ _ a _ (Some <$> ys) []);
        [reflexivity|exact Hd|rewrite app_nil_r; exact Ha|by rewrite length_fmap].
    + split; [|split; [exact Hfr|done]].
      eapply holds_intro; [exact Hv'|exact Ha|lia|lia|].
      by rewrite Hys.
Qed.

(** X10. [Resize(n)] beyond the capacity, to a count [n] whose byte count
    does not wrap: the block asked for then has room for exactly [n]
    objects. The vector first reserves exactly [n] cells (no doubling), so the elements are transferred as the traits select; then
    the new elements are default-initialised and the vector holds the
    transferred elements followed by the objects [ds] that these
    initialisations build (for a trivial type, objects with indeterminate
    values). When one of the initialisations throws, at the first new
    element or at a later one, the new elements built so far are
    destroyed and the exception propagates with the size as it was but
    the capacity already grown to [n]: the vector is valid and holds the
    transferred elements, yet it is not the vector from before the
    call. *)
Theorem Resize_beyond_capacity (w : World T) (this : nat) (xs ys : list T) (cap n : nat) :
  holds w this xs cap →
  cap < n →
  fits n →
  migrated xs = Some ys →
  room (Allocate_bytes (N.of_nat n)) = N.of_nat n ∧
  (∀ ds, built default_ctor (n - length xs) = Some ds →
     ∃ w', Resize this n w = Ok tt w' ∧
           holds w' this (ys ++ ds) n ∧
           framed w w' this ∧ leaked w' = leaked w) ∧
  (built default_ctor (n - length xs) = None →
     ∃ w', Resize this n w = Exn w' ∧ holds w' this ys n ∧
           framed w w' this ∧ leaked w' = leaked w).
Proof.
  intros Hh Hlt Hfits Hm. split; [by apply fits_room|].
  by eapply holds_Resize_beyond.
Qed.

Lemma holds_Resize_within (w : World T) (this : nat) (xs : list T) (cap n : nat) :
  holds w this xs cap →
  n ≤ cap →
  (n = length xs → Resize this n w = Ok tt w) ∧
  (n < length xs →
     ∃ w', Resize this n w = Ok tt w' ∧ holds w' this (take n xs) cap ∧
           leaked w' = leaked w ∧ storage w' this = storage w this ∧
           framed w w' this) ∧
  (length xs < n →
     (∀ ds, built default_ctor (n - length xs) = Some ds →
        ∃ w', Resize this n w = Ok tt w' ∧
              holds w' this (xs ++ ds) cap ∧
              leaked w' = leaked w ∧ storage w' this = storage w this ∧
              framed w w' this) ∧
     (built default_ctor (n - length xs) = None → Resize this n w = Exn w)).
Proof.
  destruct w as [h v l]. intros Hh Hn.
  pose proof (holds_Size _ _ _ _ Hh) as Hs. unfold Size in Hs.
  split; [|split].
  - intros ->. unfold Resize. rewrite mbind_unfold, Hs. cbv beta iota.
    by rewrite decide_True.
  - intros Hlt.
    apply holds_inv in Hh as [Hle [(Hv & -> & ->)|(a & Hv & Ha)]]; [cbn in Hlt; lia|].
    eexists. split; [by eapply run_Resize_shrink|].
    assert (length (take n xs) = n) as Hm by (rewrite length_take; lia).
    split; [|split; [done|split]].
    + eapply holds_intro; [apply lookup_insert_eq..|done|lia|by rewrite Hm].
    + unfold storage. cbn. by rewrite lookup_insert_eq, Hv.
    + by eapply framed_in_place.
  - intros Hlt.
    apply holds_inv in Hh as [Hle [(Hv & -> & ->)|(a & Hv & Ha)]]; [cbn in Hlt; lia|].
    split.
    + intros ds Hd. pose proof (built_length _ _ _ Hd) as Hds.
      eexists. split; [by eapply run_Resize_extend|].
      assert (length (xs ++ ds) = n) as Hm by (rewrite length_app; lia).
      split; [|split; [done|split]].
      * eapply holds_intro; [apply lookup_insert_eq..|done|lia|by rewrite Hm].
      * unfold storage. cbn. by rewrite lookup_insert_eq, Hv.
      * by eapply framed_in_place.
    + intros Hd. unfold Resize. rewrite mbind_unfold, Hs. cbv beta iota.
      rewrite (decide_False (P := n = length xs)) by lia.
      rewrite (decide_False (P := n < length xs)) by lia.
      rewrite !mbind_unfold.
      rewrite (run_Reserve_enough _ _ _ _ _ _ _ Hv) by (cbn; lia). cbv beta iota.
      mstep run_end; [|exact Hv].
      mstep run_get_size; [|exact Hv]. cbn [ptr_add Nat.add].
      assert (replicate (cap - length xs) (@None T)
              = replicate (n - length xs) None ++ replicate (cap - n) None) as Hrep.
      { rewrite <- replicate_add. f_equal. lia. }
      rewrite Hrep in Ha.
      rewrite (run_uninitialized_default_construct_n_throws _ _ _ _ a _ (Some <$> xs)
                 (replicate (cap - n) None));
        [reflexivity|exact Hd|exact Ha|by rewrite length_fmap].
Qed.

(** X11. [Resize(n)] within the capacity never allocates and keeps the
    capacity. With [n] equal to the size it changes nothing; with [n]
    below the size it destroys the elements from index [n] on; with [n]
    above the size it appends the objects [ds] that the
    default-initialisations of the new elements build (for a trivial
    type, objects with indeterminate values), and when one of these
    initialisations throws, at the first new element or at a later one,
    it destroys the new elements built so far, propagates the exception
    and leaves the world exactly as before. *)
Theorem Resize_within_capacity (w : World T) (this : nat) (xs : list T) (cap n : nat) :
  holds w this xs cap →
  n ≤ cap →
  (n = length xs → Resize this n w = Ok tt w) ∧
  (n < length xs →
     ∃ w', Resize this n w = Ok tt w' ∧ holds w' this (take n xs) cap ∧
           leaked w' = leaked w ∧ storage w' this = storage w this ∧
           framed w w' this) ∧
  (length xs < n →
     (∀ ds, built default_ctor (n - length xs) = Some ds →
        ∃ w', Resize this n w = Ok tt w' ∧
              holds w' this (xs ++ ds) cap ∧
              leaked w' = leaked w ∧ storage w' this = storage w this ∧
              framed w w' this) ∧
     (built default_ctor (n - length xs) = None → Resize this n w = Exn w)).
Proof. apply holds_Resize_within. Qed.

(** ** Copy assignment into the block the destination has *)

Lemma copy_assigned_length ds : ∀ ss, length (copy_assigned ds ss).1 = length ds.
Proof.
  induction ds as [|d ds IH]; intros [|s ss]; cbn; try done.
  destruct (copy_assign d s).2; cbn; by rewrite ?IH.
Qed.

Lemma run_copy_n ds : ∀ ss h v l a i pre post b j spre spost,
  a ≠ b →
  length ds = length ss →
  h !! a = Some (pre ++ (Some <$> ds) ++ post) →
  i = length pre →
  h !! b = Some (spre ++ (Some <$> ss) ++ spost) →
  j = length spre →
  copy_n (Ptr b j) (length ds) (Ptr a i) (mkWorld h v l)
  = (if (copy_assigned ds ss).2 then Ok tt else Exn)
      (mkWorld (<[a := pre ++ (Some <$> (copy_assigned ds ss).1) ++ post]> h) v l).
Proof.
  induction ds as [|d ds IH]; intros [|s ss] h v l a i pre post b j spre spost Hne Hlen Ha -> Hb ->;
    try done.
  - cbn. by rewrite insert_id.
  - cbn in Ha, Hb. cbn [length copy_n copy_assigned ptr_add].
    unfold copy_assign_at.
    mstep run_load; [|exact Ha|done].
    mstep run_load; [|exact Hb|done].
    mstep run_store; [|exact Ha|done].
    destruct (copy_assign d s) as [d' ok] eqn:Hcs. cbn [fst snd].
    destruct ok.
    + mnext.
      rewrite (IH ss _ _ _ a _ (pre ++ [Some d']) post b _ (spre ++ [Some s]) spost);
        [|done|by injection Hlen|hlookup|rewrite length_app; cbn; lia|hlookup
         |rewrite length_app; cbn; lia].
      destruct (copy_assigned ds ss) as [rs ok] eqn:Hr. cbn [fst snd fmap list_fmap].
      destruct ok; heap_eq.
    + mnext. reflexivity.
Qed.

Lemma run_copy_assignment_fits h v l this rhs dt nt dr nr :
  this ≠ rhs →
  v !! this = Some (mkVector dt nt) →
  v !! rhs = Some (mkVector dr nr) →
  nr ≤ capacity_ dt →
  copy_assignment this rhs (mkWorld h v l)
  = (((if decide (nr < nt) then
         copy_n (buffer_ dr) nr (buffer_ dt);;
         destroy_n (buffer_ dt +ₚ nr) (nt - nr)
       else
         copy_n (buffer_ dr) nt (buffer_ dt);;
         uninitialized_copy_n (buffer_ dr +ₚ nt) (nr - nt) (buffer_ dt +ₚ nt));;
      set_size this nr) : M T unit) (mkWorld h v l).
Proof.
  intros Hne Ht Hr Hfit. unfold copy_assignment.
  rewrite (decide_True (P := this ≠ rhs)) by done.
  mstep run_get_size; [|exact Hr].
  mstep run_Capacity; [|exact Ht].
  rewrite (decide_False (P := capacity_ dt < nr)) by lia.
  mstep run_get_size; [|exact Ht].
  mstep run_begin; [|exact Hr].
  mstep run_begin; [|exact Ht].
  reflexivity.
Qed.

Lemma run_copy_assignment_shrink h v l this rhs a b cx cy xs1 xs2 ys post rpost :
  this ≠ rhs → a ≠ b →
  v !! this = Some (mkVector (mkRawMemory (Ptr a 0) cx) (length (xs1 ++ xs2))) →
  v !! rhs = Some (mkVector (mkRawMemory (Ptr b 0) cy) (length ys)) →
  h !! a = Some ((Some <$> xs1) ++ (Some <$> xs2) ++ post) →
  h !! b = Some ((Some <$> ys) ++ rpost) →
  length xs1 = length ys →
  xs2 ≠ [] →
  length ys ≤ cx →
  copy_assignment this rhs (mkWorld h v l)
  = if (copy_assigned xs1 ys).2
    then Ok tt (mkWorld (<[a := (Some <$> (copy_assigned xs1 ys).1)
                                ++ replicate (length xs2) None ++ post]> h)
                        (<[this := mkVector (mkRawMemory (Ptr a 0) cx) (length ys)]> v) l)
    else Exn (mkWorld (<[a := (Some <$> (copy_assigned xs1 ys).1)
                              ++ (Some <$> xs2) ++ post]> h) v l).
Proof.
  intros Hne Hab Ht Hr Ha Hb Hlen Hxs2 Hfit.
  rewrite (run_copy_assignment_fits _ _ _ _ _ _ _ _ _ Hne Ht Hr) by done.
  cbn [buffer_]. rewrite length_app.
  assert (length xs2 ≠ 0) as Hn2 by (by destruct xs2).
  rewrite (decide_True (P := length ys < length xs1 + length xs2)) by lia.
  rewrite <- Hlen at 1.
  rewrite !mbind_unfold.
  rewrite (run_copy_n xs1 ys _ _ _ a 0 [] ((Some <$> xs2) ++ post) b 0 [] rpost);
    [|done|done|exact Ha|done|exact Hb|done].
  pose proof (copy_assigned_length xs1 ys) as Hrl.
  destruct (copy_assigned xs1 ys) as [rs ok]. cbn [fst snd app] in *.
  destruct ok; [|reflexivity].
  cbn [ptr_add Nat.add].
  replace (length xs1 + length xs2 - length ys) with (length xs2) by lia.
  rewrite (run_destroy_n xs2 _ _ _ a _ (Some <$> rs) post);
    [|apply lookup_insert_eq|rewrite length_fmap; lia].
  rewrite (run_set_size _ _ _ _ _ _ Ht). hsimpl. reflexivity.
Qed.

Lemma run_copy_assignment_extend h v l this rhs a b cx cy xs ys1 ys2 post rpost :
  this ≠ rhs → a ≠ b →
  v !! this = Some (mkVector (mkRawMemory (Ptr a 0) cx) (length xs)) →
  v !! rhs = Some (mkVector (mkRawMemory (Ptr b 0) cy) (length (ys1 ++ ys2))) →
  h !! a = Some ((Some <$> xs) ++ replicate (length ys2) None ++ post) →
  h !! b = Some ((Some <$> ys1) ++ (Some <$> ys2) ++ rpost) →
  length xs = length ys1 →
  length (ys1 ++ ys2) ≤ cx →
  copy_assignment this rhs (mkWorld h v l)
  = if (copy_assigned xs ys1).2
    then match copies ys2 with
         | Some zs =>
             Ok tt (mkWorld (<[a := (Some <$> (copy_assigned xs ys1).1)
                                    ++ (Some <$> zs) ++ post]> h)
                            (<[this := mkVector (mkRawMemory (Ptr a 0) cx)
                                                (length (ys1 ++ ys2))]> v) l)
         | None =>
             Exn (mkWorld (<[a := (Some <$> (copy_assigned xs ys1).1)
                                  ++ replicate (length ys2) None ++ post]> h) v l)
         end
    else Exn (mkWorld (<[a := (Some <$> (copy_assigned xs ys1).1)
                              ++ replicate (length ys2) None ++ post]> h) v l).
Proof.
  intros Hne Hab Ht Hr Ha Hb Hlen Hfit.
  rewrite (run_copy_assignment_fits _ _ _ _ _ _ _ _ _ Hne Ht Hr) by done.
  cbn [buffer_]. rewrite length_app in *.
  rewrite (decide_False (P := length ys1 + length ys2 < length xs)) by lia.
  rewrite !mbind_unfold.
  rewrite (run_copy_n xs ys1 _ _ _ a 0 [] (replicate (length ys2) None ++ post) b 0 []
             ((Some <$> ys2) ++ rpost));
    [|done|done|exact Ha|done|exact Hb|done].
  pose proof (copy_assigned_length xs ys1) as Hrl.
  destruct (copy_assigned xs ys1) as [rs ok]. cbn [fst snd app] in *.
  destruct ok; [|reflexivity].
  cbn [ptr_add Nat.add].
  replace (length ys1 + length ys2 - length xs) with (length ys2) by lia.
  destruct (copies ys2) as [zs|] eqn:Hc.
  - rewrite (run_uninitialized_copy_n ys2 zs _ _ _ b _ (Some <$> ys1) rpost a _
               (Some <$> rs) post);
      [|done|by rewrite lookup_insert_ne|rewrite length_fmap; lia
       |apply lookup_insert_eq|rewrite length_fmap; lia|done].
    rewrite (run_set_size _ _ _ _ _ _ Ht). hsimpl. reflexivity.
  - rewrite (run_uninitialized_copy_n_throws ys2 _ _ _ b _ (Some <$> ys1) rpost a _
               (Some <$> rs) post);
      [|done|by rewrite lookup_insert_ne|rewrite length_fmap; lia
       |apply lookup_insert_eq|rewrite length_fmap; lia|done].
    reflexivity.
Qed.
Lemma run_copy_assignment_clear h v l this rhs dt dr xs post :
  this ≠ rhs →
  v !! this = Some (mkVector dt (length xs)) →
  v !! rhs = Some (mkVector dr 0) →
  (xs = [] ∨ ∃ a, buffer_ dt = Ptr a 0 ∧ h !! a = Some ((Some <$> xs) ++ post)) →
  ∃ h',
    copy_assignment this rhs (mkWorld h v l)
    = Ok tt (mkWorld h' (<[this := mkVector dt 0]> v) l) ∧
    (xs = [] → h' = h) ∧
    (∀ a, buffer_ dt = Ptr a 0 → h !! a = Some ((Some <$> xs) ++ post) →
          h' = <[a := replicate (length xs) None ++ post]> h).
Proof.
  intros Hne Ht Hr Hcells.
  rewrite (run_copy_assignment_fits _ _ _ _ _ _ _ _ _ Hne Ht Hr) by lia.
  destruct (decide (xs = [])) as [->|Hxs].
  - exists h. split; [|split; [done|]].
    + cbn [length]. rewrite (decide_False (P := 0 < 0)) by lia. cbn [copy_n uninitialized_copy_n].
      mnext. exact (run_set_size _ _ _ _ _ _ Ht 0).
    + intros a _ Ha. cbn. by rewrite insert_id.
  - destruct Hcells as [?|(a & Hbuf & Ha)]; [done|].
    assert (length xs ≠ 0) as Hn by (by destruct xs).
    exists (<[a := replicate (length xs) None ++ post]> h).
    split; [|split; [done|]].
    + rewrite (decide_True (P := 0 < length xs)) by lia. cbn [copy_n].
      mnext. rewrite Hbuf. cbn [ptr_add Nat.add]. rewrite Nat.sub_0_r.
      mstep (run_destroy_n xs _ _ _ a 0 []); [|exact Ha|done].
      exact (run_set_size _ _ _ _ _ _ Ht 0).
    + intros a' Hbuf' _. congruence.
Qed.
Lemma holds_frame h v l h' v' l' rhs ys cy a :
  holds (mkWorld h v l) rhs ys cy →
  v' !! rhs = v !! rhs →
  storage (mkWorld h v l) rhs ≠ Some (Ptr a 0) →
  (∀ b, b ≠ a → h' !! b = h !! b) →
  holds (mkWorld h' v' l') rhs ys cy.
Proof.
  intros (m & Hv & Hcap & Hlen & Hbuf) E Hst Hh. cbn in *.
  exists m. cbn. rewrite E. split; [done|]. split; [done|]. split; [done|].
  destruct (buffer_ m) as [|b i] eqn:Hm; [done|].
  destruct Hbuf as [-> Hb]. split; [done|].
  rewrite Hh; [done|]. intros ->. apply Hst. unfold storage. cbn.
  rewrite Hv. cbn. by rewrite Hm.
Qed.

Lemma separate_blocks h v l this rhs a dt nt :
  separate (mkWorld h v l) this rhs →
  v !! this = Some (mkVector dt nt) →
  buffer_ dt = Ptr a 0 →
  storage (mkWorld h v l) rhs ≠ Some (Ptr a 0).
Proof.
  intros Hsep Hv Hbuf Hst.
  assert (Ptr a 0 = nullptr) as Hp; [|done].
  apply Hsep; [|done]. unfold storage. cbn. rewrite Hv. cbn. by rewrite Hbuf.
Qed.

Lemma holds_copy_assignment_fits (w : World T) (this rhs : nat)
    (xs ys : list T) (cx cy : nat) :
  this ≠ rhs →
  separate w this rhs →
  holds w this xs cx →
  holds w rhs ys cy →
  length ys ≤ cx →
  let k := length xs `min` length ys in
  let r := copy_assigned (take k xs) (take k ys) in
  (r.2 = true → ∀ zs, copies (drop k ys) = Some zs →
     ∃ w', copy_assignment this rhs w = Ok tt w' ∧
           holds w' this (r.1 ++ zs) cx ∧ holds w' rhs ys cy ∧
           storage w' this = storage w this ∧ leaked w' = leaked w) ∧
  (r.2 = false ∨ copies (drop k ys) = None →
     ∃ w', copy_assignment this rhs w = Exn w' ∧
           holds w' this (r.1 ++ drop k xs) cx ∧ holds w' rhs ys cy ∧
           storage w' this = storage w this ∧ leaked w' = leaked w).
Proof.
  destruct w as [h v l]. intros Hne Hsep Ht Ho Hfit k r.
  destruct (decide (ys = [])) as [->|Hys].
  - (* nothing to copy *)
    subst k r. cbn [length]. rewrite Nat.min_0_r. cbn [take drop copy_assigned fst snd app].
    split; [|intros [?|?]; done].
    intros _ zs Hc. replace zs with (@nil T) by (cbv in Hc; congruence).
    pose proof Ht as (dt & Hvt & Hcapt & _). pose proof Ho as (dr & Hvr & _).
    cbn in Hvt, Hvr.
    apply holds_inv in Ht as [Hle [(Hvt' & -> & ->)|(a & Hvt' & Ha)]].
    + destruct (run_copy_assignment_clear h v l this rhs dt dr [] [] Hne Hvt Hvr)
        as (h' & E & Hh' & _); [by left|].
      rewrite Hh' in E by done.
      eexists. split; [exact E|].
      assert (dt = mkRawMemory nullptr 0) as -> by congruence.
      split; [apply holds_empty_default, lookup_insert_eq|].
      split; [eapply holds_transfer; [exact Ho|by rewrite lookup_insert_ne]|].
      split; [|done]. unfold storage. cbn. by rewrite lookup_insert_eq, Hvt.
    + assert (dt = mkRawMemory (Ptr a 0) cx) as -> by congruence.
      destruct (run_copy_assignment_clear h v l this rhs _ dr xs
                  (replicate (cx - length xs) None) Hne Hvt Hvr)
        as (h' & E & _ & Hh'); [right; by exists a|].
      rewrite (Hh' a eq_refl Ha) in E.
      eexists. split; [exact E|].
      split; [|split; [|split; [|done]]].
      * eapply (holds_intro _ _ _ _ _ _ _ []); [apply lookup_insert_eq..|done|cbn; lia|].
        cbn. rewrite <- replicate_add. f_equal. lia.
      * eapply (holds_frame _ _ _ _ _ _ _ _ _ a); [exact Ho|by rewrite lookup_insert_ne| |].
        -- by eapply separate_blocks.
        -- intros b Hb. by rewrite lookup_insert_ne.
      * unfold storage. cbn. by rewrite lookup_insert_eq, Hvt.
  - assert (length ys ≠ 0) as Hny by (by destruct ys).
    pose proof Ho as Ho'.
    apply holds_inv in Ho' as [Hler [(_ & -> & _)|(b & Hvr & Hb)]]; [done|].
    pose proof Ht as Ht'.
    apply holds_inv in Ht' as [Hle [(_ & _ & ->)|(a & Hvt & Ha)]]; [lia|].
    assert (a ≠ b) as Hab.
    { intros ->. eapply (separate_blocks _ _ _ _ _ _ _ _ Hsep Hvt eq_refl).
      unfold storage. cbn. by rewrite Hvr. }
    assert (∀ h1 v1, (∀ c, c ≠ a → h1 !! c = h !! c) → v1 !! rhs = v !! rhs →
              holds (mkWorld h1 v1 l) rhs ys cy) as Hrhs.
    { intros h1 v1 Hh1 Hv1. eapply (holds_frame _ _ _ _ _ _ _ _ _ a); [exact Ho|done| |done].
      by eapply separate_blocks. }
    assert (storage (mkWorld h v l) this = Some (Ptr a 0)) as Hst
      by (unfold storage; cbn; by rewrite Hvt).
    pose proof (copy_assigned_length (take k xs) (take k ys)) as Hrl. fold r in Hrl.
    destruct (decide (length ys < length xs)) as [Hlt|Hge].
    + (* the destination shrinks *)
      assert (k = length ys) as Hk by (subst k; lia).
      assert (length (take k xs) = length ys) as Htk by (rewrite length_take; lia).
      assert (drop k xs ≠ []) as Hdk.
      { intros Hnil. apply (f_equal length) in Hnil. rewrite length_drop in Hnil.
        cbn in Hnil. lia. }
      assert (take k ys = ys) as Hty by (apply take_ge; lia).
      assert (drop k ys = []) as Hdy by (apply drop_ge; lia).
      pose proof (run_copy_assignment_shrink h v l this rhs a b cx cy
                    (take k xs) (drop k xs) ys (replicate (cx - length xs) None)
                    (replicate (cy - length ys) None) Hne Hab) as E.
      rewrite take_drop in E. specialize (E Hvt Hvr).
      rewrite app_assoc, <- fmap_app, take_drop in E. specialize (E Ha Hb Htk Hdk Hfit).
      subst r. rewrite Hty, Hdy in *. clear Hty Hdy.
      destruct (copy_assigned (take k xs) ys) as [rs ok]. cbn [fst snd] in *.
      split.
      * intros -> zs Hc. replace zs with (@nil T) by (cbv in Hc; congruence).
        eexists. split; [exact E|]. rewrite app_nil_r.
        split; [|split; [|split; [|done]]].
        -- eapply holds_intro; [apply lookup_insert_eq..|lia|lia|].
           rewrite <- replicate_add. do 2 f_equal. rewrite length_drop. lia.
        -- apply Hrhs; [intros c Hc'|]; by rewrite lookup_insert_ne.
        -- unfold storage. cbn. by rewrite lookup_insert_eq.
      * intros [->|Hc]; [|cbv in Hc; congruence].
        eexists. split; [exact E|].
        split; [|split; [|done]].
        -- eapply holds_intro; [exact Hvt|apply lookup_insert_eq| | |].
           ++ rewrite length_app, length_drop. lia.
           ++ rewrite length_app, length_drop. lia.
           ++ rewrite fmap_app, <- app_assoc. do 3 f_equal.
              rewrite length_app, length_drop. lia.
        -- apply Hrhs; [intros c Hc'; by rewrite lookup_insert_ne|done].
    + (* the destination keeps its size or grows *)
      assert (k = length xs) as Hk by (subst k; lia).
      assert (take k xs = xs) as Htx by (apply take_ge; lia).
      assert (drop k xs = []) as Hdx by (apply drop_ge; lia).
      assert (length (take k ys) = length xs) as Htk by (rewrite length_take; lia).
      pose proof (run_copy_assignment_extend h v l this rhs a b cx cy
                    xs (take k ys) (drop k ys) (replicate (cx - length ys) None)
                    (replicate (cy - length ys) None) Hne Hab Hvt) as E.
      rewrite take_drop in E. specialize (E Hvr).
      rewrite <- replicate_add in E.
      replace (length (drop k ys) + (cx - length ys)) with (cx - length xs) in E
        by (rewrite length_drop; lia).
      specialize (E Ha).
      rewrite app_assoc, <- fmap_app, take_drop in E.
      specialize (E Hb (eq_sym Htk) Hfit).
      subst r. rewrite Htx, Hdx in *. clear Htx Hdx.
      destruct (copy_assigned xs (take k ys)) as [rs ok]. cbn [fst snd] in *.
      split.
      * intros -> zs Hc. rewrite Hc in E. pose proof (copies_length _ _ Hc) as Hzl.
        rewrite length_drop in Hzl.
        eexists. split; [exact E|].
        split; [|split; [|split; [|done]]].
        -- eapply holds_intro; [apply lookup_insert_eq..| | |].
           ++ rewrite length_app. lia.
           ++ rewrite length_app. lia.
           ++ rewrite fmap_app, <- app_assoc. do 3 f_equal.
              rewrite length_app. lia.
        -- apply Hrhs; [intros c Hc'|]; by rewrite lookup_insert_ne.
        -- unfold storage. cbn. by rewrite lookup_insert_eq.
      * intros Hfail. rewrite app_nil_r.
        assert (copy_assignment this rhs (mkWorld h v l)
                = Exn (mkWorld (<[a := (Some <$> rs) ++ replicate (cx - length xs) None]> h) v l)) as E'.
        { rewrite E. destruct ok; [|done]. destruct Hfail as [?|Hc]; [done|]. by rewrite Hc. }
        eexists. split; [exact E'|].
        split; [|split; [|done]].
        -- eapply holds_intro; [exact Hvt|apply lookup_insert_eq|lia|lia|].
           by rewrite Hrl.
        -- apply Hrhs; [intros c Hc'; by rewrite lookup_insert_ne|done].
Qed.

(** X12. Copy assignment when the source fits in the capacity of the
    destination ([rhs.size_ <= Capacity()]) works in the block the
    destination has: the first [k] elements, [k] the smaller of the two
    sizes, are copy-assigned, then the rest of the source is
    copy-constructed or the rest of the destination destroyed. On return
    the destination holds what these operations built, with its old
    capacity and block; the source is as before. When an assignment or a
    construction throws, the exception propagates and the destination is
    still a valid vector with its old size and capacity, but the elements
    assigned so far keep their new values: the state before the call is
    not restored. *)
Theorem copy_assignment_within_capacity (w : World T) (this rhs : nat)
    (xs ys : list T) (cx cy : nat) :
  this ≠ rhs →
  separate w this rhs →
  holds w this xs cx →
  holds w rhs ys cy →
  length ys ≤ cx →
  let k := length xs `min` length ys in
  let r := copy_assigned (take k xs) (take k ys) in
  (r.2 = true → ∀ zs, copies (drop k ys) = Some zs →
     ∃ w', copy_assignment this rhs w = Ok tt w' ∧
           holds w' this (r.1 ++ zs) cx ∧ holds w' rhs ys cy ∧
           storage w' this = storage w this ∧ leaked w' = leaked w) ∧
  (r.2 = false ∨ copies (drop k ys) = None →
     ∃ w', copy_assignment this rhs w = Exn w' ∧
           holds w' this (r.1 ++ drop k xs) cx ∧ holds w' rhs ys cy ∧
           storage w' this = storage w this ∧ leaked w' = leaked w).
Proof. apply holds_copy_assignment_fits. Qed.

(** ** One append, for any element type *)

(** X18. [EmplaceBack] whose constructor call builds [x]. When the vector
    is not full the element is built in the block the vector has: the
    other elements stay where they are, and the reference returned is the
    address [begin() + size]. When the vector is full the elements are
    transferred as the traits select into a block of the doubled capacity
    (1 for a vector without capacity), the old block is released, and the
    reference returned is the address of the new last element in the new
    block. *)
Theorem EmplaceBack_spec (w : World T) (this : nat) (xs : list T) (cap : nat) (x : T) :
  holds w this xs cap →
  (length xs < cap →
     ∃ b w', begin_ this w = Ok b w ∧
             EmplaceBack this (Some x) w = Ok (b +ₚ length xs) w' ∧
             holds w' this (xs ++ [x]) cap ∧
             load (b +ₚ length xs) w' = Ok x w' ∧
             storage w' this = storage w this ∧ leaked w' = leaked w) ∧
  (length xs = cap → ∀ ys, migrated xs = Some ys →
     ∃ p w', EmplaceBack this (Some x) w = Ok p w' ∧
             holds w' this (ys ++ [x]) (grown cap) ∧
             (∃ b', begin_ this w' = Ok b' w' ∧ p = b' +ₚ length xs) ∧
             load p w' = Ok x w' ∧
             ¬ allocated w p ∧
             (∀ q, storage w this = Some q → ¬ allocated w' q) ∧
             leaked w' = leaked w).
Proof.
  destruct w as [h v l]. intros Hh.
  apply holds_inv in Hh as [Hle [(Hv & -> & ->)|(a & Hv & Ha)]].
  - split; [cbn; lia|]. intros _ ys Hm.
    replace ys with (@nil T)
      by (unfold migrated, moves, copies in Hm; destruct move_selected; cbv in Hm; congruence).
    eexists _, _. split; [by apply run_EmplaceBack_first|].
    split; [|split; [|split; [|split; [|split; [|done]]]]].
    + eapply (holds_intro _ _ _ _ _ _ _ [x]); [apply lookup_insert_eq..|done|done|done].
    + eexists. split; [eapply run_begin; apply lookup_insert_eq|done].
    + unfold load. cbn. by rewrite lookup_insert_eq.
    + cbn. rewrite fresh_block. by intros [? ?].
    + intros q. unfold storage. cbn. rewrite Hv. cbn. intros [= <-] Hf. exact Hf.
  - split.
    + intros Hlt. exists (Ptr a 0). eexists.
      split; [exact (run_begin _ _ _ _ _ _ Hv)|].
      split; [by eapply run_EmplaceBack_in_place|].
      split; [|split; [|split; [|done]]].
      * eapply holds_intro; [apply lookup_insert_eq..| | |].
        -- rewrite length_app. cbn. lia.
        -- rewrite length_app. cbn. lia.
        -- rewrite length_app. cbn. do 2 f_equal. lia.
      * unfold load. cbn. rewrite lookup_insert_eq. cbn.
        rewrite lookup_app_l by (rewrite length_fmap, length_app; cbn; lia).
        rewrite list_lookup_fmap, lookup_app_r by done.
        by rewrite Nat.sub_diag.
      * unfold storage. cbn. by rewrite lookup_insert_eq, Hv.
    + intros <- ys Hm. pose proof (migrated_length _ _ Hm) as Hys.
      rewrite Nat.sub_diag, app_nil_r in Ha.
      pose proof (grown_gt (length xs)) as Hg.
      pose proof (fresh_block_ne _ _ _ Ha) as Hfb.
      eexists _, _. split; [by eapply run_EmplaceBack_grow|].
      split; [|split; [|split; [|split; [|split; [|done]]]]].
      * eapply holds_intro; [apply lookup_insert_eq..| | |].
        -- rewrite length_app. cbn. lia.
        -- rewrite length_app. cbn. lia.
        -- rewrite length_app, fmap_app, <- app_assoc. cbn. do 3 f_equal. lia.
      * eexists. split; [eapply run_begin; apply lookup_insert_eq|done].
      * unfold load. cbn. rewrite lookup_insert_eq. cbn.
        rewrite lookup_app_r by (rewrite length_fmap; lia).
        by rewrite length_fmap, Hys, Nat.sub_diag.
      * cbn. rewrite fresh_block. by intros [? ?].
      * intros q. unfold storage. cbn. rewrite Hv. cbn. intros [= <-]. cbn.
        rewrite lookup_insert_ne, lookup_delete_eq by done. by intros [? ?].
Qed.

(** X19. The leak of a failed growth, for every vector. For a type whose
    elements are copied into the new block, [EmplaceBack] on a full vector
    during which a copy throws propagates the exception with the vector,
    its block and its elements exactly as before; but the new element,
    already built in the new block, is never destroyed: its storage is
    released while it is alive. *)
Theorem EmplaceBack_failed_copy_leaks_new_element (w : World T) (this : nat)
    (xs : list T) (x : T) :
  move_selected = false →
  holds w this xs (length xs) →
  copies xs = None →
  ∃ w', EmplaceBack this (Some x) w = Exn w' ∧
        heap w' = heap w ∧ vecs w' = vecs w ∧
        holds w' this xs (length xs) ∧
        leaked w' = leaked w ++ [x].
Proof.
  destruct w as [h v l]. intros Hsel Hh Hc.
  pose proof Hh as Hh'.
  apply holds_inv in Hh' as [Hle [(_ & -> & _)|(a & Hv & Ha)]]; [done|].
  rewrite Nat.sub_diag, app_nil_r in Ha.
  eexists. split; [by eapply run_EmplaceBack_migration_throws|].
  split; [done|]. split; [done|]. split; [|done].
  destruct Hh as (m & Hm & Hrest). by exists m.
Qed.

(** X20. When the constructor of the new element throws, [Emplace] at any
    position from [begin()] to [end()] propagates the exception and leaves
    the world exactly as before, whether the vector was full or not: no
    element was moved, a block allocated for the growth is released, and
    nothing is leaked. The same holds for [Insert] when the copy of the
    value throws. *)
Theorem Emplace_failed_construction_changes_nothing (w : World T) (this : nat)
    (xs1 xs2 : list T) (cap : nat) :
  holds w this (xs1 ++ xs2) cap →
  ∃ b, begin_ this w = Ok b w ∧
       Emplace this (b +ₚ length xs1) None w = Exn w ∧
       (∀ x, copy_ctor x = None → Insert this (b +ₚ length xs1) x w = Exn w).
Proof.
  destruct w as [h v l]. intros Hh.
  assert (∃ b, begin_ this (mkWorld h v l) = Ok b (mkWorld h v l) ∧
               Emplace this (b +ₚ length xs1) None (mkWorld h v l) = Exn (mkWorld h v l))
    as (b & Hb & E).
  { pose proof (holds_size_le _ _ _ _ Hh) as Hle.
    assert (∀ m n, v !! this = Some (mkVector m n) → n ≤ capacity_ m →
              EmplaceBack this None (mkWorld h v l) = Exn (mkWorld h v l)) as Hback.
    { intros m n Hv Hn. destruct (decide (capacity_ m = n)).
      - by eapply run_EmplaceBack_ctor_throws_full.
      - eapply run_EmplaceBack_ctor_throws_in_place; [exact Hv|lia]. }
    apply holds_inv in Hh as [_ [(Hv & Hnil & ->)|(a & Hv & Ha)]].
    - apply app_eq_nil in Hnil as [-> ->].
      exists nullptr. split; [exact (run_begin _ _ _ _ _ _ Hv)|].
      unfold Emplace. mstep run_end; [|exact Hv]. mnext. cbn [ptr_add].
      rewrite decide_True by done. eapply Hback; [exact Hv|done].
    - exists (Ptr a 0). split; [exact (run_begin _ _ _ _ _ _ Hv)|].
      cbn [ptr_add Nat.add].
      destruct (decide (xs2 = [])) as [->|Hxs2].
      + rewrite app_nil_r in *.
        unfold Emplace. mstep run_end; [|exact Hv]. mnext. cbn [ptr_add Nat.add].
        rewrite decide_True by done. eapply Hback; [exact Hv|done].
      + assert (length xs1 < length (xs1 ++ xs2)) as Hlt.
        { rewrite length_app. destruct xs2; [done|cbn; lia]. }
        rewrite (run_Emplace_start _ _ _ _ _ _ _ _ _ Hv Hlt).
        destruct (decide (length (xs1 ++ xs2) = cap)) as [Hfull|Hroom].
        * fold (grown (length (xs1 ++ xs2))).
          pose proof (grown_gt (length (xs1 ++ xs2))) as Hg.
          unfold with_RawMemory, on_exception.
          mstep run_RawMemory_ctor; [|lia].
          cbn [placement_new]. mnext.
          unfold RawMemory_dtor.
          mstep run_Deallocate; [|apply lookup_insert_eq].
          rewrite live_replicate_None. mnext.
          rewrite delete_insert_id by apply fresh_block. by rewrite app_nil_r.
        * reflexivity. }
  exists b. split; [exact Hb|]. split; [exact E|].
  intros x Hx. unfold Insert. by rewrite Hx.
Qed.

(** ** Calls outside the precondition, and other vectors *)

(** X23. [Erase(end())] is never valid, whatever the vector holds: on a
    vector without storage it destroys through a null pointer, and
    otherwise either the assertion of [data_[index + 1]] fails or the
    range handed to [std::move] starts after its end. *)
Theorem Erase_at_end_is_undefined (w : World T) (this : nat) (xs : list T) (cap : nat) :
  holds w this xs cap →
  ∃ b, begin_ this w = Ok b w ∧ Erase this (b +ₚ length xs) w = Fault.
Proof.
  destruct w as [h v l]. intros Hh.
  apply holds_inv in Hh as [Hle [(Hv & -> & ->)|(a & Hv & Ha)]].
  - exists nullptr. split; [exact (run_begin _ _ _ _ _ _ Hv)|].
    unfold Erase. mstep run_end; [|exact Hv]. mnext. cbn [ptr_add ptr_sub].
    rewrite decide_True by done. unfold PopBack.
    mstep run_end; [|exact Hv]. reflexivity.
  - exists (Ptr a 0). split; [exact (run_begin _ _ _ _ _ _ Hv)|].
    unfold Erase. mstep run_end; [|exact Hv]. mnext. cbn [ptr_add ptr_sub Nat.add].
    rewrite (decide_False (P := Ptr a (length xs) = _)).
    2:{ destruct (decide (1 ≤ length xs)); [intros [= ?]; lia|done]. }
    mstep run_begin; [|exact Hv]. mnext.
    mstep run_distance; [|lia]. rewrite Nat.sub_0_r.
    mstep run_get_data; [|exact Hv].
    destruct (decide (length xs + 1 < cap)) as [Hroom|Hfull].
    + mstep run_RawMemory_index; [|done].
      mstep run_end; [|exact Hv].
      mstep run_RawMemory_index; [|cbn; lia].
      cbn [ptr_add buffer_ Nat.add]. unfold std_move, distance.
      rewrite decide_False by lia. reflexivity.
    + unfold RawMemory_index. cbn [capacity_].
      rewrite bool_decide_eq_false_2 by done. reflexivity.
Qed.

Lemma others_lookup h v l this xs cap b :
  holds (mkWorld h v l) this xs cap →
  storage (mkWorld h v l) this ≠ Some (Ptr b 0) →
  others (mkWorld h v l) this !! b = h !! b.
Proof.
  intros Hh Hst.
  apply holds_inv in Hh as [_ [(Hv & _ & _)|(a & Hv & _)]];
    unfold others, storage in *; cbn in *; rewrite Hv in *; cbn in *; [done|].
  rewrite lookup_delete_ne; [done|]. congruence.
Qed.

Lemma framed_other (w w' : World T) this other xs cap xs' cap' ys cy :
  holds w this xs cap →
  holds w' this xs' cap' →
  framed w w' this →
  this ≠ other →
  separate w this other →
  holds w other ys cy →
  holds w' other ys cy ∧ separate w' this other.
Proof.
  destruct w as [h v l], w' as [h' v' l']. intros Ht Ht' [Hoth Hvec] Hne Hsep Ho.
  cbn in Hvec.
  assert (v' !! other = v !! other) as Hvo by (apply Hvec; done).
  pose proof Ho as Ho'.
  apply holds_inv in Ho' as [Hle [(Hv & -> & ->)|(b & Hv & Hb)]].
  { split.
    - destruct Ho as (m & Hm & Hrest). cbn in Hm. rewrite Hv in Hm.
      injection Hm as <-. eexists. cbn. rewrite Hvo. split; [exact Hv|]. done.
    - intros p _. unfold storage. cbn. rewrite Hvo, Hv. cbn. congruence. }
  assert (storage (mkWorld h v l) this ≠ Some (Ptr b 0)) as Hst.
  { intros Hst. assert (Ptr b 0 = nullptr) as Hp; [|done].
    apply Hsep; [done|]. unfold storage. cbn. by rewrite Hv. }
  pose proof (others_lookup _ _ _ _ _ _ _ Ht Hst) as Hb1.
  rewrite <- Hoth, Hb in Hb1.
  assert (storage (mkWorld h' v' l') this ≠ Some (Ptr b 0) ∧ h' !! b = h !! b) as [Hst' Hb'].
  { apply holds_inv in Ht' as [_ [(Hv' & _ & _)|(a' & Hv' & _)]];
      unfold others, storage in *; cbn in *; rewrite Hv' in *; cbn in *.
    - split; [done|]. by rewrite Hb.
    - destruct (decide (a' = b)) as [->|Hab].
      + by rewrite lookup_delete_eq in Hb1.
      + rewrite lookup_delete_ne in Hb1 by done. split; [congruence|]. by rewrite Hb. }
  split.
  - eapply holds_intro; [by rewrite Hvo|by rewrite Hb'|done|done|done].
  - intros p Hp1 Hp2. exfalso. apply Hst'. rewrite Hp1.
    unfold storage in Hp2. cbn in Hp2. rewrite Hvo, Hv in Hp2. cbn in Hp2. congruence.
Qed.

(** ** A growth whose moves throw *)

Lemma moved_until_throw_length (xs : list T) : length (moved_until_throw xs) = length xs.
Proof.
  induction xs as [|x xs IH]; [done|]. cbn. destruct (move_ctor x).1; by rewrite ?IH.
Qed.

Lemma run_uninitialized_move_n_throws xs : ∀ h v l a i spre spost b j pre post,
  a ≠ b →
  h !! a = Some (spre ++ (Some <$> xs) ++ spost) →
  i = length spre →
  h !! b = Some (pre ++ replicate (length xs) None ++ post) →
  j = length pre →
  moves xs = None →
  uninitialized_move_n (Ptr a i) (length xs) (Ptr b j) (mkWorld h v l)
  = Exn (mkWorld (<[a := spre ++ (Some <$> moved_until_throw xs) ++ spost]> h) v l).
Proof.
  induction xs as [|x xs IH]; intros h v l a i spre spost b j pre post Hab Ea -> Eb -> Hc;
    [done|].
  rewrite moves_cons in Hc.
  change (h !! a = Some (spre ++ Some x :: ((Some <$> xs) ++ spost))) in Ea.
  change (h !! b = Some (pre ++ None :: (replicate (length xs) None ++ post))) in Eb.
  cbn [uninitialized_move_n length moved_until_throw]. unfold move_construct_at.
  rewrite !mbind_unfold, (run_load _ _ _ _ _ _ _ _ Ea eq_refl).
  destruct (move_ctor x) as [[y|] x'] eqn:Ey; cbn [fst snd] in *.
  - destruct (moves xs) as [ys'|] eqn:Eys; [done|].
    rewrite !mbind_unfold. cbn [placement_new].
    rewrite (run_store _ _ _ _ _ _ _ _ _ Ea eq_refl).
    erewrite run_construct_at; [|rewrite lookup_insert_ne by done; exact Eb|done].
    cbn [ptr_add].
    replace (length spre + 1) with (length (spre ++ [Some x'])) by (rewrite length_app; reflexivity).
    replace (length pre + 1) with (length (pre ++ [Some y])) by (rewrite length_app; reflexivity).
    erewrite run_on_exception_Exn; [reflexivity| |].
    + rewrite (IH _ _ _ a _ (spre ++ [Some x']) spost b _ (pre ++ [Some y]) post);
        [reflexivity|done|hlookup|done|hlookup|done|done].
    + erewrite (run_destroy_at _ _ _ b _ pre y); [|hlookup|done].
      heap_eq.
  - rewrite !mbind_unfold.
    rewrite (run_store _ _ _ _ _ _ _ _ _ Ea eq_refl). reflexivity.
Qed.

Lemma run_Reserve_move_throws h v l this a xs cap capacity :
  move_selected = true →
  v !! this = Some (mkVector (mkRawMemory (Ptr a 0) cap) (length xs)) →
  h !! a = Some ((Some <$> xs) ++ replicate (cap - length xs) None) →
  length xs ≤ cap →
  cap < capacity →
  moves xs = None →
  Reserve this capacity (mkWorld h v l)
  = Exn (mkWorld (<[a := (Some <$> moved_until_throw xs) ++ replicate (cap - length xs) None]> h)
                 v l).
Proof.
  intros Hsel Hv Ha Hle Hlt Hc. unfold Reserve.
  pose proof (fresh_block_ne _ _ _ Ha) as Hne.
  mstep run_Capacity; [|exact Hv].
  rewrite (decide_False (P := capacity ≤ cap)) by lia.
  unfold with_RawMemory, on_exception.
  mstep run_RawMemory_ctor; [|lia].
  mstep run_begin; [|exact Hv].
  mstep run_get_size; [|exact Hv].
  assert (replicate capacity (@None T)
          = replicate (length xs) None ++ replicate (capacity - length xs) None) as ->.
  { rewrite <- replicate_add. f_equal. lia. }
  unfold migrate_n. fold move_selected. rewrite Hsel.
  mstep (run_uninitialized_move_n_throws xs _ _ _ a 0 [] _ (fresh (dom h)) 0 []);
    [|done|hlookup|done|hlookup|done|done].
  unfold RawMemory_dtor.
  mstep run_Deallocate; [|hlookup].
  rewrite omap_app, !live_replicate_None, !app_nil_r.
  mnext. heap_eq. by rewrite fresh_block.
Qed.

(** X26. [Reserve] has no strong guarantee when it moves. For a type
    that is moved into the new block although its move constructor may
    throw (a type that cannot be copied), a [Reserve] beyond the capacity,
    to a count whose byte count does not wrap, during which a move throws
    propagates the exception; the vector keeps its block, size and
    capacity and nothing is leaked, but its elements are not the ones from
    before the call: those already moved are left in their moved-from
    state. *)
Theorem Reserve_failed_move_loses_elements (w : World T) (this : nat)
    (xs : list T) (cap n : nat) :
  move_selected = true →
  holds w this xs cap →
  cap < n →
  fits n →
  moves xs = None →
  ∃ w', Reserve this n w = Exn w' ∧
        holds w' this (moved_until_throw xs) cap ∧
        storage w' this = storage w this ∧
        framed w w' this ∧
        leaked w' = leaked w.
Proof.
  destruct w as [h v l]. intros Hsel Hh Hlt _ Hc.
  apply holds_inv in Hh as [Hle [(_ & -> & _)|(a & Hv & Ha)]]; [done|].
  eexists. split; [by eapply run_Reserve_move_throws|].
  pose proof (moved_until_throw_length xs) as Hlen.
  split; [|split; [|split; [|done]]].
  - eapply holds_intro; [exact Hv|apply lookup_insert_eq|lia|lia|by rewrite Hlen].
  - done.
  - split.
    + unfold others, storage. cbn. rewrite Hv. cbn. by rewrite delete_insert_eq.
    + done.
Qed.


End Execution.

(** * Element types that never throw *)

Section Regular_elements.
Context {T : Type} `{Regular T}.

Lemma regular_copies (xs : list T) : copies xs = Some xs.
Proof.
  induction xs as [|x xs IH]; [done|].
  rewrite copies_cons, copy_ctor_regular, IH. done.
Qed.

Lemma regular_moves (xs : list T) : moves xs = Some xs.
Proof.
  induction xs as [|x xs IH]; [done|].
  rewrite moves_cons, move_ctor_regular, IH. done.
Qed.

Lemma regular_migrated (xs : list T) : migrated xs = Some xs.
Proof.
  unfold migrated. destruct move_selected; [apply regular_moves|apply regular_copies].
Qed.

Lemma holds_append w this (xs : list T) cap (a : append) :
  holds w this xs cap →
  ∃ w', run_append this a w = Ok tt w' ∧
        holds w' this (xs ++ [appended a])
              (if decide (length xs = cap) then grown cap else cap) ∧
        leaked w' = leaked w.
Proof.
  intros Hh.
  destruct (holds_EmplaceBack _ _ _ _ (appended a) _ Hh (regular_migrated xs))
    as (p & w' & E & Hh' & Hl).
  exists w'. split; [|split; [by destruct (decide (length xs = cap))|done]].
  destruct a as [x|x|x]; cbn [run_append appended] in *; unfold PushBack, PushBack_move;
    rewrite ?copy_ctor_regular, ?move_ctor_regular, mbind_unfold, E; done.
Qed.

Lemma append_capacity_step n c :
  append_capacity n c → n ≤ c →
  append_capacity (S n) (if decide (n = c) then grown c else c).
Proof.
  unfold append_capacity, grown. intros Hc Hle.
  rewrite (decide_False (P := S n = 0)) by done.
  destruct (decide (n = 0)) as [->|Hn].
  - subst c. rewrite !decide_True by done.
    exists 0. split; [done|]. split; [done|]. done.
  - destruct Hc as (k & -> & _ & Hmin).
    assert (2 ^ k ≠ 0) by (apply Nat.pow_nonzero; lia).
    destruct (decide (n = 2 ^ k)) as [->|Hne].
    + rewrite decide_False by done.
      exists (S k). split; [rewrite Nat.pow_succ_r'; lia|]. split; [lia|].
      intros j Hj.
      assert (k < j) by (apply (Nat.pow_lt_mono_r_iff 2); lia).
      replace (2 ^ k * 2) with (2 ^ S k) by (rewrite Nat.pow_succ_r'; lia).
      apply Nat.pow_le_mono_r; lia.
    + exists k. split; [done|]. split; [lia|].
      intros j Hj. apply Hmin. lia.
Qed.

Lemma holds_push_all (apps : list append) : ∀ w this (xs : list T) cap,
  holds w this xs cap →
  append_capacity (length xs) cap →
  ∃ w' cap',
    push_all this apps w = Ok tt w' ∧
    holds w' this (xs ++ (appended <$> apps)) cap' ∧
    append_capacity (length (xs ++ (appended <$> apps))) cap' ∧
    leaked w' = leaked w.
Proof.
  induction apps as [|a apps IH]; intros w this xs cap Hh Hc.
  - exists w, cap. cbn [fmap list_fmap]. rewrite app_nil_r. done.
  - destruct (holds_append _ _ _ _ a Hh) as (w1 & E1 & Hh1 & Hl1).
    pose proof (append_capacity_step _ _ Hc (holds_size_le _ _ _ _ Hh)) as Hc1.
    replace (S (length xs)) with (length (xs ++ [appended a])) in Hc1
      by (rewrite length_app; cbn; lia).
    destruct (IH _ _ _ _ Hh1 Hc1) as (w' & cap' & E & Hh' & Hc' & Hl').
    exists w', cap'. cbn [push_all fmap list_fmap]. rewrite mbind_unfold, E1.
    rewrite <- app_assoc in Hh', Hc'. split; [done|]. split; [done|]. split; [done|].
    congruence.
Qed.

(** C3. Appending [N] elements to a default-constructed vector, each by
    [PushBack] or [EmplaceBack], returns; afterwards [Size()] is [N],
    [Capacity()] is [0] when [N = 0] and otherwise the smallest of 1, 2, 4,
    ... that is at least [N], and the vector holds the appended values in
    the order of the appends. *)
Theorem appends_size_capacity_order (w : World T) (this : nat) (apps : list append) :
  ∃ w' cap,
    (Vector_default this;; push_all this apps) w = Ok tt w' ∧
    Size this w' = Ok (length apps) w' ∧
    Capacity this w' = Ok cap w' ∧
    append_capacity (length apps) cap ∧
    holds w' this (appended <$> apps) cap.
Proof.
  destruct (holds_Vector_default w this) as (w0 & E0 & Hh0 & _).
  destruct (holds_push_all apps w0 this [] 0 Hh0) as (w' & cap & E & Hh & Hc & _); [done|].
  exists w', cap. rewrite mbind_unfold, E0. cbn [app] in *.
  rewrite length_fmap in Hc.
  split; [done|]. split; [|split; [by eapply holds_Capacity|done]].
  rewrite <- (length_fmap appended). by eapply holds_Size.
Qed.

(** ** Shifting elements by assignment *)

Lemma run_move_assign_at_up h v l a i pre s d post :
  h !! a = Some (pre ++ Some s :: Some d :: post) →
  i = length pre →
  move_assign_at (Ptr a (i + 1)) (Ptr a i) (mkWorld h v l)
  = Ok tt (mkWorld (<[a := pre ++ Some (move_assign d s).1.2 :: Some s :: post]> h) v l).
Proof.
  intros Ha ->. unfold move_assign_at.
  destruct (move_assign_regular d s) as [Hds Hok].
  mstep (run_load _ _ _ a _ (pre ++ [Some s]) d post);
    [|by rewrite <- app_assoc|by rewrite length_app].
  mstep run_load; [|exact Ha|done].
  mstep run_store; [|exact Ha|done].
  mstep (run_store _ _ _ a _ (pre ++ [Some (move_assign d s).1.2]) d _ post);
    [|rewrite lookup_insert_eq; by rewrite <- app_assoc|by rewrite length_app].
  rewrite Hds, Hok. mnext. heap_eq.
Qed.

Lemma run_move_assign_at_down h v l a i pre s d post :
  h !! a = Some (pre ++ Some d :: Some s :: post) →
  i = length pre →
  move_assign_at (Ptr a i) (Ptr a (i + 1)) (mkWorld h v l)
  = Ok tt (mkWorld (<[a := pre ++ Some s :: Some (move_assign d s).1.2 :: post]> h) v l).
Proof.
  intros Ha ->. unfold move_assign_at.
  destruct (move_assign_regular d s) as [Hds Hok].
  mstep run_load; [|exact Ha|done].
  mstep (run_load _ _ _ a _ (pre ++ [Some d]) s post);
    [|by rewrite <- app_assoc|by rewrite length_app].
  mstep (run_store _ _ _ a _ (pre ++ [Some d]) s _ post);
    [|by rewrite <- app_assoc|by rewrite length_app].
  mstep run_store; [|rewrite lookup_insert_eq; by rewrite <- app_assoc|done].
  rewrite Hds, Hok. mnext. heap_eq.
Qed.

(** [std::move_backward] over [ys], into the cells one place up; the cell
    above [ys] holds a live object, which is assigned over. *)
Lemma run_move_backward_n ys : ∀ h v l a pre junk post,
  h !! a = Some (pre ++ (Some <$> ys) ++ Some junk :: post) →
  ∃ junk',
    move_backward_n (length ys) (Ptr a (length pre + length ys))
                    (Ptr a (length pre + length ys + 1)) (mkWorld h v l)
    = Ok tt (mkWorld (<[a := pre ++ Some junk' :: (Some <$> ys) ++ post]> h) v l).
Proof.
  induction ys as [|y ys IH] using rev_ind; intros h v l a pre junk post Ha.
  - exists junk. cbn. by rewrite insert_id.
  - rewrite fmap_app, <- app_assoc in Ha. cbn in Ha.
    rewrite length_app. cbn [length].
    replace (length ys + 1) with (S (length ys)) by lia.
    cbn [move_backward_n ptr_sub].
    rewrite !decide_True by lia.
    replace (length pre + S (length ys) + 1 - 1) with (length pre + length ys + 1) by lia.
    replace (length pre + S (length ys) - 1) with (length pre + length ys) by lia.
    rewrite (app_assoc pre) in Ha.
    destruct (IH (<[a := (pre ++ (Some <$> ys)) ++ Some (move_assign junk y).1.2
                          :: Some y :: post]> h) v l a pre (move_assign junk y).1.2
                 (Some y :: post)) as [junk' E].
    { rewrite lookup_insert_eq. by rewrite <- app_assoc. }
    exists junk'.
    mstep run_move_assign_at_up; [|exact Ha|by rewrite length_app, length_fmap].
    rewrite E. rewrite fmap_app. heap_eq.
Qed.

(** [std::move] over [ys], into the cells one place down; the cell below
    [ys] holds a live object, which is assigned over. *)
Lemma run_move_n ys : ∀ h v l a pre z post,
  h !! a = Some (pre ++ Some z :: (Some <$> ys) ++ post) →
  ∃ z',
    move_n (Ptr a (length pre + 1)) (length ys) (Ptr a (length pre)) (mkWorld h v l)
    = Ok tt (mkWorld (<[a := pre ++ (Some <$> ys) ++ Some z' :: post]> h) v l).
Proof.
  induction ys as [|y ys IH]; intros h v l a pre z post Ha.
  - exists z. cbn. by rewrite insert_id.
  - cbn in Ha. cbn [length move_n ptr_add].
    destruct (IH (<[a := pre ++ Some y :: Some (move_assign z y).1.2
                          :: (Some <$> ys) ++ post]> h) v l a (pre ++ [Some y])
                 (move_assign z y).1.2 post) as [z' E].
    { rewrite lookup_insert_eq. by rewrite <- app_assoc. }
    exists z'.
    mstep run_move_assign_at_down; [|exact Ha|done].
    rewrite length_app in E. cbn [length] in E. rewrite E. heap_eq.
Qed.

Lemma run_move_construct_at_up h v l a i pre z post :
  h !! a = Some (pre ++ Some z :: None :: post) →
  i = length pre →
  move_construct_at (Ptr a (i + 1)) (Ptr a i) (mkWorld h v l)
  = Ok tt (mkWorld (<[a := pre ++ Some (move_ctor z).2 :: Some z :: post]> h) v l).
Proof.
  intros Ha ->. unfold move_construct_at.
  mstep run_load; [|exact Ha|done].
  mstep run_store; [|exact Ha|done].
  rewrite move_ctor_regular. cbn [placement_new].
  mstep (run_construct_at _ _ _ a _ (pre ++ [Some (move_ctor z).2]) z post);
    [|rewrite lookup_insert_eq; by rewrite <- app_assoc|by rewrite length_app].
  heap_eq.
Qed.

Lemma run_move_assign_from h v l a i pre d x post :
  h !! a = Some (pre ++ Some d :: post) →
  i = length pre →
  move_assign_from (Ptr a i) x (mkWorld h v l)
  = Ok tt (mkWorld (<[a := pre ++ Some x :: post]> h) v l).
Proof.
  intros Ha ->. unfold move_assign_from.
  destruct (move_assign_regular d x) as [Hds Hok].
  mstep run_load; [|exact Ha|done].
  mstep run_store; [|exact Ha|done].
  rewrite Hds, Hok. by mnext.
Qed.

(** *** [Emplace] before the end *)

Lemma run_Emplace_in_place h v l this a xs1 xs2 z cap x :
  let n := length (xs1 ++ xs2 ++ [z]) in
  v !! this = Some (mkVector (mkRawMemory (Ptr a 0) cap) n) →
  h !! a = Some ((Some <$> xs1 ++ xs2 ++ [z]) ++ replicate (cap - n) None) →
  n < cap →
  Emplace this (Ptr a (length xs1)) (Some x) (mkWorld h v l)
  = Ok (Ptr a (length xs1))
       (mkWorld (<[a := (Some <$> xs1 ++ x :: xs2 ++ [z]) ++ replicate (cap - n - 1) None]> h)
                (<[this := mkVector (mkRawMemory (Ptr a 0) cap) (n + 1)]> v)
                l).
Proof.
  intros n Hv Ha Hlt.
  assert (n = length xs1 + length xs2 + 1) as Hn
    by (unfold n; rewrite !length_app; cbn; lia).
  erewrite run_Emplace_start; [|exact Hv|lia]. fold n.
  rewrite (decide_False (P := n = cap)) by lia.
  cbn [from_option].
  mstep run_get_data; [|exact Hv].
  mstep run_RawMemory_index; [|cbn; lia].
  mstep run_RawMemory_plus; [|cbn; lia].
  cbn [ptr_add ptr_sub Nat.add].
  rewrite (replicate_split_at (cap - n) 0) in Ha by lia. cbn [replicate app] in Ha.
  rewrite !fmap_app, <- !app_assoc in Ha. cbn [fmap list_fmap app] in Ha.
  rewrite (app_assoc (Some <$> xs1)), <- fmap_app in Ha.
  replace (Ptr a n) with (Ptr a (n - 1 + 1)) at 1 by (f_equal; lia).
  mstep run_move_construct_at_up; [|exact Ha|rewrite length_fmap, length_app; lia].
  mstep run_end; [|exact Hv].
  mstep run_end; [|exact Hv]. mnext. cbn [ptr_add ptr_sub Nat.add].
  unfold move_backward. rewrite decide_True by lia.
  mstep run_distance; [|lia].
  replace (n - 1 - length xs1) with (length xs2) by lia.
  rewrite fmap_app, <- app_assoc.
  destruct (run_move_backward_n xs2
              (<[a := (Some <$> xs1) ++ (Some <$> xs2) ++ Some (move_ctor z).2 :: Some z
                      :: replicate (cap - n - 0 - 1) None]> h) v l a (Some <$> xs1)
              (move_ctor z).2 (Some z :: replicate (cap - n - 0 - 1) None)) as [junk E].
  { apply lookup_insert_eq. }
  rewrite length_fmap in E.
  replace (n - 1) with (length xs1 + length xs2) by lia.
  replace (Ptr a n) with (Ptr a (length xs1 + length xs2 + 1)) by (f_equal; lia).
  mstep E.
  mstep run_RawMemory_index; [|cbn; lia].
  cbn [ptr_add Nat.add].
  mstep run_move_assign_from; [|apply lookup_insert_eq|by rewrite length_fmap].
  mstep run_get_size; [|exact Hv].
  mstep run_set_size; [|exact Hv].
  mstep run_get_data; [|apply lookup_insert_eq].
  rewrite run_RawMemory_index by (cbn; lia).
  cbn [buffer_ ptr_add Nat.add].
  rewrite !fmap_app. cbn [fmap list_fmap]. rewrite !fmap_app. cbn [fmap list_fmap].
  replace (cap - n - 0 - 1) with (cap - n - 1) by lia.
  heap_eq. by rewrite <- app_assoc.
Qed.

Lemma moved_from_length (xs : list T) : length (moved_from xs) = length xs.
Proof. unfold moved_from. by rewrite length_fmap. Qed.

Lemma run_Emplace_grow h v l this a xs1 xs2 x :
  let n := length (xs1 ++ xs2) in
  v !! this = Some (mkVector (mkRawMemory (Ptr a 0) n) n) →
  h !! a = Some (Some <$> xs1 ++ xs2) →
  0 < length xs2 →
  Emplace this (Ptr a (length xs1)) (Some x) (mkWorld h v l)
  = Ok (Ptr (fresh (dom h)) (length xs1))
       (mkWorld (<[fresh (dom h) := (Some <$> xs1 ++ x :: xs2)
                      ++ replicate (grown n - n - 1) None]> (delete a h))
                (<[this := mkVector (mkRawMemory (Ptr (fresh (dom h)) 0) (grown n)) (n + 1)]> v)
                l).
Proof.
  intros n Hv Ha Hlt.
  pose proof (fresh_block_ne _ _ _ Ha) as Hne.
  pose proof (grown_gt n) as Hg.
  assert (n = length xs1 + length xs2) as Hn by (unfold n; by rewrite length_app).
  rewrite fmap_app in Ha.
  erewrite run_Emplace_start; [|exact Hv|lia]. fold n.
  rewrite (decide_True (P := n = n)) by done.
  fold (grown n). fold move_selected.
  unfold with_RawMemory.
  mstep run_RawMemory_ctor; [|lia].
  cbn [ptr_add Nat.add placement_new].
  rewrite (replicate_split_at (grown n) (length xs1)) by lia.
  unfold on_exception at 1.
  mstep run_construct_at; [|apply lookup_insert_eq|by rewrite length_replicate].
  hsimpl.
  replace (n - length xs1) with (length xs2) by lia.
  assert (grown n - length xs1 - 1 = length xs2 + (grown n - n - 1)) as -> by lia.
  rewrite replicate_add.
  set (cells' := (Some <$> xs1) ++ Some x :: (Some <$> xs2) ++ replicate (grown n - n - 1) None).
  assert (∃ left,
    length left = n ∧
    (if move_selected then
       uninitialized_move_n (Ptr a 0) (length xs1) (Ptr (fresh (dom h)) 0);;
       uninitialized_move_n (Ptr a (length xs1)) (length xs2)
                            (Ptr (fresh (dom h)) (length xs1 + 1))
     else
       on_exception
         (uninitialized_copy_n (Ptr a 0) (length xs1) (Ptr (fresh (dom h)) 0))
         (destroy_at (Ptr (fresh (dom h)) (length xs1)));;
       on_exception
         (uninitialized_copy_n (Ptr a (length xs1)) (length xs2)
                               (Ptr (fresh (dom h)) (length xs1 + 1)))
         (destroy_n (Ptr (fresh (dom h)) 0) (length xs1 + 1)))
      (mkWorld (<[fresh (dom h) := replicate (length xs1) None ++ Some x
                    :: replicate (length xs2) None ++ replicate (grown n - n - 1) None]> h) v l)
    = Ok tt (mkWorld (<[fresh (dom h) := cells']> (<[a := Some <$> left]> h)) v l))
    as (left & Hleft & E).
  { destruct move_selected.
    - exists (moved_from xs1 ++ moved_from xs2). split.
      { rewrite length_app, !moved_from_length. lia. }
      mstep (run_uninitialized_move_n xs1 xs1 _ _ _ a 0 [] _ (fresh (dom h)) 0 []);
        [|done|hlookup|done|hlookup|done|apply regular_moves].
      hsimpl.
      erewrite (run_uninitialized_move_n xs2 xs2 _ _ _ a (length xs1) (Some <$> moved_from xs1) []
                 (fresh (dom h)) (length xs1 + 1) ((Some <$> xs1) ++ [Some x]));
        [|done|hlookup|by rewrite length_fmap, moved_from_length|hlookup
         |rewrite length_app, length_fmap; reflexivity|apply regular_moves].
      unfold cells'. rewrite fmap_app. heap_eq.
    - exists (xs1 ++ xs2). split; [done|].
      rewrite mbind_unfold.
      erewrite run_on_exception_Ok; [|
        eapply (run_uninitialized_copy_n xs1 xs1 _ _ _ a 0 [] _ (fresh (dom h)) 0 []);
          [done|hlookup|done|hlookup|done|apply regular_copies] ].
      mnext. hsimpl.
      erewrite run_on_exception_Ok; [|
        eapply (run_uninitialized_copy_n xs2 xs2 _ _ _ a (length xs1) (Some <$> xs1) []
                 (fresh (dom h)) (length xs1 + 1) ((Some <$> xs1) ++ [Some x]));
          [done|hlookup|by rewrite length_fmap|hlookup
          |rewrite length_app, length_fmap; reflexivity|apply regular_copies] ].
      unfold cells'. rewrite fmap_app. heap_eq. }
  mnext. rewrite E. mnext.
  rewrite <- Hleft at 1.
  mstep (run_destroy_n left _ _ _ a 0 []); [|hlookup|done].
  hsimpl. rewrite Hleft.
  mstep run_data_Swap; [|exact Hv].
  unfold RawMemory_dtor.
  mstep run_Deallocate; [|hlookup].
  rewrite live_replicate_None, app_nil_r.
  mstep run_get_size; [|apply lookup_insert_eq].
  mstep run_set_size; [|apply lookup_insert_eq].
  mstep run_get_data; [|apply lookup_insert_eq].
  rewrite run_RawMemory_index by (cbn; lia).
  cbn [buffer_ ptr_add Nat.add].
  rewrite insert_insert_eq. unfold cells'. rewrite fmap_app. cbn [fmap list_fmap].
  heap_eq.
Qed.

(** *** [PopBack] and [Erase] *)

Lemma run_PopBack h v l this a (xs : list T) z cap :
  let n := length (xs ++ [z]) in
  v !! this = Some (mkVector (mkRawMemory (Ptr a 0) cap) n) →
  h !! a = Some ((Some <$> xs ++ [z]) ++ replicate (cap - n) None) →
  PopBack this (mkWorld h v l)
  = Ok tt (mkWorld (<[a := (Some <$> xs) ++ replicate (cap - n + 1) None]> h)
                   (<[this := mkVector (mkRawMemory (Ptr a 0) cap) (n - 1)]> v)
                   l).
Proof.
  intros n Hv Ha.
  assert (n = length xs + 1) as Hn by (unfold n; by rewrite length_app).
  unfold PopBack.
  mstep run_end; [|exact Hv]. mnext. cbn [ptr_add ptr_sub Nat.add].
  rewrite decide_True by lia.
  rewrite fmap_app, <- app_assoc in Ha. cbn [fmap list_fmap app] in Ha.
  mstep run_destroy_at; [|exact Ha|rewrite length_fmap; lia].
  mstep run_get_size; [|exact Hv].
  rewrite (run_set_size _ _ _ _ _ _ Hv).
  replace (cap - n + 1) with (S (cap - n)) by lia. done.
Qed.


(** *** Insertion at any position of a vector that holds [xs1 ++ xs2] *)



(** ** Removal *)

Lemma run_Erase_at h v l this a (xs1 : list T) z ys cap :
  let n := length (xs1 ++ z :: ys) in
  v !! this = Some (mkVector (mkRawMemory (Ptr a 0) cap) n) →
  h !! a = Some ((Some <$> xs1 ++ z :: ys) ++ replicate (cap - n) None) →
  n ≤ cap →
  Erase this (Ptr a (length xs1)) (mkWorld h v l)
  = Ok (Ptr a (length xs1))
       (mkWorld (<[a := (Some <$> xs1 ++ ys) ++ replicate (cap - n + 1) None]> h)
                (<[this := mkVector (mkRawMemory (Ptr a 0) cap) (n - 1)]> v)
                l).
Proof.
  intros n Hv Ha Hle.
  assert (n = length xs1 + length ys + 1) as Hn
    by (unfold n; rewrite length_app; cbn; lia).
  unfold Erase.
  mstep run_end; [|exact Hv]. mnext. cbn [ptr_add ptr_sub Nat.add].
  rewrite (decide_True (P := 1 ≤ n)) by lia.
  destruct ys as [|y ys].
  - (* the last element *)
    cbn [length] in Hn. rewrite app_nil_r.
    rewrite decide_True by (f_equal; lia).
    mstep (run_PopBack _ _ _ _ a xs1 z cap); [|exact Hv|exact Ha].
    fold n. erewrite run_end by apply lookup_insert_eq.
    cbn [ptr_add Nat.add]. do 2 f_equal. lia.
  - cbn [length] in Hn.
    rewrite decide_False by (intros [= ?]; lia).
    mstep run_begin; [|exact Hv]. mnext.
    mstep run_distance; [|lia]. rewrite Nat.sub_0_r.
    mstep run_get_data; [|exact Hv].
    mstep run_RawMemory_index; [|cbn; lia].
    mstep run_end; [|exact Hv].
    mstep run_RawMemory_index; [|cbn; lia].
    cbn [ptr_add Nat.add]. unfold std_move.
    mstep run_distance; [|lia].
    replace (n - (length xs1 + 1)) with (length (y :: ys)) by (cbn [length]; lia).
    rewrite fmap_app, <- app_assoc in Ha. cbn [fmap list_fmap app] in Ha.
    destruct (run_move_n (y :: ys) h v l a (Some <$> xs1) z (replicate (cap - n) None))
      as [z' E].
    { exact Ha. }
    rewrite length_fmap in E. mstep E.
    mstep run_end; [|exact Hv]. mnext. cbn [ptr_add ptr_sub Nat.add].
    rewrite (decide_True (P := 1 ≤ n)) by lia.
    replace (n - 1) with (length ((Some <$> xs1) ++ (Some <$> y :: ys)))
      by (rewrite length_app, !length_fmap; cbn [length]; lia).
    mstep run_destroy_at; [|rewrite lookup_insert_eq; by rewrite app_assoc|done].
    mstep run_get_size; [|exact Hv].
    mstep run_set_size; [|exact Hv].
    mstep run_get_data; [|apply lookup_insert_eq].
    rewrite run_RawMemory_index by (cbn; lia).
    cbn [buffer_ ptr_add Nat.add].
    rewrite length_app, !length_fmap. cbn [length].
    rewrite fmap_app.
    replace (cap - n + 1) with (S (cap - n)) by lia. cbn [replicate].
    replace (length xs1 + S (length ys)) with (n - 1) by lia.
    heap_eq.
Qed.

Lemma holds_PopBack h v l this (xs : list T) z cap :
  holds (mkWorld h v l) this (xs ++ [z]) cap →
  ∃ w', PopBack this (mkWorld h v l) = Ok tt w' ∧ holds w' this xs cap ∧
        storage w' this = storage (mkWorld h v l) this ∧
        framed (mkWorld h v l) w' this ∧ leaked w' = l.
Proof.
  intros Hh.
  apply holds_inv in Hh as [Hle [(_ & Hnil & _)|(a & Hv & Ha)]];
    [by destruct xs|].
  rewrite length_app in Hle. cbn in Hle.
  eexists. split; [exact (run_PopBack _ _ _ _ a xs z cap Hv Ha)|].
  split; [|split; [|split; [|done]]].
  - eapply holds_intro; [apply lookup_insert_eq..| | |].
    + rewrite length_app. cbn. lia.
    + lia.
    + rewrite length_app. cbn. do 2 f_equal. lia.
  - unfold storage. cbn. by rewrite lookup_insert_eq, Hv.
  - by eapply framed_in_place.
Qed.

(** X14. [PopBack]. On a vector that is not empty it destroys the last
    element and keeps the others, the capacity and the block. On an empty
    vector nothing guards it: [end() - 1] is not a pointer to an object
    and the call is undefined. *)
Theorem PopBack_spec (w : World T) (this : nat) (xs : list T) (cap : nat) :
  holds w this xs cap →
  (∀ ys z, xs = ys ++ [z] →
     ∃ w', PopBack this w = Ok tt w' ∧ holds w' this ys cap ∧
           storage w' this = storage w this ∧
           framed w w' this ∧ leaked w' = leaked w) ∧
  (xs = [] → PopBack this w = Fault).
Proof.
  destruct w as [h v l]. intros Hh. split.
  - intros ys z ->. exact (holds_PopBack _ _ _ _ _ z _ Hh).
  - intros ->.
    apply holds_inv in Hh as [Hle [(Hv & _ & _)|(a & Hv & Ha)]].
    + unfold PopBack. mstep run_end; [|exact Hv]. reflexivity.
    + unfold PopBack. mstep run_end; [|exact Hv]. reflexivity.
Qed.

(** X15. [PushBack] followed by [PopBack] returns and leaves the vector
    with the elements it had, in order. The capacity is not given back:
    when the vector was full it stays doubled (1 for a vector without
    capacity). *)
Theorem PushBack_then_PopBack (w : World T) (this : nat) (xs : list T) (cap : nat) (x : T) :
  holds w this xs cap →
  ∃ w', (PushBack this x;; PopBack this) w = Ok tt w' ∧
        holds w' this xs (if decide (length xs = cap) then grown cap else cap) ∧
        leaked w' = leaked w.
Proof.
  intros Hh.
  destruct (holds_append _ _ _ _ (ByCopy x) Hh) as ([h1 v1 l1] & E & Hh1 & Hl1).
  cbn [run_append appended] in *.
  destruct (holds_PopBack _ _ _ _ _ _ _ Hh1) as (w' & E' & Hh' & _ & _ & Hl').
  exists w'. split; [|split; [done|]].
  - by rewrite mbind_unfold, E.
  - by rewrite Hl'.
Qed.

(** X16. [Erase(pos)] at the position of an element removes that element
    and keeps the others in order, in the same block and with the same
    capacity; the iterator it returns is the position it was given, which
    now is the position of the element that followed, or the end. *)
Theorem Erase_spec (w : World T) (this : nat) (xs1 : list T) (z : T) (xs2 : list T) (cap : nat) :
  holds w this (xs1 ++ z :: xs2) cap →
  ∃ b w', begin_ this w = Ok b w ∧
          Erase this (b +ₚ length xs1) w = Ok (b +ₚ length xs1) w' ∧
          holds w' this (xs1 ++ xs2) cap ∧
          end_ this w' = Ok (b +ₚ length (xs1 ++ xs2)) w' ∧
          storage w' this = storage w this ∧ leaked w' = leaked w.
Proof.
  destruct w as [h v l]. intros Hh.
  apply holds_inv in Hh as [Hle [(_ & Hnil & _)|(a & Hv & Ha)]];
    [by destruct xs1|].
  assert (length (xs1 ++ z :: xs2) = length (xs1 ++ xs2) + 1) as Hn
    by (rewrite !length_app; cbn; lia).
  exists (Ptr a 0). eexists.
  split; [exact (run_begin _ _ _ _ _ _ Hv)|].
  split; [eapply run_Erase_at; [exact Hv|exact Ha|done]|].
  split; [|split; [|split; [|done]]].
  - eapply holds_intro; [apply lookup_insert_eq..| | |]; [lia..|].
    do 2 f_equal. lia.
  - erewrite run_end by apply lookup_insert_eq. cbn [ptr_add Nat.add].
    do 2 f_equal. lia.
  - unfold storage. cbn. by rewrite lookup_insert_eq, Hv.
Qed.

(** ** Insertion and copy assignment of well-behaved elements *)

Lemma holds_Emplace_exact h v l this (xs1 xs2 : list T) cap x :
  let n := length (xs1 ++ xs2) in
  let cap' := if decide (n = cap) then grown cap else cap in
  holds (mkWorld h v l) this (xs1 ++ xs2) cap →
  ∃ b a' h',
    begin_ this (mkWorld h v l) = Ok b (mkWorld h v l) ∧
    Emplace this (b +ₚ length xs1) (Some x) (mkWorld h v l)
    = Ok (Ptr a' (length xs1))
         (mkWorld h' (<[this := mkVector (mkRawMemory (Ptr a' 0) cap') (n + 1)]> v) l) ∧
    h' !! a' = Some ((Some <$> xs1 ++ x :: xs2) ++ replicate (cap' - (n + 1)) None) ∧
    (n < cap → b = Ptr a' 0) ∧
    (n = cap → h !! a' = None) ∧
    framed (mkWorld h v l)
           (mkWorld h' (<[this := mkVector (mkRawMemory (Ptr a' 0) cap') (n + 1)]> v) l) this.
Proof.
  intros n cap' Hh. subst n cap'.
  apply holds_inv in Hh as [Hle [(Hv & Hnil & ->)|(a & Hv & Ha)]].
  - (* no block yet: the position is the end *)
    apply app_eq_nil in Hnil as [-> ->]. cbn in *.
    exists nullptr, (fresh (dom h)), (<[fresh (dom h) := [Some x]]> h).
    split; [exact (run_begin _ _ _ _ _ _ Hv)|].
    split; [|split; [apply lookup_insert_eq|split; [lia|split; [intros _; apply fresh_block|]]]].
    + unfold Emplace. mstep run_end; [|exact Hv]. mnext. cbn [ptr_add].
      rewrite decide_True by done. by apply run_EmplaceBack_first.
    + eapply framed_first; [exact Hv|apply fresh_block].
  - exists (Ptr a 0). cbn [ptr_add Nat.add].
    destruct xs2 as [|y ys' _] using rev_ind.
    + (* at the end *)
      rewrite app_nil_r in *.
      assert (∀ r, EmplaceBack this (Some x) (mkWorld h v l) = r →
                   Emplace this (Ptr a (length xs1)) (Some x) (mkWorld h v l) = r) as Hend.
      { intros r <-. unfold Emplace. mstep run_end; [|exact Hv]. mnext.
        cbn [ptr_add Nat.add]. by rewrite decide_True. }
      destruct (decide (length xs1 = cap)) as [<-|Hfull].
      * rewrite Nat.sub_diag, app_nil_r in Ha.
        eexists _, _. split; [exact (run_begin _ _ _ _ _ _ Hv)|].
        split; [apply Hend; eapply run_EmplaceBack_grow; [exact Hv|exact Ha|apply regular_migrated]|].
        pose proof (grown_gt (length xs1)).
        split; [|split; [lia|split; [intros _; apply fresh_block|]]].
        -- rewrite lookup_insert_eq, fmap_app. rewrite <- app_assoc.
           do 4 f_equal. lia.
        -- eapply framed_moved; [exact Hv|apply fresh_block].
      * eexists _, _. split; [exact (run_begin _ _ _ _ _ _ Hv)|].
        split; [apply Hend; eapply run_EmplaceBack_in_place; [exact Hv|exact Ha|lia]|].
        split; [|split; [done|split; [lia|]]].
        -- rewrite lookup_insert_eq. do 3 f_equal. lia.
        -- by eapply framed_in_place.
    + (* before the end *)
      set (n := length (xs1 ++ ys' ++ [y])) in *.
      destruct (decide (n = cap)) as [<-|Hfull].
      * rewrite Nat.sub_diag, app_nil_r in Ha.
        eexists _, _. split; [exact (run_begin _ _ _ _ _ _ Hv)|].
        split; [eapply run_Emplace_grow; [exact Hv|exact Ha|rewrite length_app; cbn; lia]|].
        fold n. pose proof (grown_gt n).
        split; [|split; [lia|split; [intros _; apply fresh_block|]]].
        -- rewrite lookup_insert_eq. do 3 f_equal. lia.
        -- eapply framed_moved; [exact Hv|apply fresh_block].
      * eexists _, _. split; [exact (run_begin _ _ _ _ _ _ Hv)|].
        split; [eapply run_Emplace_in_place; [exact Hv|exact Ha|fold n; lia]|].
        fold n.
        split; [|split; [done|split; [lia|]]].
        -- rewrite lookup_insert_eq. do 3 f_equal. lia.
        -- by eapply framed_in_place.
Qed.

(** X17. [Insert(pos, value)], by copy or by move, at any position from
    [begin()] to [end()]: the vector holds the elements before the
    position, then the value, then the elements from the position on. The
    capacity is unchanged when the vector was not full, otherwise doubled
    (1 for a vector without capacity). The iterator returned points at the
    new element, at the same index in the block the vector has after the
    call: when the vector was not full that is the block it had, otherwise
    a block that did not exist before. *)
Theorem Insert_spec (w : World T) (this : nat) (xs1 xs2 : list T) (cap : nat) (x : T) :
  holds w this (xs1 ++ xs2) cap →
  let cap' := if decide (length (xs1 ++ xs2) = cap) then grown cap else cap in
  ∃ b p w',
    begin_ this w = Ok b w ∧
    Insert this (b +ₚ length xs1) x w = Ok p w' ∧
    Insert_move this (b +ₚ length xs1) x w = Ok p w' ∧
    holds w' this (xs1 ++ x :: xs2) cap' ∧
    (∃ b', begin_ this w' = Ok b' w' ∧ p = b' +ₚ length xs1) ∧
    load p w' = Ok x w' ∧
    (length (xs1 ++ xs2) < cap → storage w' this = storage w this) ∧
    (length (xs1 ++ xs2) = cap → ¬ allocated w p ∧ allocated w' p) ∧
    framed w w' this ∧
    leaked w' = leaked w.
Proof.
  destruct w as [h v l]. intros Hh cap'.
  pose proof (holds_size_le _ _ _ _ Hh) as Hle.
  pose proof Hh as (m & Hv & _). cbn in Hv.
  destruct (holds_Emplace_exact _ _ _ _ _ _ _ x Hh)
    as (b & a' & h' & Hb & E & Ha' & Hsame & Hnew & Hfr).
  fold cap' in E, Ha'.
  assert (length (xs1 ++ x :: xs2) = length (xs1 ++ xs2) + 1) as Hn
    by (rewrite !length_app; cbn; lia).
  assert (length (xs1 ++ xs2) < cap') as Hlt.
  { subst cap'. destruct (decide (length (xs1 ++ xs2) = cap)) as [<-|?]; [apply grown_gt|lia]. }
  exists b. eexists _, _.
  split; [exact Hb|].
  split; [unfold Insert; rewrite copy_ctor_regular; exact E|].
  split; [unfold Insert_move; rewrite move_ctor_regular; exact E|].
  split; [|split; [|split; [|split; [|split; [|split; [exact Hfr|done]]]]]].
  - eapply holds_intro; [apply lookup_insert_eq|exact Ha'|lia|lia|].
    do 2 f_equal. lia.
  - eexists. split; [eapply run_begin; apply lookup_insert_eq|]. done.
  - unfold load. cbn. rewrite Ha'. cbn.
    rewrite lookup_app_l by (rewrite length_fmap, length_app; cbn; lia).
    rewrite list_lookup_fmap, lookup_app_r by done.
    by rewrite Nat.sub_diag.
  - intros Hlt'. unfold storage. cbn. rewrite lookup_insert_eq, Hv. cbn.
    specialize (Hsame Hlt').
    rewrite (run_begin _ _ _ _ _ _ Hv) in Hb. congruence.
  - intros Heq. cbn. rewrite (Hnew Heq), Ha'. split; [by intros [? ?]|done].
Qed.

Lemma regular_copy_assigned (ds : list T) : ∀ ss,
  length ds = length ss → copy_assigned ds ss = (ss, true).
Proof.
  induction ds as [|d ds IH]; intros [|s ss] Hlen; try done.
  cbn. rewrite copy_assign_regular. cbn.
  by rewrite IH by (by injection Hlen).
Qed.

(** X13. For elements whose copies never throw, copy assignment from a
    source that fits in the capacity of the destination returns with the
    destination holding the elements of the source, in order, in the block
    it already had and with its capacity unchanged, however many elements
    it held before; the source is as before and nothing is leaked. *)
Theorem copy_assignment_reuses_block (w : World T) (this rhs : nat)
    (xs ys : list T) (cx cy : nat) :
  this ≠ rhs →
  separate w this rhs →
  holds w this xs cx →
  holds w rhs ys cy →
  length ys ≤ cx →
  ∃ w', copy_assignment this rhs w = Ok tt w' ∧
        holds w' this ys cx ∧ holds w' rhs ys cy ∧
        storage w' this = storage w this ∧ leaked w' = leaked w.
Proof.
  intros Hne Hsep Ht Ho Hfit.
  destruct (holds_copy_assignment_fits _ _ _ _ _ _ _ Hne Hsep Ht Ho Hfit) as [Hok _].
  cbv zeta in Hok.
  rewrite regular_copy_assigned in Hok by (rewrite !length_take; lia).
  destruct (Hok eq_refl _ (regular_copies _)) as (w' & E & Hh & Hrest).
  cbn [fst] in Hh. rewrite take_drop in Hh. eauto.
Qed.

(** ** Any sequence of calls *)

Lemma holds_PushBack h v l this (xs : list T) cap x :
  holds (mkWorld h v l) this xs cap →
  ∃ w', PushBack this x (mkWorld h v l) = Ok tt w' ∧
        holds w' this (xs ++ [x]) (if decide (length xs = cap) then grown cap else cap) ∧
        framed (mkWorld h v l) w' this ∧ leaked w' = l.
Proof.
  intros Hh. unfold PushBack. rewrite copy_ctor_regular, mbind_unfold.
  apply holds_inv in Hh as [Hle [(Hv & -> & ->)|(a & Hv & Ha)]].
  - rewrite (run_EmplaceBack_first _ _ _ _ _ Hv).
    eexists. split; [reflexivity|]. split; [|split; [|done]].
    + eapply (holds_intro _ _ _ _ _ _ _ [x]); [apply lookup_insert_eq..|done|done|done].
    + eapply framed_first; [exact Hv|apply fresh_block].
  - destruct (decide (length xs = cap)) as [<-|Hroom].
    + rewrite Nat.sub_diag, app_nil_r in Ha.
      pose proof (grown_gt (length xs)) as Hg.
      rewrite (run_EmplaceBack_grow _ _ _ _ _ _ _ _ Hv Ha (regular_migrated xs)).
      eexists. split; [reflexivity|]. split; [|split; [|done]].
      * eapply holds_intro; [apply lookup_insert_eq..| | |].
        -- rewrite length_app. cbn. lia.
        -- rewrite length_app. cbn. lia.
        -- rewrite length_app, fmap_app, <- app_assoc. cbn. do 3 f_equal. lia.
      * eapply framed_moved; [exact Hv|apply fresh_block].
    + rewrite (run_EmplaceBack_in_place _ _ _ _ _ _ _ _ Hv Ha) by lia.
      eexists. split; [reflexivity|]. split; [|split; [|done]].
      * eapply holds_intro; [apply lookup_insert_eq..| | |].
        -- rewrite length_app. cbn. lia.
        -- rewrite length_app. cbn. lia.
        -- rewrite length_app. cbn. do 2 f_equal. lia.
      * by eapply framed_in_place.
Qed.

Lemma holds_run_call (w : World T) (this : nat) (xs xs' : list T) (cap : nat) (c : call) :
  holds w this xs cap →
  effect c xs = Some xs' →
  ∃ w', run_call this c w = Ok tt w' ∧
        holds w' this xs' (capacity_after c (length xs) cap) ∧
        framed w w' this ∧
        leaked w' = leaked w.
Proof.
  intros Hh He. pose proof (holds_size_le _ _ _ _ Hh) as Hle.
  destruct c as [x| |i x|i|n|n]; cbn [effect run_call capacity_after] in *.
  - (* PushBack *)
    injection He as <-. destruct w as [h v l]. by apply holds_PushBack.
  - (* PopBack *)
    destruct (decide (xs = [])) as [|Hxs]; [done|]. injection He as <-.
    destruct xs as [|z zs _] using rev_ind; [done|].
    rewrite length_app. cbn [length]. rewrite Nat.add_sub, take_app_length.
    destruct w as [h v l].
    destruct (holds_PopBack _ _ _ _ _ _ _ Hh) as (w' & E & Hh' & _ & Hfr & Hl). eauto.
  - (* Insert *)
    destruct (decide (i ≤ length xs)) as [Hi|]; [|done]. injection He as <-.
    destruct w as [h v l].
    assert (length (take i xs) = i) as Hti by (rewrite length_take; lia).
    rewrite <- (take_drop i xs) in Hh.
    destruct (holds_Emplace_exact _ _ _ _ _ _ _ x Hh)
      as (b & a' & h' & Hb & E & Ha' & _ & _ & Hfr).
    rewrite take_drop, Hti in *.
    eexists. split.
    + rewrite mbind_unfold, Hb. cbv beta iota. unfold Insert.
      rewrite copy_ctor_regular, mbind_unfold, E. reflexivity.
    + split; [|split; [exact Hfr|done]].
      assert (length (take i xs ++ x :: drop i xs) = length xs + 1) as Hn.
      { rewrite length_app. cbn [length]. rewrite Hti, length_drop. lia. }
      eapply holds_intro; [apply lookup_insert_eq|exact Ha'|lia| |].
      * rewrite Hn. destruct (decide (length xs = cap)) as [<-|?]; [|lia].
        pose proof (grown_gt (length xs)). lia.
      * by rewrite Hn.
  - (* Erase *)
    destruct (decide (i < length xs)) as [Hi|]; [|done]. injection He as <-.
    destruct w as [h v l].
    assert (length (take i xs) = i) as Hti by (rewrite length_take; lia).
    destruct (lookup_lt_is_Some_2 xs i Hi) as [z Hz].
    assert (xs = take i xs ++ z :: drop (S i) xs) as Hsplit
      by (by rewrite take_drop_middle).
    assert (length xs = length (take i xs ++ drop (S i) xs) + 1) as Hn.
    { rewrite length_app, Hti, length_drop. lia. }
    rewrite Hsplit in Hh.
    apply holds_inv in Hh as [_ [(_ & Hnil & _)|(a & Hv & Ha)]];
      [by destruct (take i xs)|].
    rewrite <- Hsplit in Hv.
    eexists. split.
    + rewrite mbind_unfold, (run_begin _ _ _ _ _ _ Hv). cbv beta iota.
      cbn [ptr_add Nat.add]. rewrite <- Hti at 1.
      rewrite mbind_unfold.
      rewrite (run_Erase_at _ _ _ _ a (take i xs) z (drop (S i) xs) cap);
        [reflexivity|by rewrite <- Hsplit|exact Ha|by rewrite <- Hsplit].
    + split; [|split; [by eapply framed_in_place|done]]. rewrite <- Hsplit.
      eapply holds_intro; [apply lookup_insert_eq..| | |]; [lia..|].
      do 2 f_equal. lia.
  - (* Reserve *)
    destruct (decide (fits n)) as [_|]; [|done].
    injection He as <-. destruct w as [h v l].
    destruct (decide (n ≤ cap)) as [Hn|Hn].
    + rewrite Nat.max_l by done. pose proof Hh as (m & Hv & Hcap & _).
      eexists. split; [eapply run_Reserve_enough; [exact Hv|lia]|]. done.
    + rewrite Nat.max_r by lia.
      destruct (holds_Reserve _ _ _ _ _ _ n _ Hh ltac:(lia) (regular_migrated xs))
        as (a & h' & E & Ha & Hfr).
      eexists. split; [exact E|]. split; [|split; [exact Hfr|done]].
      eapply holds_intro; [apply lookup_insert_eq|exact Ha|done|lia|done].
  - (* Resize *)
    destruct (decide (fits n)) as [_|]; [|done].
    destruct (built default_ctor (n - length xs)) as [ds|] eqn:Hb; [|done].
    cbn in He. injection He as <-.
    pose proof (built_length _ _ _ Hb) as Hds.
    destruct (decide (n ≤ cap)) as [Hn|Hn].
    + rewrite Nat.max_l by done.
      destruct (holds_Resize_within _ _ _ _ n Hh Hn) as (Hsame & Hshrink & Hext).
      destruct (decide (n = length xs)) as [->|Hne].
      * exists w. split; [by apply Hsame|].
        rewrite Nat.sub_diag in Hds. destruct ds; [|done].
        by rewrite firstn_all, app_nil_r.
      * destruct (decide (n < length xs)) as [Hlt|Hge].
        -- destruct (Hshrink Hlt) as (w' & E & Hh' & Hl & _ & Hfr).
           exists w'. split; [done|]. split; [|done].
           replace (n - length xs) with 0 in Hds by lia. destruct ds; [|done].
           by rewrite app_nil_r.
        -- destruct (Hext ltac:(lia)) as [Hok _].
           destruct (Hok ds Hb) as (w' & E & Hh' & Hl & _ & Hfr).
           exists w'. split; [done|]. split; [|done].
           by rewrite take_ge by lia.
    + rewrite Nat.max_r by lia.
      destruct (holds_Resize_beyond _ _ _ _ _ n Hh ltac:(lia) (regular_migrated xs))
        as [Hok _].
      destruct (Hok ds Hb) as (w' & E & Hh' & Hfr & Hl).
      exists w'. split; [done|]. split; [|done].
      by rewrite take_ge by lia.
Qed.

Lemma capacity_after_ge (c : @call T) size cap : cap ≤ capacity_after c size cap.
Proof.
  destruct c; cbn; try lia; destruct (decide (size = cap)); try lia;
    subst; pose proof (grown_gt cap); lia.
Qed.

Lemma holds_run_calls (cs : list call) : ∀ (w : World T) this xs xs' cap cap',
  holds w this xs cap →
  effects cs xs cap = Some (xs', cap') →
  ∃ w', run_calls this cs w = Ok tt w' ∧
        holds w' this xs' cap' ∧
        cap ≤ cap' ∧
        framed w w' this ∧
        leaked w' = leaked w.
Proof.
  induction cs as [|c cs IH]; intros w this xs xs' cap cap' Hh He; cbn [effects] in He.
  - injection He as <- <-. exists w. done.
  - destruct (effect c xs) as [xs1|] eqn:Hc; [|done]. cbn in He.
    destruct (holds_run_call _ _ _ _ _ _ Hh Hc) as (w1 & E1 & Hh1 & Hf1 & Hl1).
    destruct (IH _ _ _ _ _ _ Hh1 He) as (w' & E' & Hh' & Hcap & Hf' & Hl').
    exists w'. split; [|split; [done|split; [|split]]].
    + cbn [run_calls]. by rewrite mbind_unfold, E1.
    + pose proof (capacity_after_ge c (length xs) cap). lia.
    + by eapply framed_trans.
    + congruence.
Qed.

(** X21. A vector of elements whose copies, moves and assignments never
    throw behaves as a sequence. Any series of [PushBack], [PopBack],
    [Insert], [Erase], [Reserve] and [Resize] calls, each within its
    precondition ([PopBack] on a vector that is not empty, [Insert] at a
    position up to the end, [Erase] at the position of an element,
    [Reserve] and [Resize] with a count whose byte count does not wrap)
    and none with a default-initialisation that throws, returns;
    afterwards the vector satisfies the invariant and holds exactly the
    sequence the calls make of the initial one ([Resize] appends what the
    default-initialisations build), its capacity is the one the growth
    rules give, which is never below the capacity at the start; every
    other vector and every block but its own is untouched, and nothing is
    leaked. *)
Theorem calls_refine_sequence (w : World T) (this : nat) (cs : list call)
    (xs xs' : list T) (cap cap' : nat) :
  holds w this xs cap →
  effects cs xs cap = Some (xs', cap') →
  ∃ w', run_calls this cs w = Ok tt w' ∧
        holds w' this xs' cap' ∧
        cap ≤ cap' ∧
        framed w w' this ∧
        leaked w' = leaked w.
Proof. apply holds_run_calls. Qed.

(** X22. A whole lifetime leaves no trace. A vector that is
    default-constructed at a free address, used through any series of
    calls within their preconditions (as in X21: counts of [Reserve] and
    [Resize] whose byte count does not wrap, no default-initialisation
    that throws) and then destroyed leaves the world exactly as it was
    before the construction: every block it allocated is released, no
    other object or block was touched, nothing is leaked. *)
Theorem lifetime_leaves_no_trace (w : World T) (this : nat) (cs : list call)
    (xs' : list T) (cap' : nat) :
  vecs w !! this = None →
  effects cs [] 0 = Some (xs', cap') →
  (Vector_default this;; run_calls this cs;; Vector_dtor this) w = Ok tt w.
Proof.
  destruct w as [h v l]. cbn [vecs]. intros Hfree He.
  assert (Vector_default this (mkWorld h v l)
          = Ok tt (mkWorld h (<[this := mkVector RawMemory_default 0]> v) l)) as E0
    by reflexivity.
  assert (holds (mkWorld h (<[this := mkVector RawMemory_default 0]> v) l) this [] 0) as Hh0
    by apply holds_empty_default, lookup_insert_eq.
  destruct (holds_run_calls cs _ _ _ _ _ _ Hh0 He)
    as ([h1 v1 l1] & E1 & Hh1 & _ & [Hoth Hvec] & Hl1).
  cbn in Hl1. subst l1.
  rewrite mbind_unfold, E0. cbv beta iota. rewrite mbind_unfold, E1. cbv beta iota.
  assert (others (mkWorld h (<[this := mkVector RawMemory_default 0]> v) l) this = h) as Hh.
  { unfold others, storage. cbn. by rewrite lookup_insert_eq. }
  rewrite Hh in Hoth. cbn in Hvec.
  assert (delete this v1 = v) as Hv1.
  { apply map_eq. intros o. destruct (decide (o = this)) as [->|Hne].
    - by rewrite lookup_delete_eq.
    - rewrite lookup_delete_ne by done. rewrite Hvec by done. by rewrite lookup_insert_ne. }
  apply holds_inv in Hh1 as [_ [(Hv & _ & _)|(a & Hv & Ha)]].
  - rewrite (run_Vector_dtor_null _ _ _ _ Hv).
    unfold others, storage in Hoth. cbn in Hoth. rewrite Hv in Hoth. cbn in Hoth.
    by rewrite Hv1, Hoth.
  - rewrite (run_Vector_dtor _ _ _ _ _ _ _ Hv Ha).
    unfold others, storage in Hoth. cbn in Hoth. rewrite Hv in Hoth. cbn in Hoth.
    by rewrite Hv1, Hoth.
Qed.

(** X24. Calls on one vector do not reach another. After any series of
    calls on the vector at [this], each within its precondition (as in
    X21: counts of [Reserve] and [Resize] whose byte count does not wrap,
    no default-initialisation that throws), a second vector that shared no
    block with it holds the elements it held, with its capacity, and the
    two still share no block. *)
Theorem calls_leave_other_vectors (w : World T) (this other : nat) (cs : list call)
    (xs xs' ys : list T) (cap cap' cy : nat) :
  this ≠ other →
  separate w this other →
  holds w this xs cap →
  holds w other ys cy →
  effects cs xs cap = Some (xs', cap') →
  ∃ w', run_calls this cs w = Ok tt w' ∧
        holds w' this xs' cap' ∧
        holds w' other ys cy ∧
        separate w' this other.
Proof.
  intros Hne Hsep Ht Ho He.
  destruct (holds_run_calls cs _ _ _ _ _ _ Ht He) as (w' & E & Ht' & _ & Hfr & _).
  destruct (framed_other _ _ _ _ _ _ _ _ _ _ Ht Ht' Hfr Hne Hsep Ho) as [Ho' Hsep'].
  eauto.
Qed.

(** X25. Appends that fit in the capacity never reallocate. While the
    size stays within the capacity, a series of appends (by copy, by move
    or in place) keeps the vector in the block it has, so addresses of its
    elements stay valid, and the capacity is unchanged. *)
Theorem appends_within_capacity_keep_block (w : World T) (this : nat)
    (xs : list T) (cap : nat) (apps : list append) :
  holds w this xs cap →
  length xs + length apps ≤ cap →
  ∃ w', push_all this apps w = Ok tt w' ∧
        holds w' this (xs ++ (appended <$> apps)) cap ∧
        storage w' this = storage w this ∧
        leaked w' = leaked w.
Proof.
  revert w xs. induction apps as [|a apps IH]; intros w xs Hh Hfit.
  - exists w. cbn. by rewrite app_nil_r.
  - cbn [length] in Hfit. destruct w as [h v l].
    assert (∃ w1, run_append this a (mkWorld h v l) = Ok tt w1 ∧
                  holds w1 this (xs ++ [appended a]) cap ∧
                  storage w1 this = storage (mkWorld h v l) this ∧
                  leaked w1 = l) as (w1 & E1 & Hh1 & Hs1 & Hl1).
    { apply holds_inv in Hh as [Hle [(_ & -> & ->)|(b & Hv & Hb)]]; [cbn in Hfit; lia|].
      exists (mkWorld (<[b := (Some <$> xs ++ [appended a])
                                 ++ replicate (cap - length xs - 1) None]> h)
                      (<[this := mkVector (mkRawMemory (Ptr b 0) cap) (length xs + 1)]> v) l).
      split.
      - destruct a as [x|x|x]; cbn [run_append appended]; unfold PushBack, PushBack_move;
          rewrite ?copy_ctor_regular, ?move_ctor_regular, mbind_unfold;
          rewrite (run_EmplaceBack_in_place _ _ _ _ _ _ _ _ Hv Hb) by lia; reflexivity.
      - split; [|split; [|done]].
        + eapply holds_intro; [apply lookup_insert_eq..| | |].
          * rewrite length_app. cbn. lia.
          * rewrite length_app. cbn. lia.
          * rewrite length_app. cbn. do 2 f_equal. lia.
        + unfold storage. cbn. by rewrite lookup_insert_eq, Hv. }
    destruct (IH w1 _ Hh1) as (w' & E' & Hh' & Hs' & Hl').
    { rewrite length_app. cbn. lia. }
    exists w'. split; [|split; [|split]].
    + cbn [push_all]. by rewrite mbind_unfold, E1.
    + rewrite <- app_assoc in Hh'. exact Hh'.
    + by rewrite Hs', Hs1.
    + by rewrite Hl', Hl1.
Qed.

End Regular_elements.

(** * Runs on concrete vectors *)

(** C1. A vector of [obj] (the copy path) that holds [Sound 1; Brittle 2]
    at capacity 2; appending [Sound 3] builds the new element in the new
    block and then copies the old elements, and the copy of [Brittle 2]
    throws. The exception propagates; the vector and its block are as
    before and the new block is released, but the new element is in
    [leaked]: its storage went away while it was live, its destructor never
    ran. *)
Theorem EmplaceBack_failed_migration_leaks :
  ∃ w : World obj,
    (Vector_default 0;; PushBack 0 (Sound 1);; PushBack_move 0 (Brittle 2)) empty_world
    = Ok tt w ∧
    holds w 0 [Sound 1; Brittle 2] 2 ∧
    leaked w = [] ∧
    EmplaceBack 0 (Some (Sound 3)) w = Exn (leak [Sound 3] w).
Proof.
  eexists. split; [vm_compute; reflexivity|].
  split; [|split; [reflexivity|vm_compute; reflexivity]].
  eexists. split; [vm_compute; reflexivity|]. split; [reflexivity|].
  split; [reflexivity|]. split; [reflexivity|]. vm_compute. reflexivity.
Qed.

(** C2 as the specification words it, at two vectors of [nat]: [v0]
    holds [1; 2] and [v1] holds [3]. After [v1 = std::move(v0)] the
    destination [v1] holds [1; 2], and the source [v0] holds [3]: its size
    is 1, not 0. *)
Lemma move_assignment_source_not_empty :
  ∃ w w' : World nat,
    (Vector_default 0;; PushBack 0 1;; PushBack 0 2;;
     Vector_default 1;; PushBack 1 3) empty_world = Ok tt w ∧
    move_assignment 1 0 w = Ok tt w' ∧
    holds w' 1 [1; 2] 2 ∧
    holds w' 0 [3] 1 ∧
    Size 0 w' = Ok 1 w' ∧
    Size 0 w' ≠ Ok 0 w'.
Proof.
  eexists _, _. split; [vm_compute; reflexivity|].
  split; [vm_compute; reflexivity|].
  split; [|split; [|split; [vm_compute; reflexivity|by vm_compute]]].
  - eexists. split; [vm_compute; reflexivity|]. split; [reflexivity|].
    split; [reflexivity|]. split; [reflexivity|]. vm_compute. reflexivity.
  - eexists. split; [vm_compute; reflexivity|]. split; [reflexivity|].
    split; [reflexivity|]. split; [reflexivity|]. vm_compute. reflexivity.
Qed.

(** C9. A vector of [obj] with capacity 4 that holds
    [Brittle 1; Sound 2]; inserting [Sound 9] at the beginning takes the
    path that does not reallocate: the last element is move-constructed
    into the cell at index 2, then the elements are shifted up by
    assignment, and the assignment from [Brittle 1] throws. The exception
    propagates with [size_] still 2 and a live object in the cell at
    index 2: the vector is in no state of the invariant. *)
Theorem Emplace_failed_shift_breaks_invariant :
  ∃ (w w' : World obj) (a : nat),
    (Vector_default 0;; Reserve 0 4;;
     PushBack_move 0 (Brittle 1);; PushBack 0 (Sound 2)) empty_world = Ok tt w ∧
    holds w 0 [Brittle 1; Sound 2] 4 ∧
    begin_ 0 w = Ok (Ptr a 0) w ∧
    Insert 0 (Ptr a 0) (Sound 9) w = Exn w' ∧
    Size 0 w' = Ok 2 w' ∧
    Capacity 0 w' = Ok 4 w' ∧
    cell_at (Ptr a 2) w' = Some (Some (Sound 2)) ∧
    ∀ xs cap, ¬ holds w' 0 xs cap.
Proof.
  eexists _, _, _. split; [vm_compute; reflexivity|].
  split.
  { eexists. split; [vm_compute; reflexivity|]. split; [reflexivity|].
    split; [reflexivity|]. split; [reflexivity|]. vm_compute. reflexivity. }
  split; [vm_compute; reflexivity|].
  split; [vm_compute; reflexivity|].
  split; [vm_compute; reflexivity|].
  split; [vm_compute; reflexivity|].
  split; [vm_compute; reflexivity|].
  intros xs cap (m & Hv & Hcap & Hlen & Hown).
  vm_compute in Hv. injection Hv as <- Hsize.
  cbn in Hown. destruct Hown as [_ Hcells]. vm_compute in Hcells.
  injection Hcells as Hcells.
  destruct xs as [|x1 [|x2 [|x3 xs]]]; try discriminate Hsize.
  cbn in Hcells. subst cap. cbn in Hcells. discriminate Hcells.
Qed.

(** [holds] in a concrete world, by evaluation. *)
Ltac holds_by_evaluation :=
  eexists; split; [vm_compute; reflexivity|];
  split; [reflexivity|]; split; [reflexivity|];
  first [split; [reflexivity|]; vm_compute; reflexivity | reflexivity].

(** The scenario of the specification: append 1, 2, 3; insert 9 at
    position 1; erase position 0; resize to 5; resize to 1. *)
Example scenario :
  ∃ w1 w2 w3 w4 w5 : World nat,
    (Vector_default 0;; push_all 0 [ByCopy 1; ByMove 2; InPlace 3]) empty_world = Ok tt w1 ∧
    holds w1 0 [1; 2; 3] 4 ∧
    (b ← begin_ 0; Insert 0 (b +ₚ 1) 9;; mret tt) w1 = Ok tt w2 ∧
    holds w2 0 [1; 9; 2; 3] 4 ∧
    (b ← begin_ 0; Erase 0 b;; mret tt) w2 = Ok tt w3 ∧
    holds w3 0 [9; 2; 3] 4 ∧
    Resize 0 5 w3 = Ok tt w4 ∧
    holds w4 0 [9; 2; 3; 0; 0] 5 ∧
    Resize 0 1 w4 = Ok tt w5 ∧
    holds w5 0 [9] 5.
Proof.
  eexists _, _, _, _, _.
  repeat (split; [first [vm_compute; reflexivity | holds_by_evaluation]|]).
  holds_by_evaluation.
Qed.



(** C8. A vector of [pod], a trivial type such as [int], that holds
    [Val 10; Val 20; Val 30] at capacity 4. [Resize(1)] destroys the two
    trailing elements; [Resize(3)] then builds two elements in their
    cells with [std::uninitialized_default_construct_n], which for a
    trivial type performs no initialisation. The first element is
    preserved, but the two elements at indices 1 and 2 hold no
    default-constructed value: their values are indeterminate, [Junk]
    (on the usual implementations they read as the old [20] and [30]).
    The constructor [Vector(size_t)] of the same class builds its elements
    with [std::uninitialized_value_construct_n], and the same type then
    gets [Val 0] in every element. *)
Theorem Resize_up_leaves_trivial_elements_indeterminate :
  ∃ w1 w2 w3 : World pod,
    holds pod_vector 0 [Val 10; Val 20; Val 30] 4 ∧
    Resize 0 1 pod_vector = Ok tt w1 ∧
    holds w1 0 [Val 10] 4 ∧
    Resize 0 3 w1 = Ok tt w2 ∧
    holds w2 0 [Val 10; Junk; Junk] 4 ∧
    built default_ctor 2 = Some [Junk; Junk] ∧
    built value_ctor 2 = Some [Val 0; Val 0] ∧
    Vector_sized 1 3 w2 = Ok tt w3 ∧
    holds w3 1 [Val 0; Val 0; Val 0] 3.
Proof.
  eexists _, _, _.
  repeat (split; [first [vm_compute; reflexivity | holds_by_evaluation]|]).
  holds_by_evaluation.
Qed.

(** * The theorems at concrete vectors *)

Lemma appends_size_capacity_order_witness :
  ∃ w' cap,
    (Vector_default 0;; push_all 0 [ByCopy 5; ByMove 6; InPlace 7]) (@empty_world nat)
    = Ok tt w' ∧
    Size 0 w' = Ok 3 w' ∧
    Capacity 0 w' = Ok cap w' ∧
    append_capacity 3 cap ∧
    holds w' 0 [5; 6; 7] cap.
Proof. exact (appends_size_capacity_order empty_world 0 [ByCopy 5; ByMove 6; InPlace 7]). Defined.


Lemma resize_down_then_up_witness :
  (holds one_vector 0 [10; 20; 30] 4 ∧
   ∃ w', (Resize 0 1;; Resize 0 3) one_vector = Ok tt w' ∧
         holds w' 0 [10; 0; 0] 4 ∧
         leaked w' = []) ∧
  (holds pod_vector 0 [Val 10; Val 20; Val 30] 4 ∧
   ∃ w', (Resize 0 1;; Resize 0 3) pod_vector = Ok tt w' ∧
         holds w' 0 [Val 10; Junk; Junk] 4).
Proof.
  split.
  - assert (holds one_vector 0 [10; 20; 30] 4) as Hh by holds_by_evaluation.
    split; [exact Hh|].
    exact (resize_down_then_up one_vector 0 [10; 20; 30] [0; 0] 4 1 Hh ltac:(cbn; lia) eq_refl).
  - assert (holds pod_vector 0 [Val 10; Val 20; Val 30] 4) as Hh by holds_by_evaluation.
    split; [exact Hh|].
    destruct (resize_down_then_up pod_vector 0 [Val 10; Val 20; Val 30] [Junk; Junk] 4 1
                Hh ltac:(cbn; lia) eq_refl) as (w' & E & Hh' & _).
    exists w'. split; [exact E|exact Hh'].
Defined.

Lemma move_exchanges_witness :
  holds two_vectors 0 [1; 2] 2 ∧
  holds two_vectors 1 [3] 1 ∧
  (∃ w', Vector_move 2 0 two_vectors = Ok tt w' ∧
         holds w' 2 [1; 2] 2 ∧ holds w' 0 [] 0) ∧
  (∃ w', move_assignment 1 0 two_vectors = Ok tt w' ∧
         holds w' 1 [1; 2] 2 ∧ holds w' 0 [3] 1).
Proof.
  assert (holds two_vectors 0 [1; 2] 2) as H0 by holds_by_evaluation.
  assert (holds two_vectors 1 [3] 1) as H1 by holds_by_evaluation.
  split; [exact H0|]. split; [exact H1|]. split.
  - destruct (proj1 (move_exchanges two_vectors 2 0 [] [1; 2] 0 2 ltac:(lia) H0))
      as (w' & E & Ha & Hb & _).
    exists w'. split; [exact E|]. split; [exact Ha|exact Hb].
  - destruct (proj2 (move_exchanges two_vectors 1 0 [3] [1; 2] 1 2 ltac:(lia) H0) H1)
      as (w' & E & Ha & Hb & _).
    exists w'. split; [exact E|]. split; [exact Ha|exact Hb].
Defined.

Lemma copy_assignment_beyond_capacity_witness :
  (holds two_vectors 1 [3] 1 ∧ holds two_vectors 0 [1; 2] 2 ∧
   ∃ w', copy_assignment 1 0 two_vectors = Ok tt w' ∧
         holds w' 1 [1; 2] 2 ∧ holds w' 0 [1; 2] 2 ∧ leaked w' = []) ∧
  (holds two_brittle_vectors 1 [Sound 3] 1 ∧
   holds two_brittle_vectors 0 [Sound 1; Brittle 2] 2 ∧
   copy_assignment 1 0 two_brittle_vectors = Exn two_brittle_vectors).
Proof.
  split.
  - assert (holds two_vectors 1 [3] 1) as H1 by holds_by_evaluation.
    assert (holds two_vectors 0 [1; 2] 2) as H0 by holds_by_evaluation.
    assert (separate two_vectors 1 0) as Hs.
    { intros p E1 E0. vm_compute in E1, E0. congruence. }
    split; [exact H1|]. split; [exact H0|].
    destruct (proj1 (copy_assignment_beyond_capacity two_vectors 1 0 [3] [1; 2] 1 2
                       ltac:(lia) H1 H0 Hs ltac:(cbn; lia)) [1; 2] eq_refl)
      as (w' & E & Ha & Hb & Hl & _).
    exists w'. split; [exact E|]. split; [exact Ha|]. split; [exact Hb|exact Hl].
  - assert (holds two_brittle_vectors 1 [Sound 3] 1) as H1 by holds_by_evaluation.
    assert (holds two_brittle_vectors 0 [Sound 1; Brittle 2] 2) as H0 by holds_by_evaluation.
    assert (separate two_brittle_vectors 1 0) as Hs.
    { intros p E1 E0. vm_compute in E1, E0. congruence. }
    split; [exact H1|]. split; [exact H0|].
    exact (proj2 (copy_assignment_beyond_capacity two_brittle_vectors 1 0
                    [Sound 3] [Sound 1; Brittle 2] 1 2
                    ltac:(lia) H1 H0 Hs ltac:(cbn; lia)) eq_refl).
Defined.

Lemma Emplace_growth_rolls_back_witness :
  (let w := full_vector [Sound 1; Brittle 2; Sound 3] in
   holds w 0 [Sound 1; Brittle 2; Sound 3] 3 ∧
   Emplace 0 (Ptr 5 2) (Some (Sound 9)) w = Exn w) ∧
  (let w := full_vector [Sound 1; Sound 2; Brittle 3] in
   holds w 0 [Sound 1; Sound 2; Brittle 3] 3 ∧
   Emplace 0 (Ptr 5 1) (Some (Sound 9)) w = Exn w).
Proof.
  split.
  - assert (holds (full_vector [Sound 1; Brittle 2; Sound 3]) 0
                  [Sound 1; Brittle 2; Sound 3] 3) as Hh by holds_by_evaluation.
    split; [exact Hh|].
    destruct (Emplace_growth_rolls_back (H := obj_Element) _ 0 _ (Sound 9) 2 ltac:(reflexivity) Hh ltac:(cbn; lia))
      as (b & Eb & Hpre & _).
    injection Eb as <-. exact (Hpre eq_refl).
  - assert (holds (full_vector [Sound 1; Sound 2; Brittle 3]) 0
                  [Sound 1; Sound 2; Brittle 3] 3) as Hh by holds_by_evaluation.
    split; [exact Hh|].
    destruct (Emplace_growth_rolls_back (H := obj_Element) _ 0 _ (Sound 9) 1 ltac:(reflexivity) Hh ltac:(cbn; lia))
      as (b & Eb & _ & Hsuf).
    injection Eb as <-. exact (Hsuf [Sound 1] eq_refl eq_refl).
Defined.


(** * The further properties at concrete vectors *)

Lemma Vector_sized_spec_witness :
  (fits (T := nat) 2 ∧
   ∃ w', Vector_sized 0 2 (@empty_world nat) = Ok tt w' ∧
         holds w' 0 [0; 0] 2 ∧ leaked w' = []) ∧
  (fits (T := fussy) 2 ∧
   Vector_sized 0 2 (@empty_world fussy) = Exn empty_world).
Proof.
  assert (fits (T := nat) 2) as Hn by (by vm_compute).
  assert (fits (T := fussy) 2) as Hf by (by vm_compute).
  split; (split; [assumption|]).
  - exact (proj1 (proj2 (proj2 (Vector_sized_spec (@empty_world nat) 0 2 Hn))) [0; 0] eq_refl).
  - exact (proj2 (proj2 (proj2 (Vector_sized_spec (@empty_world fussy) 0 2 Hf))) eq_refl).
Defined.

Lemma Vector_copy_spec_witness :
  (holds two_vectors 0 [1; 2] 2 ∧
   ∃ w', Vector_copy 2 0 two_vectors = Ok tt w' ∧
         holds w' 2 [1; 2] 2 ∧ holds w' 0 [1; 2] 2 ∧ separate w' 2 0) ∧
  (holds two_brittle_vectors 0 [Sound 1; Brittle 2] 2 ∧
   Vector_copy 2 0 two_brittle_vectors = Exn two_brittle_vectors).
Proof.
  split.
  - assert (holds two_vectors 0 [1; 2] 2) as H0 by holds_by_evaluation.
    split; [exact H0|].
    destruct (proj1 (Vector_copy_spec two_vectors 2 0 [1; 2] 2 ltac:(lia) H0) [1; 2] eq_refl)
      as (w' & E & Ha & Hb & Hs & _).
    exists w'. split; [exact E|]. split; [exact Ha|]. split; [exact Hb|exact Hs].
  - assert (holds two_brittle_vectors 0 [Sound 1; Brittle 2] 2) as H0 by holds_by_evaluation.
    split; [exact H0|].
    exact (proj2 (Vector_copy_spec two_brittle_vectors 2 0 [Sound 1; Brittle 2] 2
                    ltac:(lia) H0) eq_refl).
Defined.

Lemma Vector_dtor_spec_witness :
  holds one_vector 0 [10; 20; 30] 4 ∧
  ∃ w', Vector_dtor 0 one_vector = Ok tt w' ∧ vecs w' !! 0 = None ∧ leaked w' = [].
Proof.
  assert (holds one_vector 0 [10; 20; 30] 4) as Hh by holds_by_evaluation.
  split; [exact Hh|].
  destruct (Vector_dtor_spec one_vector 0 [10; 20; 30] 4 Hh) as (w' & E & Hv & _ & Hl & _).
  exists w'. split; [exact E|]. split; [exact Hv|exact Hl].
Defined.

Lemma copy_then_destroy_witness :
  holds two_vectors 0 [1; 2] 2 ∧
  (Vector_copy 2 0;; Vector_dtor 2) two_vectors = Ok tt two_vectors.
Proof.
  assert (holds two_vectors 0 [1; 2] 2) as H0 by holds_by_evaluation.
  split; [exact H0|].
  exact (copy_then_destroy two_vectors 2 0 [1; 2] [1; 2] 2 ltac:(reflexivity) H0 eq_refl).
Defined.

Lemma Swap_spec_witness :
  holds two_vectors 0 [1; 2] 2 ∧ holds two_vectors 1 [3] 1 ∧
  (∃ w', Swap 0 1 two_vectors = Ok tt w' ∧ holds w' 0 [3] 1 ∧ holds w' 1 [1; 2] 2) ∧
  (Swap 0 1;; Swap 0 1) two_vectors = Ok tt two_vectors ∧
  Swap 0 0 two_vectors = Ok tt two_vectors.
Proof.
  assert (holds two_vectors 0 [1; 2] 2) as H0 by holds_by_evaluation.
  assert (holds two_vectors 1 [3] 1) as H1 by holds_by_evaluation.
  split; [exact H0|]. split; [exact H1|].
  destruct (Swap_spec two_vectors 0 1 [1; 2] [3] 2 1 H0 H1) as [Hne Hself].
  destruct (Hne ltac:(lia)) as [(w' & E & Ha & Hb & _) Htwice].
  split; [exists w'; split; [exact E|split; [exact Ha|exact Hb]]|].
  split; [exact Htwice|exact Hself].
Defined.

Lemma begin_end_spec_witness :
  holds one_vector 0 [10; 20; 30] 4 ∧
  ∃ b, begin_ 0 one_vector = Ok b one_vector ∧
       end_ 0 one_vector = Ok (b +ₚ 3) one_vector ∧
       load (b +ₚ 1) one_vector = Ok 20 one_vector ∧
       load (b +ₚ 3) one_vector = Fault.
Proof.
  assert (holds one_vector 0 [10; 20; 30] 4) as Hh by holds_by_evaluation.
  split; [exact Hh|].
  destruct (begin_end_spec one_vector 0 [10; 20; 30] 4 Hh) as (b & Hb & He & _ & Hl & Hf).
  exists b. split; [exact Hb|]. split; [exact He|]. split; [exact (Hl 1 20 eq_refl)|exact Hf].
Defined.

Lemma at_index_spec_witness :
  holds one_vector 0 [10; 20; 30] 4 ∧
  (∃ b, begin_ 0 one_vector = Ok b one_vector ∧
        at_index 0 1 one_vector = Ok (b +ₚ 1) one_vector ∧
        load (b +ₚ 1) one_vector = Ok 20 one_vector) ∧
  at_index 0 3 one_vector = Fault.
Proof.
  assert (holds one_vector 0 [10; 20; 30] 4) as Hh by holds_by_evaluation.
  split; [exact Hh|]. split.
  - exact (proj1 (at_index_spec one_vector 0 1 [10; 20; 30] 4 Hh) 20 eq_refl).
  - exact (proj2 (at_index_spec one_vector 0 3 [10; 20; 30] 4 Hh) ltac:(cbn; lia)).
Defined.

Lemma Reserve_failed_copy_changes_nothing_witness :
  holds two_brittle_vectors 0 [Sound 1; Brittle 2] 2 ∧
  fits (T := obj) 5 ∧
  Reserve 0 5 two_brittle_vectors = Exn two_brittle_vectors.
Proof.
  assert (holds two_brittle_vectors 0 [Sound 1; Brittle 2] 2) as H0 by holds_by_evaluation.
  assert (fits (T := obj) 5) as Hf by (by vm_compute).
  split; [exact H0|]. split; [exact Hf|].
  exact (Reserve_failed_copy_changes_nothing (H := obj_Element) two_brittle_vectors 0
           [Sound 1; Brittle 2] 2 5 ltac:(reflexivity) H0 ltac:(lia) Hf eq_refl).
Defined.

Lemma EmplaceBack_failed_construction_changes_nothing_witness :
  holds two_brittle_vectors 0 [Sound 1; Brittle 2] 2 ∧
  EmplaceBack 0 None two_brittle_vectors = Exn two_brittle_vectors ∧
  PushBack 0 (Brittle 7) two_brittle_vectors = Exn two_brittle_vectors.
Proof.
  assert (holds two_brittle_vectors 0 [Sound 1; Brittle 2] 2) as H0 by holds_by_evaluation.
  split; [exact H0|].
  destruct (EmplaceBack_failed_construction_changes_nothing two_brittle_vectors 0
              [Sound 1; Brittle 2] 2 H0) as (E & Hpush & _).
  split; [exact E|exact (Hpush (Brittle 7) eq_refl)].
Defined.

Lemma Resize_beyond_capacity_witness :
  (holds one_vector 0 [10; 20; 30] 4 ∧ fits (T := nat) 6 ∧
   ∃ w', Resize 0 6 one_vector = Ok tt w' ∧ holds w' 0 [10; 20; 30; 0; 0; 0] 6) ∧
  (holds pod_vector 0 [Val 10; Val 20; Val 30] 4 ∧ fits (T := pod) 5 ∧
   ∃ w', Resize 0 5 pod_vector = Ok tt w' ∧
         holds w' 0 [Val 10; Val 20; Val 30; Junk; Junk] 5) ∧
  (holds fussy_vector 0 [Fussy 1] 4 ∧ fits (T := fussy) 6 ∧
   ∃ w', Resize 0 6 fussy_vector = Exn w' ∧ holds w' 0 [Fussy 1] 6).
Proof.
  split; [|split].
  - assert (holds one_vector 0 [10; 20; 30] 4) as Hh by holds_by_evaluation.
    assert (fits (T := nat) 6) as Hf by (by vm_compute).
    split; [exact Hh|]. split; [exact Hf|].
    destruct (proj1 (proj2 (Resize_beyond_capacity one_vector 0 [10; 20; 30] [10; 20; 30] 4 6
                       Hh ltac:(lia) Hf eq_refl)) [0; 0; 0] eq_refl) as (w' & E & Hh' & _).
    exists w'. split; [exact E|exact Hh'].
  - assert (holds pod_vector 0 [Val 10; Val 20; Val 30] 4) as Hh by holds_by_evaluation.
    assert (fits (T := pod) 5) as Hf by (by vm_compute).
    split; [exact Hh|]. split; [exact Hf|].
    destruct (proj1 (proj2 (Resize_beyond_capacity pod_vector 0 [Val 10; Val 20; Val 30]
                       [Val 10; Val 20; Val 30] 4 5 Hh ltac:(lia) Hf eq_refl))
                    [Junk; Junk] eq_refl) as (w' & E & Hh' & _).
    exists w'. split; [exact E|exact Hh'].
  - assert (holds fussy_vector 0 [Fussy 1] 4) as Hh by holds_by_evaluation.
    assert (fits (T := fussy) 6) as Hf by (by vm_compute).
    split; [exact Hh|]. split; [exact Hf|].
    destruct (proj2 (proj2 (Resize_beyond_capacity fussy_vector 0 [Fussy 1] [Fussy 1] 4 6 Hh
                       ltac:(lia) Hf eq_refl)) eq_refl) as (w' & E & Hh' & _).
    exists w'. split; [exact E|exact Hh'].
Defined.

Lemma Resize_within_capacity_witness :
  (holds one_vector 0 [10; 20; 30] 4 ∧
   Resize 0 3 one_vector = Ok tt one_vector ∧
   (∃ w', Resize 0 1 one_vector = Ok tt w' ∧ holds w' 0 [10] 4) ∧
   (∃ w', Resize 0 4 one_vector = Ok tt w' ∧ holds w' 0 [10; 20; 30; 0] 4)) ∧
  (holds pod_vector 0 [Val 10; Val 20; Val 30] 4 ∧
   ∃ w', Resize 0 4 pod_vector = Ok tt w' ∧ holds w' 0 [Val 10; Val 20; Val 30; Junk] 4) ∧
  (holds fussy_vector 0 [Fussy 1] 4 ∧
   (∃ w', Resize 0 2 fussy_vector = Ok tt w' ∧ holds w' 0 [Fussy 1; Fussy 0] 4) ∧
   Resize 0 3 fussy_vector = Exn fussy_vector).
Proof.
  split; [|split].
  - assert (holds one_vector 0 [10; 20; 30] 4) as Hh by holds_by_evaluation.
    split; [exact Hh|]. split; [|split].
    + exact (proj1 (Resize_within_capacity one_vector 0 [10; 20; 30] 4 3 Hh ltac:(lia)) eq_refl).
    + destruct (proj1 (proj2 (Resize_within_capacity one_vector 0 [10; 20; 30] 4 1 Hh
                                ltac:(lia))) ltac:(cbn; lia)) as (w' & E & Hh' & _).
      exists w'. split; [exact E|exact Hh'].
    + destruct (proj1 (proj2 (proj2 (Resize_within_capacity one_vector 0 [10; 20; 30] 4 4 Hh
                                ltac:(lia))) ltac:(cbn; lia)) [0] eq_refl) as (w' & E & Hh' & _).
      exists w'. split; [exact E|exact Hh'].
  - assert (holds pod_vector 0 [Val 10; Val 20; Val 30] 4) as Hh by holds_by_evaluation.
    split; [exact Hh|].
    destruct (proj1 (proj2 (proj2 (Resize_within_capacity pod_vector 0
                                     [Val 10; Val 20; Val 30] 4 4 Hh
                                ltac:(lia))) ltac:(cbn; lia)) [Junk] eq_refl) as (w' & E & Hh' & _).
    exists w'. split; [exact E|exact Hh'].
  - assert (holds fussy_vector 0 [Fussy 1] 4) as Hh by holds_by_evaluation.
    split; [exact Hh|]. split.
    + destruct (proj1 (proj2 (proj2 (Resize_within_capacity fussy_vector 0 [Fussy 1] 4 2 Hh
                                ltac:(lia))) ltac:(cbn; lia)) [Fussy 0] eq_refl)
        as (w' & E & Hh' & _).
      exists w'. split; [exact E|exact Hh'].
    + exact (proj2 (proj2 (proj2 (Resize_within_capacity fussy_vector 0 [Fussy 1] 4 3 Hh
                                    ltac:(lia))) ltac:(cbn; lia)) eq_refl).
Defined.

Lemma copy_assignment_within_capacity_witness :
  (holds two_vectors 0 [1; 2] 2 ∧ holds two_vectors 1 [3] 1 ∧
   ∃ w', copy_assignment 0 1 two_vectors = Ok tt w' ∧
         holds w' 0 [3] 2 ∧ holds w' 1 [3] 1) ∧
  (holds brittle_source 0 [Sound 1; Sound 2] 2 ∧
   holds brittle_source 1 [Sound 3; Brittle 4] 2 ∧
   ∃ w', copy_assignment 0 1 brittle_source = Exn w' ∧
         holds w' 0 [Sound 3; Sound 2] 2 ∧ holds w' 1 [Sound 3; Brittle 4] 2).
Proof.
  split.
  - assert (holds two_vectors 0 [1; 2] 2) as H0 by holds_by_evaluation.
    assert (holds two_vectors 1 [3] 1) as H1 by holds_by_evaluation.
    assert (separate two_vectors 0 1) as Hs.
    { intros p E0 E1. vm_compute in E0, E1. congruence. }
    split; [exact H0|]. split; [exact H1|].
    destruct (proj1 (copy_assignment_within_capacity two_vectors 0 1 [1; 2] [3] 2 1
                       ltac:(lia) Hs H0 H1 ltac:(cbn; lia)) eq_refl [] eq_refl)
      as (w' & E & Ha & Hb & _).
    exists w'. split; [exact E|]. split; [exact Ha|exact Hb].
  - assert (holds brittle_source 0 [Sound 1; Sound 2] 2) as H0 by holds_by_evaluation.
    assert (holds brittle_source 1 [Sound 3; Brittle 4] 2) as H1 by holds_by_evaluation.
    assert (separate brittle_source 0 1) as Hs.
    { intros p E0 E1. vm_compute in E0, E1. congruence. }
    split; [exact H0|]. split; [exact H1|].
    destruct (proj2 (copy_assignment_within_capacity brittle_source 0 1
                       [Sound 1; Sound 2] [Sound 3; Brittle 4] 2 2
                       ltac:(lia) Hs H0 H1 ltac:(cbn; lia)) (or_introl eq_refl))
      as (w' & E & Ha & Hb & _).
    exists w'. split; [exact E|]. split; [exact Ha|exact Hb].
Defined.

Lemma copy_assignment_reuses_block_witness :
  holds two_vectors 0 [1; 2] 2 ∧ holds two_vectors 1 [3] 1 ∧
  ∃ w', copy_assignment 0 1 two_vectors = Ok tt w' ∧
        holds w' 0 [3] 2 ∧ holds w' 1 [3] 1 ∧
        storage w' 0 = storage two_vectors 0.
Proof.
  assert (holds two_vectors 0 [1; 2] 2) as H0 by holds_by_evaluation.
  assert (holds two_vectors 1 [3] 1) as H1 by holds_by_evaluation.
  assert (separate two_vectors 0 1) as Hs.
  { intros p E0 E1. vm_compute in E0, E1. congruence. }
  split; [exact H0|]. split; [exact H1|].
  destruct (copy_assignment_reuses_block two_vectors 0 1 [1; 2] [3] 2 1
              ltac:(lia) Hs H0 H1 ltac:(cbn; lia)) as (w' & E & Ha & Hb & Hst & _).
  exists w'. split; [exact E|]. split; [exact Ha|]. split; [exact Hb|exact Hst].
Defined.

Lemma PopBack_spec_witness :
  (holds one_vector 0 [10; 20; 30] 4 ∧
   ∃ w', PopBack 0 one_vector = Ok tt w' ∧ holds w' 0 [10; 20] 4) ∧
  (∃ w0 : World nat, holds w0 0 [] 0 ∧ PopBack 0 w0 = Fault).
Proof.
  split.
  - assert (holds one_vector 0 [10; 20; 30] 4) as Hh by holds_by_evaluation.
    split; [exact Hh|].
    destruct (proj1 (PopBack_spec one_vector 0 [10; 20; 30] 4 Hh) [10; 20] 30 eq_refl)
      as (w' & E & Hh' & _).
    exists w'. split; [exact E|exact Hh'].
  - destruct (holds_Vector_default (@empty_world nat) 0) as (w0 & _ & Hh & _).
    exists w0. split; [exact Hh|].
    exact (proj2 (PopBack_spec w0 0 [] 0 Hh) eq_refl).
Defined.

Lemma PushBack_then_PopBack_witness :
  holds two_vectors 0 [1; 2] 2 ∧
  ∃ w', (PushBack 0 7;; PopBack 0) two_vectors = Ok tt w' ∧ holds w' 0 [1; 2] 4.
Proof.
  assert (holds two_vectors 0 [1; 2] 2) as H0 by holds_by_evaluation.
  split; [exact H0|].
  destruct (PushBack_then_PopBack two_vectors 0 [1; 2] 2 7 H0) as (w' & E & Hh' & _).
  exists w'. split; [exact E|exact Hh'].
Defined.

Lemma Erase_spec_witness :
  holds one_vector 0 [10; 20; 30] 4 ∧
  ∃ b w', begin_ 0 one_vector = Ok b one_vector ∧
          Erase 0 (b +ₚ 1) one_vector = Ok (b +ₚ 1) w' ∧
          holds w' 0 [10; 30] 4.
Proof.
  assert (holds one_vector 0 [10; 20; 30] 4) as Hh by holds_by_evaluation.
  split; [exact Hh|].
  destruct (Erase_spec one_vector 0 [10] 20 [30] 4 Hh) as (b & w' & Hb & E & Hh' & _).
  exists b, w'. split; [exact Hb|]. split; [exact E|exact Hh'].
Defined.

Lemma Insert_spec_witness :
  holds one_vector 0 [10; 20; 30] 4 ∧
  ∃ b p w', begin_ 0 one_vector = Ok b one_vector ∧
            Insert 0 (b +ₚ 1) 99 one_vector = Ok p w' ∧
            holds w' 0 [10; 99; 20; 30] 4 ∧
            load p w' = Ok 99 w'.
Proof.
  assert (holds one_vector 0 [10; 20; 30] 4) as Hh by holds_by_evaluation.
  split; [exact Hh|].
  destruct (Insert_spec one_vector 0 [10] [20; 30] 4 99 Hh)
    as (b & p & w' & Hb & E & _ & Hh' & _ & Hl & _).
  exists b, p, w'. split; [exact Hb|]. split; [exact E|]. split; [exact Hh'|exact Hl].
Defined.

Lemma EmplaceBack_spec_witness :
  (holds one_vector 0 [10; 20; 30] 4 ∧
   ∃ b w', begin_ 0 one_vector = Ok b one_vector ∧
           EmplaceBack 0 (Some 40) one_vector = Ok (b +ₚ 3) w' ∧
           holds w' 0 [10; 20; 30; 40] 4 ∧
           storage w' 0 = storage one_vector 0) ∧
  (holds two_vectors 0 [1; 2] 2 ∧
   ∃ p w', EmplaceBack 0 (Some 3) two_vectors = Ok p w' ∧
           holds w' 0 [1; 2; 3] 4 ∧
           load p w' = Ok 3 w').
Proof.
  split.
  - assert (holds one_vector 0 [10; 20; 30] 4) as Hh by holds_by_evaluation.
    split; [exact Hh|].
    destruct (proj1 (EmplaceBack_spec one_vector 0 [10; 20; 30] 4 40 Hh) ltac:(cbn; lia))
      as (b & w' & Hb & E & Hh' & _ & Hst & _).
    exists b, w'. split; [exact Hb|]. split; [exact E|]. split; [exact Hh'|exact Hst].
  - assert (holds two_vectors 0 [1; 2] 2) as H0 by holds_by_evaluation.
    split; [exact H0|].
    destruct (proj2 (EmplaceBack_spec (H := nat_Element) two_vectors 0 [1; 2] 2 3 H0)
                    eq_refl [1; 2] eq_refl)
      as (p & w' & E & Hh' & _ & Hl & _).
    exists p, w'. split; [exact E|]. split; [exact Hh'|exact Hl].
Defined.

Lemma EmplaceBack_failed_copy_leaks_new_element_witness :
  holds two_brittle_vectors 0 [Sound 1; Brittle 2] 2 ∧
  ∃ w', EmplaceBack 0 (Some (Sound 9)) two_brittle_vectors = Exn w' ∧
        holds w' 0 [Sound 1; Brittle 2] 2 ∧
        leaked w' = [Sound 9].
Proof.
  assert (holds two_brittle_vectors 0 [Sound 1; Brittle 2] 2) as H0 by holds_by_evaluation.
  split; [exact H0|].
  destruct (EmplaceBack_failed_copy_leaks_new_element (H := obj_Element) two_brittle_vectors 0
              [Sound 1; Brittle 2] (Sound 9) ltac:(reflexivity) H0 eq_refl)
    as (w' & E & _ & _ & Hh' & Hl).
  exists w'. split; [exact E|]. split; [exact Hh'|exact Hl].
Defined.

Lemma Emplace_failed_construction_changes_nothing_witness :
  holds one_vector 0 [10; 20; 30] 4 ∧
  ∃ b, begin_ 0 one_vector = Ok b one_vector ∧
       Emplace 0 (b +ₚ 1) None one_vector = Exn one_vector.
Proof.
  assert (holds one_vector 0 [10; 20; 30] 4) as Hh by holds_by_evaluation.
  split; [exact Hh|].
  destruct (Emplace_failed_construction_changes_nothing one_vector 0 [10] [20; 30] 4 Hh)
    as (b & Hb & E & _).
  exists b. split; [exact Hb|exact E].
Defined.

Lemma calls_refine_sequence_witness :
  (holds one_vector 0 [10; 20; 30] 4 ∧
   ∃ w', run_calls 0 [CallPushBack 40; CallPushBack 50; CallInsert 1 99; CallErase 0;
                      CallPopBack; CallReserve 20; CallResize 2; CallResize 3] one_vector
         = Ok tt w' ∧
         holds w' 0 [99; 20; 0] 20 ∧
         leaked w' = []) ∧
  (holds pod_vector 0 [Val 10; Val 20; Val 30] 4 ∧
   ∃ w', run_calls 0 [CallResize 1; CallPushBack (Val 7); CallResize 6] pod_vector
         = Ok tt w' ∧
         holds w' 0 [Val 10; Val 7; Junk; Junk; Junk; Junk] 6 ∧
         leaked w' = []).
Proof.
  split.
  - assert (holds one_vector 0 [10; 20; 30] 4) as Hh by holds_by_evaluation.
    split; [exact Hh|].
    destruct (calls_refine_sequence (H := nat_Element) one_vector 0
                [CallPushBack 40; CallPushBack 50; CallInsert 1 99; CallErase 0;
                 CallPopBack; CallReserve 20; CallResize 2; CallResize 3]
                [10; 20; 30] [99; 20; 0] 4 20 Hh ltac:(vm_compute; reflexivity))
      as (w' & E & Hh' & _ & _ & Hl).
    exists w'. split; [exact E|]. split; [exact Hh'|exact Hl].
  - assert (holds pod_vector 0 [Val 10; Val 20; Val 30] 4) as Hh by holds_by_evaluation.
    split; [exact Hh|].
    destruct (calls_refine_sequence (H := pod_Element) pod_vector 0
                [CallResize 1; CallPushBack (Val 7); CallResize 6]
                [Val 10; Val 20; Val 30] [Val 10; Val 7; Junk; Junk; Junk; Junk] 4 6
                Hh ltac:(vm_compute; reflexivity))
      as (w' & E & Hh' & _ & _ & Hl).
    exists w'. split; [exact E|]. split; [exact Hh'|exact Hl].
Defined.

Lemma lifetime_leaves_no_trace_witness :
  (Vector_default 2;;
   run_calls 2 [CallPushBack 1; CallPushBack 2; CallInsert 0 3; CallResize 7; CallErase 1];;
   Vector_dtor 2) two_vectors = Ok tt two_vectors.
Proof.
  exact (lifetime_leaves_no_trace (H := nat_Element) two_vectors 2
           [CallPushBack 1; CallPushBack 2; CallInsert 0 3; CallResize 7; CallErase 1]
           [3; 2; 0; 0; 0; 0] 7 ltac:(reflexivity) ltac:(vm_compute; reflexivity)).
Defined.

Lemma Erase_at_end_is_undefined_witness :
  holds one_vector 0 [10; 20; 30] 4 ∧
  ∃ b, begin_ 0 one_vector = Ok b one_vector ∧ Erase 0 (b +ₚ 3) one_vector = Fault.
Proof.
  assert (holds one_vector 0 [10; 20; 30] 4) as Hh by holds_by_evaluation.
  split; [exact Hh|].
  exact (Erase_at_end_is_undefined one_vector 0 [10; 20; 30] 4 Hh).
Defined.

Lemma calls_leave_other_vectors_witness :
  holds two_vectors 0 [1; 2] 2 ∧ holds two_vectors 1 [3] 1 ∧
  ∃ w', run_calls 0 [CallPushBack 4; CallErase 0; CallReserve 9] two_vectors = Ok tt w' ∧
        holds w' 0 [2; 4] 9 ∧ holds w' 1 [3] 1 ∧ separate w' 0 1.
Proof.
  assert (holds two_vectors 0 [1; 2] 2) as H0 by holds_by_evaluation.
  assert (holds two_vectors 1 [3] 1) as H1 by holds_by_evaluation.
  assert (separate two_vectors 0 1) as Hs.
  { intros p E0 E1. vm_compute in E0, E1. congruence. }
  split; [exact H0|]. split; [exact H1|].
  exact (calls_leave_other_vectors (H := nat_Element) two_vectors 0 1
           [CallPushBack 4; CallErase 0; CallReserve 9] [1; 2] [2; 4] [3] 2 9 1
           ltac:(lia) Hs H0 H1 ltac:(vm_compute; reflexivity)).
Defined.

Lemma appends_within_capacity_keep_block_witness :
  holds one_vector 0 [10; 20; 30] 4 ∧
  ∃ w', push_all 0 [ByMove 40] one_vector = Ok tt w' ∧
        holds w' 0 [10; 20; 30; 40] 4 ∧
        storage w' 0 = storage one_vector 0.
Proof.
  assert (holds one_vector 0 [10; 20; 30] 4) as Hh by holds_by_evaluation.
  split; [exact Hh|].
  destruct (appends_within_capacity_keep_block one_vector 0 [10; 20; 30] 4 [ByMove 40]
              Hh ltac:(cbn; lia)) as (w' & E & Hh' & Hst & _).
  exists w'. split; [exact E|]. split; [exact Hh'|exact Hst].
Defined.

Lemma Reserve_failed_move_loses_elements_witness :
  holds token_vector 0 [Free 1; Stuck 2; Free 3] 3 ∧
  fits (T := token) 5 ∧
  ∃ w', Reserve 0 5 token_vector = Exn w' ∧
        holds w' 0 [Free 0; Stuck 2; Free 3] 3 ∧
        leaked w' = [].
Proof.
  assert (holds token_vector 0 [Free 1; Stuck 2; Free 3] 3) as Hh by holds_by_evaluation.
  assert (fits (T := token) 5) as Hf by (by vm_compute).
  split; [exact Hh|]. split; [exact Hf|].
  destruct (Reserve_failed_move_loses_elements (H := token_Element) token_vector 0
              [Free 1; Stuck 2; Free 3] 3 5 ltac:(reflexivity) Hh ltac:(lia) Hf eq_refl)
    as (w' & E & Hh' & _ & _ & Hl).
  exists w'. split; [exact E|]. split; [exact Hh'|exact Hl].
Defined.
